(** * kat_edit: path-addressed editing of a decoded object graph

    A shallow embedding of [kat_edit.py]: the path parser, the literal
    coercer, the conversion to engine primitives, the helper types compiled
    from the embedded C# text ([KatRoundtrip.Node] and
    [KatRoundtrip.RedirectBinder]), the JSON projection and the path mutator.

    Conventions of the model.
    - Text is a [string] of ASCII characters; the character classes of the
      regular expression ([\w], [\d]) and of [str.isdigit], [str.lower] are
      the ASCII ones.
    - The decoded graph is a heap of engine objects addressed by position;
      a reference is the address, so aliasing and cycles are explicit.
    - A list or an array has an element type and a dictionary a key type
      and a value type.  A slot of type [object] takes every value; a typed
      slot takes a value of its own type, and a slot of a reference type
      also takes null: the bridge converts an engine object only to a type
      it is an instance of.
    - The dictionaries are the generic ones.  A key is modelled by its text
      ([str(k)]), which tells the keys of one dictionary apart: a string is
      its own text, an integer its decimal notation.  A dictionary
      enumerates its keys in the order they were added.
    - The header strings of a node are never null.
    - [Decimal] holds the integers of magnitude below 2^96; its constructor
      raises for the others.  The limits of the interpreter (the recursion
      limit, the longest text [int] reads) are not part of the model.
    - A Python exception is a value of [error]; a function that can raise
      returns a [result]. *)

From Stdlib Require Import ZArith NArith Ascii String Lia.
From Stdlib Require Import DecimalString DecimalNat.
From Equations Require Import Equations.
From Equations.Prop Require Logic.
From stdpp Require Import base decidable option list gmap sets strings.

Open Scope string_scope.
Open Scope list_scope.
Open Scope Z_scope.

(** ** Characters and strings *)

Module Chars.

Definition code (c : ascii) : N := N_of_ascii c.

Definition between (lo hi : N) (c : ascii) : bool :=
  (lo <=? code c)%N && (code c <=? hi)%N.

Definition is_digit (c : ascii) : bool := between 48 57 c.
Definition is_upper (c : ascii) : bool := between 65 90 c.
Definition is_lower (c : ascii) : bool := between 97 122 c.

(** [[A-Za-z_]] *)
Definition is_ident_start (c : ascii) : bool :=
  is_upper c || is_lower c || Ascii.eqb c "_".

(** [\w] *)
Definition is_word (c : ascii) : bool := is_ident_start c || is_digit c.

(** The white space that [str.strip] removes ([str.isspace]). *)
Definition is_space (c : ascii) : bool :=
  between 9 13 c || between 28 32 c.

(** The white space that [int] and [float] skip around a number: the
    separators 28 to 31 are not part of it. *)
Definition is_blank (c : ascii) : bool :=
  between 9 13 c || Ascii.eqb c " ".

Definition lower_char (c : ascii) : ascii :=
  if is_upper c then ascii_of_N (code c + 32) else c.

Fixpoint lower (s : string) : string :=
  match s with
  | EmptyString => EmptyString
  | String c s' => String (lower_char c) (lower s')
  end.

(** Longest prefix whose characters satisfy [p], and what follows it. *)
Fixpoint span (p : ascii -> bool) (s : string) : string * string :=
  match s with
  | EmptyString => (EmptyString, EmptyString)
  | String c s' =>
      if p c then let '(w, r) := span p s' in (String c w, r)
      else (EmptyString, s)
  end.

Fixpoint contains_char (c : ascii) (s : string) : bool :=
  match s with
  | EmptyString => false
  | String d s' => Ascii.eqb c d || contains_char c s'
  end.

Definition digit_value (c : ascii) : N := (code c - 48)%N.

(** Value of a run of decimal digits, most significant first. *)
Fixpoint digits_value (acc : N) (s : string) : N :=
  match s with
  | EmptyString => acc
  | String c s' => digits_value (10 * acc + digit_value c)%N s'
  end.

Fixpoint last_char (s : string) : option ascii :=
  match s with
  | EmptyString => None
  | String c EmptyString => Some c
  | String _ s' => last_char s'
  end.

Fixpoint drop_last (s : string) : string :=
  match s with
  | EmptyString => EmptyString
  | String _ EmptyString => EmptyString
  | String c s' => String c (drop_last s')
  end.

Lemma span_length p s :
  (String.length (fst (span p s)) + String.length (snd (span p s)) =
   String.length s)%nat.
Proof.
  induction s as [|c s IH]; simpl; [reflexivity|].
  destruct (p c); simpl; [|reflexivity].
  destruct (span p s) as [w r]; simpl in *. lia.
Qed.

Lemma span_rest_le p s :
  (String.length (snd (span p s)) <= String.length s)%nat.
Proof. pose proof (span_length p s). lia. Qed.

End Chars.

(** ** Exceptions *)

Inductive error :=
  | InvalidPath (remainder : string)
      (** [ValueError("Invalid path near: " + s[pos:])] *)
  | CouldNotResolve (path_expr : string)
      (** [ValueError("Could not resolve path: " + path_expr)] *)
  | CannotAssignKey (path_expr : string)
      (** [TypeError("Cannot assign key on <type> at " + path_expr)] *)
  | CannotAssignIndex (key : nat)
      (** [TypeError("Cannot assign index <key>: <e>")] *)
  | Overflow (val : Z)
      (** the exception of [Decimal(val)] for a value out of its range *)
  | Refused (key : string)
      (** the exception of the bridge when [target[key] = net_val] finds no
          indexer that takes the key and the value *).
Arguments CannotAssignIndex key%_nat.

Inductive result (A : Type) :=
  | Ok (a : A)
  | Raise (e : error).
Arguments Ok {A} a.
Arguments Raise {A} e.

(** ** Path parser *)

Inductive token :=
  | TKey (name : string)   (** [("key", name)] *)
  | TIdx (i : nat)         (** [("idx", i)] *).
Arguments TIdx i%_nat.

Module PathToken.
Import Chars.

(** First alternative of [_path_token]: a dot and an identifier. *)
Definition alt_key (s : string) : option (token * string) :=
  match s with
  | String d (String c _ as r) =>
      if Ascii.eqb d "." && is_ident_start c
      then let '(w, r') := span is_word r in Some (TKey w, r')
      else None
  | _ => None
  end.

(** Second alternative: digits between brackets. *)
Definition alt_idx (s : string) : option (token * string) :=
  match s with
  | String d r =>
      if Ascii.eqb d "[" then
        match span is_digit r with
        | (String _ _ as ds, String b r') =>
            if Ascii.eqb b "]"
            then Some (TIdx (N.to_nat (digits_value 0 ds)), r')
            else None
        | _ => None
        end
      else None
  | EmptyString => None
  end.

(** Third alternative: an identifier, only at the very start of the text
    (the [^] anchor; [at_start] says that [pos] is 0). *)
Definition alt_root (at_start : bool) (s : string) : option (token * string) :=
  match s with
  | String c _ =>
      if at_start && is_ident_start c
      then let '(w, r') := span is_word s in Some (TKey w, r')
      else None
  | EmptyString => None
  end.

(** [_path_token.match(s, pos)]: the alternatives in their order. *)
Definition matches (at_start : bool) (s : string) : option (token * string) :=
  match alt_key s with
  | Some m => Some m
  | None =>
      match alt_idx s with
      | Some m => Some m
      | None => alt_root at_start s
      end
  end.

Lemma span_shorter p s w r :
  span p s = (w, r) -> (String.length r <= String.length s)%nat.
Proof. intros E. pose proof (span_rest_le p s) as L. rewrite E in L. exact L. Qed.

Lemma alt_key_shorter s tok r :
  alt_key s = Some (tok, r) -> (String.length r < String.length s)%nat.
Proof.
  unfold alt_key. destruct s as [|d [|c s]]; try discriminate.
  destruct (Ascii.eqb d "." && is_ident_start c); [|discriminate].
  destruct (span is_word (String c s)) as [w r'] eqn:E.
  intros [= <- <-]. apply span_shorter in E. simpl in *. lia.
Qed.

Lemma alt_idx_shorter s tok r :
  alt_idx s = Some (tok, r) -> (String.length r < String.length s)%nat.
Proof.
  unfold alt_idx. destruct s as [|d s]; try discriminate.
  destruct (Ascii.eqb d "["); [|discriminate].
  destruct (span is_digit s) as [ds r'] eqn:E.
  destruct ds as [|d0 ds]; [discriminate|].
  destruct r' as [|b r']; [discriminate|].
  destruct (Ascii.eqb b "]"); [|discriminate].
  intros [= <- <-]. apply span_shorter in E. simpl in *. lia.
Qed.

Lemma alt_root_shorter at_start s tok r :
  alt_root at_start s = Some (tok, r) ->
  (String.length r < String.length s)%nat.
Proof.
  unfold alt_root. destruct s as [|c s]; [discriminate|].
  destruct (at_start && is_ident_start c) eqn:G; [|discriminate].
  destruct (span is_word (String c s)) as [w r'] eqn:E.
  intros [= <- <-].
  apply andb_prop in G as [_ G].
  assert (W : is_word c = true) by (unfold is_word; now rewrite G).
  cbn [span] in E. rewrite W in E.
  destruct (span is_word s) as [w' r''] eqn:E'.
  injection E as <- <-. apply span_shorter in E'. simpl. lia.
Qed.

Lemma matches_shorter at_start s tok r :
  matches at_start s = Some (tok, r) ->
  (String.length r < String.length s)%nat.
Proof.
  unfold matches.
  destruct (alt_key s) as [[t1 r1]|] eqn:E1.
  { intros [= <- <-]. eauto using alt_key_shorter. }
  destruct (alt_idx s) as [[t2 r2]|] eqn:E2.
  { intros [= <- <-]. eauto using alt_idx_shorter. }
  eauto using alt_root_shorter.
Qed.

End PathToken.

(** [parse_path]: the [while pos < len(s)] loop.  [rest] is [s[pos:]] and
    [at_start] says whether [pos] is 0; every match consumes at least one
    character, which is what makes the loop end. *)
Equations? parse_loop (at_start : bool) (rest : string) (tokens : list token)
  : result (list token) by wf (String.length rest) lt :=
  parse_loop at_start EmptyString tokens := Ok tokens;
  parse_loop at_start rest tokens with Logic.inspect (PathToken.matches at_start rest) => {
    | exist _ None _ := Raise (InvalidPath rest);
    | exist _ (Some (tok, rest')) _ := parse_loop false rest' (tokens ++ [tok]) }.
Proof. eapply PathToken.matches_shorter. eassumption. Qed.

Definition parse_path (s : string) : result (list token) :=
  parse_loop true s [].

(** ** Python values and engine primitives *)

(** A double, written as the decimal that denotes it: [FDec neg m e] is the
    double nearest to [(-1)^neg * m * 10^e].  The rounding itself is the
    runtime's and is not part of the model. *)
Inductive pyfloat :=
  | FDec (neg : bool) (mantissa : N) (exp10 : Z)
  | FInf (neg : bool)
  | FNan.

(** Address of an engine object in the decoded graph. *)
Abbreviation addr := nat.

(** What Python code holds: [None], [bool], [int], [float], [str], or a
    reference to an engine object. *)
Inductive pyval :=
  | PyNone
  | PyBool (b : bool)
  | PyInt (z : Z)
  | PyFloat (f : pyfloat)
  | PyStr (s : string)
  | PyObj (a : addr).

(** What [_to_net] builds. *)
Inductive net :=
  | NetNull
  | NetBoolean (b : bool)
  | NetInt32 (z : Z)
  | NetInt64 (z : Z)
  | NetDecimal (z : Z)
  | NetDouble (f : pyfloat)
  | NetString (s : string)
  | NetObject (a : addr).

Definition fits_int32 (z : Z) : bool :=
  (-2147483648 <=? z) && (z <=? 2147483647).

Definition fits_int64 (z : Z) : bool :=
  (-9223372036854775808 <=? z) && (z <=? 9223372036854775807).

(** The integers a [Decimal] holds: 96 bits and a sign. *)
Definition fits_decimal (z : Z) : bool :=
  (-79228162514264337593543950335 <=? z) && (z <=? 79228162514264337593543950335).

(** [Decimal(val)] *)
Definition Decimal (val : Z) : result net :=
  if fits_decimal val then Ok (NetDecimal val) else Raise (Overflow val).

Definition _to_net (val : pyval) : result net :=
  match val with
  | PyNone => Ok NetNull
  | PyBool b => Ok (NetBoolean b)
  | PyInt z =>
      if fits_int32 z then Ok (NetInt32 z)
      else if fits_int64 z then Ok (NetInt64 z)
      else Decimal z
  | PyFloat f => Ok (NetDouble f)
  | PyStr s => Ok (NetString s)
  | PyObj a => Ok (NetObject a)
  end.

(** ** The builtins [int] and [float] on text *)

Module Builtins.
Import Chars.

Fixpoint lstrip (s : string) : string :=
  match s with
  | String c s' => if is_space c then lstrip s' else s
  | EmptyString => EmptyString
  end.

Fixpoint rstrip (s : string) : string :=
  match s with
  | String c s' =>
      match rstrip s' with
      | EmptyString => if is_space c then EmptyString else String c EmptyString
      | r => String c r
      end
  | EmptyString => EmptyString
  end.

Definition strip (s : string) : string := rstrip (lstrip s).

(** The text of a number without the blanks before and after it. *)
Fixpoint skip_blanks (s : string) : string :=
  match s with
  | String c s' => if is_blank c then skip_blanks s' else s
  | EmptyString => EmptyString
  end.

Fixpoint drop_blanks (s : string) : string :=
  match s with
  | String c s' =>
      match drop_blanks s' with
      | EmptyString => if is_blank c then EmptyString else String c EmptyString
      | r => String c r
      end
  | EmptyString => EmptyString
  end.

Definition unblank (s : string) : string := drop_blanks (skip_blanks s).

(** [[sign]]: whether a minus was read, and what follows. *)
Definition sign (s : string) : bool * string :=
  match s with
  | String c s' =>
      if Ascii.eqb c "-" then (true, s')
      else if Ascii.eqb c "+" then (false, s')
      else (false, s)
  | EmptyString => (false, s)
  end.

(** [(["_"] digit)*]: the digits read, without the underscores. *)
Fixpoint digitpart_tail (s : string) : string * string :=
  match s with
  | String c s' =>
      if is_digit c then
        let '(ds, r) := digitpart_tail s' in (String c ds, r)
      else if Ascii.eqb c "_" then
        match s' with
        | String d s'' =>
            if is_digit d then
              let '(ds, r) := digitpart_tail s'' in (String d ds, r)
            else (EmptyString, s)
        | EmptyString => (EmptyString, s)
        end
      else (EmptyString, s)
  | EmptyString => (EmptyString, EmptyString)
  end.

(** [digitpart ::= digit (["_"] digit)*] *)
Definition digitpart (s : string) : option (string * string) :=
  match s with
  | String c s' =>
      if is_digit c then
        let '(ds, r) := digitpart_tail s' in Some (String c ds, r)
      else None
  | EmptyString => None
  end.

(** [int(s)]; [None] stands for [ValueError]. *)
Definition py_int (s : string) : option Z :=
  let '(neg, body) := sign (unblank s) in
  match digitpart body with
  | Some (ds, EmptyString) =>
      let n := Z.of_N (digits_value 0 ds) in
      Some (if neg then - n else n)
  | _ => None
  end.

(** [exponent ::= ("e" | "E") [sign] digitpart], absent when the text ends. *)
Definition exponent (s : string) : option Z :=
  match s with
  | EmptyString => Some 0
  | String c s' =>
      if Ascii.eqb (lower_char c) "e" then
        let '(neg, body) := sign s' in
        match digitpart body with
        | Some (ds, EmptyString) =>
            let n := Z.of_N (digits_value 0 ds) in
            Some (if neg then - n else n)
        | _ => None
        end
      else None
  end.

(** [number ::= [digitpart] "." digitpart | digitpart ["."]]: the digits
    before and after the point, and what follows. *)
Definition number (s : string) : option (string * string * string) :=
  match digitpart s with
  | Some (ip, String c r) =>
      if Ascii.eqb c "." then
        match digitpart r with
        | Some (fp, r') => Some (ip, fp, r')
        | None => Some (ip, EmptyString, r)
        end
      else Some (ip, EmptyString, String c r)
  | Some (ip, EmptyString) => Some (ip, EmptyString, EmptyString)
  | None =>
      match s with
      | String c r =>
          if Ascii.eqb c "." then
            match digitpart r with
            | Some (fp, r') => Some (EmptyString, fp, r')
            | None => None
            end
          else None
      | EmptyString => None
      end
  end.

(** [float(s)]; [None] stands for [ValueError]. *)
Definition py_float (s : string) : option pyfloat :=
  let '(neg, body) := sign (unblank s) in
  let kw := lower body in
  if String.eqb kw "inf" || String.eqb kw "infinity" then Some (FInf neg)
  else if String.eqb kw "nan" then Some FNan
  else
    match number body with
    | Some (ip, fp, r) =>
        match exponent r with
        | Some e =>
            Some (FDec neg (digits_value 0 (String.append ip fp))
                    (e - Z.of_nat (String.length fp)))
        | None => None
        end
    | None => None
    end.

End Builtins.

(** ** Literal coercion *)

(** The double quote character (code 34) and the single quote. *)
Definition dquote : ascii := Ascii false true false false false true false false.
Definition squote : ascii := "'"%char.

(** [len(s) >= 2], and [s[0]] and [s[-1]] are both the double quote or both
    the single quote. *)
Definition quoted (s : string) : bool :=
  match s with
  | String c (String _ _ as s') =>
      match Chars.last_char s' with
      | Some d =>
          (Ascii.eqb c dquote && Ascii.eqb d dquote) ||
          (Ascii.eqb c squote && Ascii.eqb d squote)
      | None => false
      end
  | _ => false
  end.

(** [s[1:-1]] *)
Definition strip_quotes (s : string) : string :=
  match s with
  | String _ s' => Chars.drop_last s'
  | EmptyString => EmptyString
  end.

(** [s.startswith("0") and len(s) > 1 and s[1].isdigit()] *)
Definition leading_zero (s : string) : bool :=
  match s with
  | String c (String d _) => Ascii.eqb c "0" && Chars.is_digit d
  | _ => false
  end.

Definition parse_value_literal (s : string) : pyval :=
  if quoted s then PyStr (strip_quotes s)
  else
    let sl := Chars.lower s in
    if String.eqb sl "true" then PyBool true
    else if String.eqb sl "false" then PyBool false
    else if String.eqb sl "null" then PyNone
    else if leading_zero s then PyStr s
    else if Chars.contains_char "." s || Chars.contains_char "e" sl then
      match Builtins.py_float s with
      | Some f => PyFloat f
      | None => PyStr s
      end
    else
      match Builtins.py_int s with
      | Some z => PyInt z
      | None => PyStr s
      end.

(** ** Insertion-ordered dictionaries

    A Python [dict] and the engine's [Dictionary<string, object>] both keep
    the order in which keys were first inserted (the latter as long as
    nothing is removed, and nothing here removes): an assignment to a key
    that is present replaces the value where it stands, an assignment to an
    absent key appends. *)

Module Assoc.
Section Assoc.
Context {V : Type}.

Fixpoint get (k : string) (d : list (string * V)) : option V :=
  match d with
  | [] => None
  | (k', v) :: d' => if String.eqb k k' then Some v else get k d'
  end.

(** [d[k] = v] *)
Fixpoint set (k : string) (v : V) (d : list (string * V)) : list (string * V) :=
  match d with
  | [] => [(k, v)]
  | (k', v') :: d' =>
      if String.eqb k k' then (k', v) :: d' else (k', v') :: set k v d'
  end.

(** [d.update(e)] *)
Definition update (d e : list (string * V)) : list (string * V) :=
  fold_left (fun acc kv => set kv.1 kv.2 acc) e d.

Definition keys (d : list (string * V)) : list string := d.*1.

End Assoc.
End Assoc.

(** ** The decoded graph *)

(** Content of an [object] slot.  The bridge hands the primitives to Python
    as [None], [bool], [int], [float] and [str]; anything else is a
    reference to an engine object. *)
Inductive value :=
  | VNull
  | VBoolean (b : bool)
  | VInt32 (z : Z)
  | VInt64 (z : Z)
  | VDouble (f : pyfloat)
  | VString (s : string)
  | VRef (a : addr).
Arguments VRef a%_nat.

(** [KatRoundtrip.Node]: the two header strings and the [Data] dictionary,
    which is created with the node and never replaced. *)
Record Node := mkNode {
  FullTypeName : string;
  AssemblyName : string;
  Data : list (string * value)
}.

(** The type of the slots of a container. *)
Inductive ty :=
  | TObject
  | TBoolean
  | TInt32
  | TInt64
  | TDouble
  | TDecimal
  | TString
  | TClass (name : string)     (** another reference type *)
  | TStruct (name : string)    (** another value type *).

(** The type of the keys of a dictionary. *)
Inductive keytype :=
  | KString
  | KInt32
  | KInt64
  | KOther (name : string)     (** a type no path step is converted to *).

(** Engine objects, by the branch of [to_jsonable.conv] that handles them.
    The entries of a dictionary are in the order of its enumeration, each
    under the text of its key. *)
Inductive object :=
  | ONode (n : Node)                                  (** [KatRoundtrip.Node] *)
  | ODateTime (iso : string)                          (** [x.ToString("o")] *)
  | ODecimal (unscaled : Z) (scale : nat)             (** [unscaled / 10^scale] *)
  | OGuid (text : string)                             (** [str(x)] *)
  | OBytes (bs : list N)                              (** [Byte[]] *)
  | ODictionary (keys : keytype) (values : ty) (entries : list (string * value))
      (** [Dictionary<K, V>] *)
  | OList (elem : ty) (items : list value)            (** [List<T>], [T[]] *)
  | OOther (tname : string) (fields : list (string * value))
      (** anything else, with the instance fields reflection finds *).

(** Whether the bridge hands a value that [_to_net] built to a slot of the
    type: as it is to an [object] slot, to a typed slot when the value is of
    that type, and null to a slot of a reference type.  (Whether a
    reference type takes an object that was passed through depends on the
    class of the object; no literal is one.) *)
Definition accepts (t : ty) (v : net) : bool :=
  match t, v with
  | TObject, _ => true
  | TBoolean, NetBoolean _ => true
  | TInt32, NetInt32 _ => true
  | TInt64, NetInt64 _ => true
  | TDouble, NetDouble _ => true
  | TDecimal, NetDecimal _ => true
  | TString, (NetString _ | NetNull) => true
  | TClass _, NetNull => true
  | _, _ => false
  end.

(** The usual decimal notation of a natural number: [str(i)]. *)
Definition decimal (i : nat) : string := NilEmpty.string_of_uint (Nat.to_uint i).

(** The key an index is converted to, as text: an integer within the range
    of the key type, when the keys are integers. *)
Definition index_key (kt : keytype) (i : nat) : option string :=
  match kt with
  | KInt32 => if fits_int32 (Z.of_nat i) then Some (decimal i) else None
  | KInt64 => if fits_int64 (Z.of_nat i) then Some (decimal i) else None
  | KString | KOther _ => None
  end.

(** The graph: the objects, each at its address. *)
Abbreviation heap := (list object).

(** ** The helper types compiled from the C# text *)

Module KatRoundtrip.

(** [string.IsNullOrEmpty]; the header strings of the model are never null. *)
Definition IsNullOrEmpty (s : string) : bool :=
  match s with EmptyString => true | _ => false end.

(** [SerializationInfo]: the type header and the named entries, whose names
    are distinct: [AddValue] refuses a name that is already present. *)
Record SerializationInfo := mkInfo {
  info_FullTypeName : string;
  info_AssemblyName : string;
  info_entries : list (string * value)
}.

Definition set_FullTypeName (s : string) (info : SerializationInfo) :=
  mkInfo s (info_AssemblyName info) (info_entries info).

Definition set_AssemblyName (s : string) (info : SerializationInfo) :=
  mkInfo (info_FullTypeName info) s (info_entries info).

(** [info.AddValue(name, value)]; [None] stands for the exception raised on
    a duplicate name. *)
Definition AddValue (name : string) (v : value) (info : SerializationInfo)
  : option SerializationInfo :=
  match Assoc.get name (info_entries info) with
  | Some _ => None
  | None =>
      Some (mkInfo (info_FullTypeName info) (info_AssemblyName info)
              (info_entries info ++ [(name, v)]))
  end.

(** The deserialization constructor [Node(SerializationInfo, StreamingContext)]. *)
Definition Node_ctor (info : SerializationInfo) : Node :=
  mkNode (info_FullTypeName info) (info_AssemblyName info)
    (fold_left (fun data e => Assoc.set e.1 e.2 data) (info_entries info) []).

(** The [foreach (var kv in Data) info.AddValue(kv.Key, kv.Value)] loop. *)
Fixpoint add_all (data : list (string * value)) (info : SerializationInfo)
  : option SerializationInfo :=
  match data with
  | [] => Some info
  | (k, v) :: data' =>
      match AddValue k v info with
      | Some info' => add_all data' info'
      | None => None
      end
  end.

(** [Node.GetObjectData(info, context)] *)
Definition GetObjectData (n : Node) (info : SerializationInfo)
  : option SerializationInfo :=
  let info :=
    if negb (IsNullOrEmpty (FullTypeName n))
    then set_FullTypeName (FullTypeName n) info else info in
  let info :=
    if negb (IsNullOrEmpty (AssemblyName n))
    then set_AssemblyName (AssemblyName n) info else info in
  add_all (Data n) info.

(** What [RedirectBinder.BindToType] returns: [typeof(Node)], a type found
    by [Type.GetType], or [typeof(object)]. *)
Inductive binding (T : Type) :=
  | BindNode
  | BindNative (t : T)
  | BindObject.
Arguments BindNode {T}.
Arguments BindNative {T} t.
Arguments BindObject {T}.

Definition prefix : string := "Everbyte.TextGame.Saving".
Definition vendor : string := "Everbyte".

(** [s.StartsWith(p)] *)
Definition StartsWith (p s : string) : bool := String.prefix p s.

(** [s.IndexOf(p, StringComparison.OrdinalIgnoreCase) >= 0] *)
Fixpoint occurs (p s : string) : bool :=
  String.prefix p s ||
  match s with
  | String _ s' => occurs p s'
  | EmptyString => false
  end.

Definition ContainsIgnoreCase (p s : string) : bool :=
  occurs (Chars.lower p) (Chars.lower s).

(** The name handed to [Type.GetType]. *)
Definition full_name (assemblyName typeName : string) : string :=
  if IsNullOrEmpty assemblyName then typeName
  else String.append typeName (String.append ", " assemblyName).

Section Binder.
(** The engine's types, and [Type.GetType(full, throwOnError: false)],
    which answers [null] for a name it cannot resolve. *)
Context {T : Type} (GetType : string -> option T).

Definition BindToType (assemblyName typeName : string) : binding T :=
  if negb (IsNullOrEmpty typeName) && StartsWith prefix typeName
  then BindNode
  else if negb (IsNullOrEmpty assemblyName) && StartsWith prefix assemblyName
  then BindNode
  else
    let full := full_name assemblyName typeName in
    match GetType full with
    | Some t => BindNative t
    | None =>
        if negb (IsNullOrEmpty typeName) && ContainsIgnoreCase vendor typeName
        then BindNode
        else BindObject
    end.
End Binder.

End KatRoundtrip.

(** ** JSON projection *)

#[local] Set Warnings "-register-all".

Inductive json :=
  | JNull
  | JBool (b : bool)
  | JInt (z : Z)
  | JFloat (f : pyfloat)
  | JStr (s : string)
  | JArr (items : list json)
  | JObj (members : list (string * json)).

Section Projector.
(** [RuntimeHelpers.GetHashCode], the key of the visited set. *)
Variable GetHashCode : addr -> Z.
Variable h : heap.

(** The loops [py[str(k)] = conv(data[k])], [d[str(k)] = conv(x[k])] and
    [obj[f.Name] = conv(f.GetValue(x))]: [acc] is the dictionary being
    filled, [rec] is [conv]. *)
Fixpoint conv_members (rec : gset Z -> value -> option (json * gset Z))
    (seen : gset Z) (es : list (string * value)) (acc : list (string * json))
  : option (list (string * json) * gset Z) :=
  match es with
  | [] => Some (acc, seen)
  | (k, v) :: es' =>
      match rec seen v with
      | Some (j, seen') => conv_members rec seen' es' (Assoc.set k j acc)
      | None => None
      end
  end.

(** The loop [lst.append(conv(it.Current))]. *)
Fixpoint conv_items (rec : gset Z -> value -> option (json * gset Z))
    (seen : gset Z) (xs : list value) : option (list json * gset Z) :=
  match xs with
  | [] => Some ([], seen)
  | x :: xs' =>
      match rec seen x with
      | Some (j, seen') =>
          match conv_items rec seen' xs' with
          | Some (js, seen'') => Some (j :: js, seen'')
          | None => None
          end
      | None => None
      end
  end.

Definition decimal_to_float (unscaled : Z) (scale : nat) : pyfloat :=
  FDec (unscaled <? 0) (Z.abs_N unscaled) (- Z.of_nat scale).

(** The part of [conv] that follows the visited-set test: the dispatch on
    the kind of object, with [rec] for the recursive calls. *)
Definition conv_object (rec : gset Z -> value -> option (json * gset Z))
    (seen : gset Z) (o : object) : option (json * gset Z) :=
  match o with
  | ONode n =>
      let d := [("$original_dotnet_type", JStr (FullTypeName n));
                ("$original_assembly", JStr (AssemblyName n))] in
      match conv_members rec seen (Data n) [] with
      | Some (py, seen') => Some (JObj (Assoc.update d py), seen')
      | None => None
      end
  | ODateTime iso => Some (JStr iso, seen)
  | ODecimal z sc => Some (JFloat (decimal_to_float z sc), seen)
  | OGuid text => Some (JStr text, seen)
  | OBytes bs => Some (JArr (map (fun b => JInt (Z.of_N b)) bs), seen)
  | ODictionary _ _ es =>
      match conv_members rec seen es [] with
      | Some (d, seen') => Some (JObj d, seen')
      | None => None
      end
  | OList _ xs =>
      match conv_items rec seen xs with
      | Some (lst, seen') => Some (JArr lst, seen')
      | None => None
      end
  | OOther tname fs =>
      match conv_members rec seen fs [("$type", JStr tname)] with
      | Some (obj, seen') => Some (JObj obj, seen')
      | None => None
      end
  end.

(** [conv]; [seen] is threaded through the calls as the closure variable
    is.  [fuel] bounds the depth of the recursion, and [None] means that
    it ran out.  A reference that is not in the heap does not occur in a
    decoded graph; it is projected to [null]. *)
Fixpoint conv (fuel : nat) (seen : gset Z) (x : value)
  : option (json * gset Z) :=
  match fuel with
  | O => None
  | S fuel' =>
      match x with
      | VNull => Some (JNull, seen)
      | VBoolean b => Some (JBool b, seen)
      | VInt32 z | VInt64 z => Some (JInt z, seen)
      | VDouble f => Some (JFloat f, seen)
      | VString s => Some (JStr s, seen)
      | VRef a =>
          let oid := GetHashCode a in
          if decide (oid ∈ seen) then Some (JNull, seen)
          else
            let seen := {[oid]} ∪ seen in
            match h !! a with
            | Some o => conv_object (conv fuel') seen o
            | None => Some (JNull, seen)
            end
      end
  end.

(** [to_jsonable(o)]: [conv] from an empty visited set.  No chain of
    nested calls is longer than the number of objects plus one. *)
Definition to_jsonable (o : value) : option json :=
  match conv (S (length h)) ∅ o with
  | Some (j, _) => Some j
  | None => None
  end.

End Projector.

(** ** Path mutator *)

(** What a variable of the mutator holds: a slot value, or the [Data]
    dictionary of the node at an address. *)
Inductive ref :=
  | RVal (v : value)
  | RData (a : addr).

Section Mutator.
Variable h : heap.

(** [get_node_data_if_any(obj)] *)
Definition get_node_data_if_any (obj : ref) : option ref :=
  match obj with
  | RVal (VRef a) =>
      match h !! a with
      | Some (ONode _) => Some (RData a)
      | _ => None
      end
  | _ => None
  end.

(** The entries of [cur] when it is an engine dictionary
    ([isinstance(cur, IDictionary) or hasattr(cur, "ContainsKey")]). *)
Definition as_dictionary (cur : ref) : option (list (string * value)) :=
  match cur with
  | RData a =>
      match h !! a with
      | Some (ONode n) => Some (Data n)
      | _ => None
      end
  | RVal (VRef a) =>
      match h !! a with
      | Some (ODictionary _ _ es) => Some es
      | _ => None
      end
  | RVal _ => None
  end.

(** [dict_get(d, key)]: the value, or [None] for an absent key.  Where the
    keys are strings [ContainsKey] finds the key; where they are not, it
    raises or answers no, and the loop over [d.Keys] finds the key whose
    text is [key]. *)
Definition dict_get (d : list (string * value)) (key : string) : value :=
  match Assoc.get key d with
  | Some v => v
  | None => VNull
  end.

(** [cur[i]], then [cur.get_Item(i)]; [None] when both raise.  A list is
    indexed within its bounds, and so are a byte buffer and a [str]; a
    dictionary keyed by integers is indexed by a key it holds. *)
Definition get_item (cur : ref) (i : nat) : option value :=
  match cur with
  | RVal (VRef a) =>
      match h !! a with
      | Some (OList _ xs) => xs !! i
      | Some (OBytes bs) => (fun b => VInt32 (Z.of_N b)) <$> bs !! i
      | Some (ODictionary kt _ es) =>
          match index_key kt i with
          | Some k => Assoc.get k es
          | None => None
          end
      | _ => None
      end
  | RVal (VString s) =>
      (fun c => VString (String c EmptyString)) <$> String.get i s
  | _ => None
  end.

(** The body of the [for] loop of [traverse_for_set], and the loop. *)
Fixpoint traverse_loop (cur parent : value) (last : option token)
    (path_tokens : list token) : value * option token * value :=
  match path_tokens with
  | [] => (parent, last, cur)
  | tk :: rest =>
      let parent := cur in
      let last := Some tk in
      let cur :=
        match get_node_data_if_any (RVal cur) with
        | Some data => data
        | None => RVal cur
        end in
      match tk with
      | TKey tk_val =>
          match as_dictionary cur with
          | Some d => traverse_loop (dict_get d tk_val) parent last rest
          | None => (parent, last, VNull)
          end
      | TIdx tk_val =>
          match get_item cur tk_val with
          | Some v => traverse_loop v parent last rest
          | None => (parent, last, VNull)
          end
      end
  end.

Definition traverse_for_set (root : value) (path_tokens : list token)
  : value * option token * value :=
  traverse_loop root VNull None path_tokens.

(** Putting an engine primitive into a slot.  A [Decimal] is a new boxed
    object, placed after the objects of the graph. *)
Definition box (v : net) : heap * value :=
  match v with
  | NetNull => (h, VNull)
  | NetBoolean b => (h, VBoolean b)
  | NetInt32 z => (h, VInt32 z)
  | NetInt64 z => (h, VInt64 z)
  | NetDecimal z => (h ++ [ODecimal z 0], VRef (length h))
  | NetDouble f => (h, VDouble f)
  | NetString s => (h, VString s)
  | NetObject a => (h, VRef a)
  end.

(** The indexer of an engine object under a string: the object after
    [target[key] = net_val], where [slot] is the value in its slot; [None]
    when the bridge raises.  A dictionary keyed by strings takes a value
    of the type of its values, under a key it holds or under a new one. *)
Definition set_key (o : object) (key : string) (v : net) (slot : value)
  : option object :=
  match o with
  | ODictionary KString vt es =>
      if accepts vt v then Some (ODictionary KString vt (Assoc.set key slot es))
      else None
  | _ => None
  end.

(** The indexer under an integer, and [set_Item]: a list or an array takes
    a value of the type of its elements within its bounds; a dictionary
    keyed by integers takes a value of the type of its values, under a key
    it holds or under a new one. *)
Definition set_index (o : object) (i : nat) (v : net) (slot : value)
  : option object :=
  match o with
  | OList et xs =>
      if decide (i < length xs)%nat then
        if accepts et v then Some (OList et (<[i := slot]> xs)) else None
      else None
  | ODictionary kt vt es =>
      match index_key kt i with
      | Some k =>
          if accepts vt v then Some (ODictionary kt vt (Assoc.set k slot es))
          else None
      | None => None
      end
  | _ => None
  end.

(** The [kind == "key"] branch of [set_value].  The [Data] of a node is a
    [Dictionary<string, object>]; on another dictionary the exception of the
    bridge is not caught; on anything else the branch raises its own. *)
Definition store_key (target : ref) (key path_expr : string) (v : net)
  : heap * result unit :=
  let '(h', slot) := box v in
  match target with
  | RData a =>
      match h !! a with
      | Some (ONode n) =>
          (<[a := ONode (mkNode (FullTypeName n) (AssemblyName n)
                           (Assoc.set key slot (Data n)))]> h', Ok tt)
      | _ => (h, Raise (CannotAssignKey path_expr))
      end
  | RVal (VRef a) =>
      match h !! a with
      | Some (ODictionary kt vt es) =>
          match set_key (ODictionary kt vt es) key v slot with
          | Some o' => (<[a := o']> h', Ok tt)
          | None => (h, Raise (Refused key))
          end
      | _ => (h, Raise (CannotAssignKey path_expr))
      end
  | RVal _ => (h, Raise (CannotAssignKey path_expr))
  end.

(** The [kind == "idx"] branch: [target[key] = net_val], then
    [target.set_Item(key, net_val)], and the [TypeError] when both raise.
    The [Data] of a node is not keyed by integers, a byte buffer takes none
    of the values [_to_net] builds, a [str] cannot be assigned into. *)
Definition store_index (target : ref) (key : nat) (v : net)
  : heap * result unit :=
  let '(h', slot) := box v in
  match target with
  | RVal (VRef a) =>
      match h !! a with
      | Some o =>
          match set_index o key v slot with
          | Some o' => (<[a := o']> h', Ok tt)
          | None => (h, Raise (CannotAssignIndex key))
          end
      | None => (h, Raise (CannotAssignIndex key))
      end
  | _ => (h, Raise (CannotAssignIndex key))
  end.

(** The part of [set_value] that follows the traversal. *)
Definition assign (parent : value) (last : option token)
    (path_expr : string) (py_val : pyval) : heap * result unit :=
  match parent, last with
  | VNull, _ | _, None => (h, Raise (CouldNotResolve path_expr))
  | _, Some (kind_key) =>
      match _to_net py_val with
      | Raise e => (h, Raise e)
      | Ok net_val =>
          let target :=
            match get_node_data_if_any (RVal parent) with
            | Some parent_data => parent_data
            | None => RVal parent
            end in
          match kind_key with
          | TKey key => store_key target key path_expr net_val
          | TIdx key => store_index target key net_val
          end
      end
  end.

(** [set_value(root, path_expr, value_literal)]: the graph afterwards and
    whether the call returned or raised. *)
Definition set_value (root : value) (path_expr value_literal : string)
  : heap * result unit :=
  match parse_path path_expr with
  | Raise e => (h, Raise e)
  | Ok tokens =>
      let '(parent, last, _cur) := traverse_for_set root tokens in
      assign parent last path_expr (parse_value_literal value_literal)
  end.

End Mutator.

(** ** The edit command *)

(** What [cmd_edit] can raise before it serializes. *)
Inductive edit_error :=
  | BadAssignment (assignment : string)
      (** [ValueError("--set must be path=value, got: " + assignment)] *)
  | SetRaised (e : error)
      (** an exception of [set_value] *).

(** [assignment.split("=", 1)]: the text before the first equals sign and
    the text after it; [None] when ["=" not in assignment]. *)
Fixpoint split_eq (s : string) : option (string * string) :=
  match s with
  | EmptyString => None
  | String c s' =>
      if Ascii.eqb c "=" then Some (EmptyString, s')
      else
        match split_eq s' with
        | Some (path, value) => Some (String c path, value)
        | None => None
        end
  end.

(** The loop of [cmd_edit] over [args.set]: the graph as the loop leaves
    it, and the exception that ended the loop, if one did. *)
Fixpoint apply_sets (h : heap) (root : value) (sets : list string)
  : heap * option edit_error :=
  match sets with
  | [] => (h, None)
  | assignment :: rest =>
      match split_eq assignment with
      | None => (h, Some (BadAssignment assignment))
      | Some (path, value) =>
          match set_value h root (Builtins.strip path) (Builtins.strip value) with
          | (h', Ok _) => apply_sets h' root rest
          | (h', Raise e) => (h', Some (SetRaised e))
          end
      end
  end.

(** [cmd_edit] between [deserialize] and [serialize]: the graph handed to
    [serialize], or [None] when an exception ended the command before. *)
Definition cmd_edit (h : heap) (root : value) (sets : list string) : option heap :=
  match apply_sets h root sets with
  | (h', None) => Some h'
  | (_, Some _) => None
  end.

(** * Vocabulary of the properties *)

(** ** The projection *)

Abbreviation projector := (gset Z -> value -> option (json * gset Z)).

(** A projector that only ever adds to the visited set. *)
Definition growing (rec : projector) : Prop :=
  forall seen x j seen', rec seen x = Some (j, seen') -> seen ⊆ seen'.

(** A projector that answers whenever the visited set contains [base]. *)
Definition answers (base : gset Z) (rec : projector) : Prop :=
  forall seen x, base ⊆ seen -> is_Some (rec seen x).

(** [rec'] answers as [rec] does wherever [rec] answers. *)
Definition extends (rec rec' : projector) : Prop :=
  forall seen x r, rec seen x = Some r -> rec' seen x = Some r.

Section Unvisited.
Variable GetHashCode : addr -> Z.
Variable h : heap.

(** The addresses of the heap whose hash code has not been visited. *)
Definition unvisited (seen : gset Z) : gset nat :=
  filter (fun a => GetHashCode a ∉ seen) (list_to_set (seq 0 (length h))).

End Unvisited.

(** ** Paths and slots *)

Section Slots.
Variable h : heap.

(** The step into [Node.Data] that [traverse_for_set] and [set_value]
    both take before they look at a container. *)
Definition descend (v : value) : ref :=
  match get_node_data_if_any h (RVal v) with
  | Some data => data
  | None => RVal v
  end.

(** *** The walk

    What the walk of [traverse_for_set] goes on with after a step from
    [cur], and [None] when the step ends the walk: a field step answers
    with the value under the name, or with null when the dictionary has no
    such name; an index step answers with the element, the character or the
    entry. *)
Definition reads (cur : value) (tk : token) : option value :=
  match tk with
  | TKey k =>
      match as_dictionary h (descend cur) with
      | Some d => Some (dict_get d k)
      | None => None
      end
  | TIdx i => get_item h (descend cur) i
  end.

Fixpoint walk (cur : value) (toks : list token) : option value :=
  match toks with
  | [] => Some cur
  | tk :: rest =>
      match reads cur tk with
      | Some v => walk v rest
      | None => None
      end
  end.

(** *** Existing slots

    One step of a path addresses a slot of [cur] when [cur], after the
    descent into a node's fields, is a dictionary that has the field name,
    or is a list, an array or a byte buffer and the index is within its
    bounds, or is a dictionary keyed by integers that holds the index.  A
    character of a [str] is no slot.  A path addresses an existing slot
    when it is not empty and each of its steps does. *)
Definition step (cur : value) (tk : token) : option value :=
  match tk with
  | TKey k =>
      match as_dictionary h (descend cur) with
      | Some d => Assoc.get k d
      | None => None
      end
  | TIdx i =>
      match cur with
      | VRef _ => get_item h (descend cur) i
      | _ => None
      end
  end.

Fixpoint resolve (cur : value) (toks : list token) : option value :=
  match toks with
  | [] => Some cur
  | tk :: rest =>
      match step cur tk with
      | Some v => resolve v rest
      | None => None
      end
  end.


Definition is_scalar (v : value) : Prop :=
  match v with VRef _ => False | _ => True end.

(** *** Containers that take a value

    Whether the container [p] takes the value [v] at the step: the fields
    of a node take every value under every name; a dictionary keyed by
    strings takes a value of the type of its values under every name; a
    list or an array takes a value of the type of its elements at an index
    within its bounds; a dictionary keyed by integers takes a value of the
    type of its values at every index of the range of its keys.  Nothing
    else takes a value. *)
Definition takes (p : value) (tk : token) (v : net) : bool :=
  match p with
  | VRef a =>
      match h !! a, tk with
      | Some (ONode _), TKey _ => true
      | Some (ODictionary KString vt _), TKey _ => accepts vt v
      | Some (ODictionary kt vt _), TIdx i =>
          match index_key kt i with
          | Some _ => accepts vt v
          | None => false
          end
      | Some (OList et xs), TIdx i => bool_decide (i < length xs)%nat && accepts et v
      | _, _ => false
      end
  | _ => false
  end.

(** The exception of the store at a step that does not take the value:
    the index error, which names the index only; the exception of the
    bridge on a dictionary; the key error, which names the path, on
    anything else. *)
Definition refusal (p : value) (tk : token) (path_expr : string) : error :=
  match tk with
  | TIdx i => CannotAssignIndex i
  | TKey k =>
      match p with
      | VRef a =>
          match h !! a with
          | Some (ODictionary _ _ _) => Refused k
          | _ => CannotAssignKey path_expr
          end
      | _ => CannotAssignKey path_expr
      end
  end.

End Slots.

(** ** The slots of an object *)

(** The slot of an object under a name or at an index.  A dictionary has
    its entries by the text of their keys, whatever the type of the keys. *)
Definition child (o : object) (tk : token) : option value :=
  match o, tk with
  | ONode n, TKey k => Assoc.get k (Data n)
  | ODictionary _ _ es, TKey k => Assoc.get k es
  | OOther _ fs, TKey k => Assoc.get k fs
  | OList _ xs, TIdx i => xs !! i
  | _, _ => None
  end.

(** The slot of the object that a step of a path names: an index names the
    entry of its decimal notation in a dictionary keyed by integers. *)
Definition slot_name (o : object) (tk : token) : token :=
  match o, tk with
  | ODictionary kt _ _, TIdx i =>
      match index_key kt i with
      | Some k => TKey k
      | None => tk
      end
  | _, _ => tk
  end.

(** An object with one of its slots holding another value: a field of a
    node and an entry of a dictionary under their name, replaced where the
    name stands and appended when it is new, an element at its index. *)
Definition write (o : object) (tk : token) (slot : value) : object :=
  match o, tk with
  | ONode n, TKey k =>
      ONode (mkNode (FullTypeName n) (AssemblyName n) (Assoc.set k slot (Data n)))
  | ODictionary kt vt es, TKey k => ODictionary kt vt (Assoc.set k slot es)
  | OList et xs, TIdx i => OList et (<[i := slot]> xs)
  | _, _ => o
  end.

(** The name a written slot is added under, when it is new. *)
Definition added_by (tk : token) : option string :=
  match tk with
  | TKey k => Some k
  | TIdx _ => None
  end.

(** The member of a projection under a name or at an index. *)
Definition json_child (j : json) (tk : token) : option json :=
  match j, tk with
  | JObj members, TKey k => Assoc.get k members
  | JArr items, TIdx i => items !! i
  | _, _ => None
  end.

Fixpoint json_follow (j : json) (p : list token) : option json :=
  match p with
  | [] => Some j
  | tk :: rest =>
      match json_child j tk with
      | Some j' => json_follow j' rest
      | None => None
      end
  end.

Section Follow.
Variable h : heap.

(** The value reached from [v] through the slots a path names. *)
Fixpoint follow (v : value) (p : list token) : option value :=
  match p with
  | [] => Some v
  | tk :: rest =>
      match v with
      | VRef a =>
          match h !! a with
          | Some o =>
              match child o tk with
              | Some v' => follow v' rest
              | None => None
              end
          | None => None
          end
      | _ => None
      end
  end.

End Follow.

(** The keys of a dictionary after an assignment: the same, in the same
    order, or with the one key [added] appended. *)
Definition keys_kept (added : option string) (d d' : list (string * value)) : Prop :=
  Assoc.keys d' = Assoc.keys d \/
  exists k, added = Some k /\ (k ∉ Assoc.keys d) /\
            Assoc.keys d' = Assoc.keys d ++ [k].

Definition shape_kept (added : option string) (o o' : object) : Prop :=
  match o, o' with
  | ONode n, ONode n' =>
      FullTypeName n' = FullTypeName n /\ AssemblyName n' = AssemblyName n /\
      keys_kept added (Data n) (Data n')
  | ODictionary kt vt d, ODictionary kt' vt' d' =>
      kt' = kt /\ vt' = vt /\ keys_kept added d d'
  | OList et xs, OList et' xs' => et' = et /\ length xs' = length xs
  | _, _ => o' = o
  end.

(** ** Dictionaries with distinct keys *)

(** The engine's dictionaries hold a key once. *)
Definition keys_unique (o : object) : Prop :=
  match o with
  | ONode n => NoDup (Assoc.keys (Data n))
  | ODictionary _ _ d => NoDup (Assoc.keys d)
  | _ => True
  end.

(** An object holds a name once: the keys of a dictionary, the fields of
    a node, the instance fields reflection finds. *)
Definition names_unique (o : object) : Prop :=
  match o with
  | OOther _ fs => NoDup (Assoc.keys fs)
  | _ => keys_unique o
  end.

(** ** What a whole edit keeps *)

(** An object after any number of assignments: of the same kind and type,
    a list of the same length, a node with the same headers, a dictionary
    whose keys begin with the keys it had, in their order. *)
Definition grown (o o' : object) : Prop :=
  match o, o' with
  | ONode n, ONode n' =>
      FullTypeName n' = FullTypeName n /\ AssemblyName n' = AssemblyName n /\
      Assoc.keys (Data n) `prefix_of` Assoc.keys (Data n')
  | ODictionary kt vt d, ODictionary kt' vt' d' =>
      kt' = kt /\ vt' = vt /\ Assoc.keys d `prefix_of` Assoc.keys d'
  | OList et xs, OList et' xs' => et' = et /\ length xs' = length xs
  | _, _ => o' = o
  end.

Definition heap_grown (h h' : heap) : Prop :=
  forall (a : addr) o, h !! a = Some o ->
    exists o', h' !! a = Some o' /\ grown o o'.

(** ** Writing a path down *)

Fixpoint all_chars (p : ascii -> bool) (s : string) : bool :=
  match s with
  | EmptyString => true
  | String c s' => p c && all_chars p s'
  end.

(** [[A-Za-z_]\w*] *)
Definition is_identifier (k : string) : bool :=
  match k with
  | String c r => Chars.is_ident_start c && all_chars Chars.is_word r
  | EmptyString => false
  end.

(** A step a path can denote: a field whose name is an identifier, or an
    index. *)
Definition token_ok (tk : token) : Prop :=
  match tk with
  | TKey k => is_identifier k = true
  | TIdx _ => True
  end.

(** A step as the path syntax writes it: [.name] or [[index]]. *)
Definition render_token (tk : token) : string :=
  match tk with
  | TKey k => String "." k
  | TIdx i => String "[" (String.append (decimal i) "]")
  end.

Fixpoint render (toks : list token) : string :=
  match toks with
  | [] => EmptyString
  | tk :: rest => String.append (render_token tk) (render rest)
  end.

(** The same with the first field written without its dot, as in
    [paths[0].memberIDs[2]]. *)
Definition render_path (toks : list token) : string :=
  match toks with
  | TKey k :: rest => String.append k (render rest)
  | _ => render toks
  end.

(** ** Writing an integer down *)


(** ** Scalars in the projection *)

(** What a slot that holds a primitive projects to; [None] for a
    reference. *)
Definition json_of_scalar (v : value) : option json :=
  match v with
  | VNull => Some JNull
  | VBoolean b => Some (JBool b)
  | VInt32 z | VInt64 z => Some (JInt z)
  | VDouble f => Some (JFloat f)
  | VString s => Some (JStr s)
  | VRef _ => None
  end.

(** ** Sample graphs *)

(** What the engine hands to the constructor of a node, and the fresh
    record it hands to [GetObjectData]. *)
Definition sample_info : KatRoundtrip.SerializationInfo :=
  KatRoundtrip.mkInfo "Everbyte.TextGame.Saving.PersData" ""
    [("coins", VInt32 5); ("name", VString "Alice")].

Definition fresh_info : KatRoundtrip.SerializationInfo :=
  KatRoundtrip.mkInfo "KatRoundtrip.Node" "dynamic" [].

(** A node with a field named like a reserved key of the projection. *)
Definition node_named_like_reserved : heap :=
  [ONode (mkNode "Everbyte.TextGame.Saving.PersData" "Assembly-CSharp"
            [("$original_dotnet_type", VString "x");
             ("$original_type", VInt32 1)])].

(** A save with a list of five paths. *)
Definition save_graph : heap :=
  [ONode (mkNode "Everbyte.TextGame.Saving.PersData" "Assembly-CSharp"
            [("coins", VInt32 5); ("paths", VRef 1); ("username", VString "Alice")]);
   OList TObject [VRef 2; VRef 2; VRef 2; VRef 2; VRef 2];
   ONode (mkNode "Everbyte.TextGame.Saving.Path" "Assembly-CSharp"
            [("x", VInt32 0)])].

(** A save with typed containers: scores by player number, the levels
    passed, labels by word. *)
Definition typed_graph : heap :=
  [ONode (mkNode "Everbyte.TextGame.Saving.Stats" "Assembly-CSharp"
            [("scores", VRef 1); ("levels", VRef 2); ("labels", VRef 3)]);
   ODictionary KInt32 TInt32 [("1", VInt32 10); ("2", VInt32 20)];
   OList TInt32 [VInt32 1; VInt32 2; VInt32 3];
   ODictionary KString TString [("a", VString "x")]].

(** * Properties *)

(** ** Insertion-ordered dictionaries *)

Module AssocFacts.
Import Assoc.
Section AssocFacts.
Context {V : Type}.
Implicit Types (d e : list (string * V)).

Lemma get_None k d : get k d = None <-> k ∉ keys d.
Proof.
  unfold keys. induction d as [|[k' v] d IH]; simpl.
  - split; [intros _; apply not_elem_of_nil|reflexivity].
  - destruct (String.eqb_spec k k') as [->|N].
    + split; [discriminate|]. intros H. destruct H. left.
    + rewrite IH. rewrite not_elem_of_cons. tauto.
Qed.

Lemma get_Some_keys k d v : get k d = Some v -> k ∈ keys d.
Proof.
  intros H. destruct (decide (k ∈ keys d)) as [|N]; [assumption|].
  apply get_None in N. congruence.
Qed.

Lemma get_set_eq k v d : get k (set k v d) = Some v.
Proof.
  induction d as [|[k' v'] d IH]; simpl.
  - now rewrite String.eqb_refl.
  - destruct (String.eqb_spec k k') as [->|N]; simpl.
    + now rewrite String.eqb_refl.
    + destruct (String.eqb_spec k k'); [contradiction|assumption].
Qed.

Lemma get_set_ne k k0 v d : k0 <> k -> get k0 (set k v d) = get k0 d.
Proof.
  intros N. induction d as [|[k' v'] d IH]; simpl.
  - destruct (String.eqb_spec k0 k); [contradiction|reflexivity].
  - destruct (String.eqb_spec k k') as [->|N']; simpl.
    + destruct (String.eqb_spec k0 k'); [contradiction|reflexivity].
    + now rewrite IH.
Qed.

(** Writing a key that is present keeps the key list. *)
Lemma keys_set_present k v d : k ∈ keys d -> keys (set k v d) = keys d.
Proof.
  unfold keys. induction d as [|[k' v'] d IH]; simpl.
  - intros H. now apply elem_of_nil in H.
  - intros H. destruct (String.eqb_spec k k') as [->|N]; simpl; [reflexivity|].
    apply elem_of_cons in H as [H|H]; [contradiction|].
    f_equal. now apply IH.
Qed.

(** Writing an absent key appends it. *)
Lemma set_absent k v d : k ∉ keys d -> set k v d = d ++ [(k, v)].
Proof.
  unfold keys. induction d as [|[k' v'] d IH]; simpl; [reflexivity|].
  intros H. apply not_elem_of_cons in H as [N H].
  destruct (String.eqb_spec k k'); [contradiction|]. f_equal. now apply IH.
Qed.

Lemma keys_set_absent k v d : k ∉ keys d -> keys (set k v d) = keys d ++ [k].
Proof.
  intros H. rewrite set_absent by assumption.
  unfold keys. now rewrite fmap_app.
Qed.

Lemma length_set_present k v d : k ∈ keys d -> length (set k v d) = length d.
Proof.
  intros H. apply keys_set_present with (v := v) in H.
  unfold keys in H. apply (f_equal length) in H.
  now rewrite !length_fmap in H.
Qed.

(** Filling an empty dictionary from entries with distinct names gives
    the entries back, in their order. *)
Lemma fold_set_NoDup (e d : list (string * V)) :
  NoDup (keys (d ++ e)) ->
  fold_left (fun acc kv => set kv.1 kv.2 acc) e d = d ++ e.
Proof.
  revert d. induction e as [|[k v] e IH]; intros d H; simpl.
  - now rewrite app_nil_r.
  - assert (Hk : k ∉ keys d).
    { unfold keys in *. rewrite fmap_app in H.
      apply NoDup_app in H as (_ & H' & _).
      intros Hin. apply (H' k Hin). simpl. left. }
    rewrite set_absent by assumption.
    rewrite IH; rewrite <- app_assoc; [reflexivity|exact H].
Qed.

Lemma elem_of_keys_set k0 k (v : V) d :
  k0 ∈ Assoc.keys (Assoc.set k v d) <-> k0 = k \/ k0 ∈ Assoc.keys d.
Proof.
  destruct (decide (k ∈ Assoc.keys d)) as [I|N].
  - rewrite keys_set_present by assumption.
    split; [tauto|]. intros [->|?]; assumption.
  - rewrite keys_set_absent by assumption.
    rewrite elem_of_app, list_elem_of_singleton. tauto.
Qed.

Lemma NoDup_keys_set k (v : V) d :
  NoDup (Assoc.keys d) -> NoDup (Assoc.keys (Assoc.set k v d)).
Proof.
  intros ND. destruct (decide (k ∈ Assoc.keys d)) as [I|N].
  - now rewrite keys_set_present.
  - rewrite keys_set_absent by assumption.
    apply NoDup_app. split; [assumption|]. split; [|apply NoDup_singleton].
    intros x Hx Hx'. apply list_elem_of_singleton in Hx'. now subst.
Qed.

Lemma keys_nil : Assoc.keys (@nil (string * V)) = [].
Proof. reflexivity. Qed.

Lemma keys_cons k (v : V) d : Assoc.keys ((k, v) :: d) = k :: Assoc.keys d.
Proof. reflexivity. Qed.

Lemma elem_of_keys_update k d e :
  k ∈ Assoc.keys (Assoc.update d e) <-> k ∈ Assoc.keys d \/ k ∈ Assoc.keys e.
Proof.
  unfold Assoc.update. revert d.
  induction e as [|[k1 v1] e IH]; intros d; cbn [fold_left fst snd].
  - rewrite keys_nil, elem_of_nil. tauto.
  - rewrite IH, elem_of_keys_set, keys_cons, elem_of_cons. tauto.
Qed.

Lemma NoDup_keys_update d e :
  NoDup (Assoc.keys d) -> NoDup (Assoc.keys (Assoc.update d e)).
Proof.
  unfold Assoc.update. revert d.
  induction e as [|[k1 v1] e IH]; intros d ND; simpl; [assumption|].
  apply IH, NoDup_keys_set, ND.
Qed.

(** [d.update(e)]: the entries of [e] win over those of [d]. *)
Lemma get_update k d e :
  NoDup (Assoc.keys e) ->
  Assoc.get k (Assoc.update d e) =
    match Assoc.get k e with
    | Some v => Some v
    | None => Assoc.get k d
    end.
Proof.
  unfold Assoc.update. revert d.
  induction e as [|[k1 v1] e IH]; intros d ND; cbn [fold_left fst snd];
    [reflexivity|].
  rewrite keys_cons in ND. apply NoDup_cons in ND as [N1 ND].
  rewrite IH by exact ND. cbn [Assoc.get].
  destruct (String.eqb_spec k k1) as [->|Ne].
  - apply get_None in N1. rewrite N1. apply get_set_eq.
  - now rewrite get_set_ne.
Qed.

Lemma keys_app (d e : list (string * V)) :
  Assoc.keys (d ++ e) = Assoc.keys d ++ Assoc.keys e.
Proof. unfold Assoc.keys. apply fmap_app. Qed.

Lemma get_elem_of k (v : V) d : Assoc.get k d = Some v -> (k, v) ∈ d.
Proof.
  induction d as [|[k' v'] d IH]; simpl; [discriminate|].
  destruct (String.eqb_spec k k') as [->|N].
  - intros [= ->]. left.
  - intros G. right. now apply IH.
Qed.

Lemma elem_of_get k (v : V) d :
  NoDup (Assoc.keys d) -> (k, v) ∈ d -> Assoc.get k d = Some v.
Proof.
  induction d as [|[k' v'] d IH]; [intros _ I; now apply elem_of_nil in I|].
  rewrite keys_cons. intros ND I.
  apply NoDup_cons in ND as [N ND]. cbn [Assoc.get].
  apply elem_of_cons in I as [[= -> ->]|I].
  - now rewrite String.eqb_refl.
  - destruct (String.eqb_spec k k') as [->|Ne]; [|now apply IH].
    exfalso. apply N. apply (list_elem_of_fmap_2 fst) in I. exact I.
Qed.

End AssocFacts.
End AssocFacts.

(** ** Path parser *)

(** The parser reads a leading bracket step through the second alternative
    of the pattern, which carries no anchor. *)
Lemma alt_idx_unanchored at_start :
  PathToken.matches at_start "[0]" = Some (TIdx 0, "").
Proof. destruct at_start; reflexivity. Qed.

(** C2, as stated, does not hold: [parse_path] accepts the text "[0]". *)
Lemma parse_path_bracket_first_accepted :
  ~ (parse_path "a.b[2].c" = Ok [TKey "a"; TKey "b"; TIdx 2; TKey "c"] /\
     (exists r, parse_path "[0]" = Raise (InvalidPath r)) /\
     (exists r, parse_path "a..b" = Raise (InvalidPath r))).
Proof. intros (_ & [r H] & _). vm_compute in H. discriminate H. Qed.

(** C2 (amended): "a.b[2].c" parses to the four steps in order, "[0]" parses
    to the single step [Index(0)], and "a..b" is refused with the unparsed
    remainder "..b". *)
Theorem parse_path_examples :
  parse_path "a.b[2].c" = Ok [TKey "a"; TKey "b"; TIdx 2; TKey "c"] /\
  parse_path "[0]" = Ok [TIdx 0] /\
  parse_path "a..b" = Raise (InvalidPath "..b").
Proof. repeat split; vm_compute; reflexivity. Qed.

(** ** Conversion to engine primitives *)







(** ** Literal coercion *)

Module Literal.
Import Chars.

Lemma lower_char_dquote : lower_char dquote = dquote.
Proof. reflexivity. Qed.

Lemma lower_char_squote : lower_char squote = squote.
Proof. reflexivity. Qed.

(** A quoted token still begins with its quote after [lower]. *)
Lemma quoted_lower_head s :
  quoted s = true ->
  exists r, lower s = String dquote r \/ lower s = String squote r.
Proof.
  unfold quoted. destruct s as [|c [|d s]]; try discriminate.
  destruct (last_char (String d s)) as [e|]; [|discriminate].
  intros H. exists (lower (String d s)).
  apply orb_prop in H as [H|H]; apply andb_prop in H as [H _];
    apply Ascii.eqb_eq in H; subst c; [left|right]; reflexivity.
Qed.

(** A token that [lower] turns into a word beginning with a letter or a
    digit is not quoted. *)
Lemma keyword_not_quoted s c r :
  lower s = String c r -> c <> dquote -> c <> squote -> quoted s = false.
Proof.
  intros L Hd Hs. destruct (quoted s) eqn:Q; [|reflexivity].
  apply quoted_lower_head in Q as [r' [Q|Q]]; congruence.
Qed.

Lemma literal_true s : lower s = "true" -> parse_value_literal s = PyBool true.
Proof.
  intros L. unfold parse_value_literal.
  rewrite (keyword_not_quoted s _ _ L) by discriminate.
  cbv zeta. rewrite L. reflexivity.
Qed.

Lemma literal_false s : lower s = "false" -> parse_value_literal s = PyBool false.
Proof.
  intros L. unfold parse_value_literal.
  rewrite (keyword_not_quoted s _ _ L) by discriminate.
  cbv zeta. rewrite L. reflexivity.
Qed.

Lemma literal_null s : lower s = "null" -> parse_value_literal s = PyNone.
Proof.
  intros L. unfold parse_value_literal.
  rewrite (keyword_not_quoted s _ _ L) by discriminate.
  cbv zeta. rewrite L. reflexivity.
Qed.

(** [lower] keeps a digit, so a token that begins with one is no keyword. *)
Lemma lower_digit_head c s :
  is_digit c = true -> exists r, lower (String c s) = String c r.
Proof.
  intros D. exists (lower s). simpl. f_equal.
  unfold lower_char. replace (is_upper c) with false; [reflexivity|].
  unfold is_digit, is_upper, between in *.
  apply andb_prop in D as [_ D]. apply N.leb_le in D.
  symmetry. apply andb_false_iff. left. apply N.leb_gt. lia.
Qed.

Lemma digit_not_quote c :
  is_digit c = true -> c <> dquote /\ c <> squote.
Proof. split; intros ->; discriminate. Qed.

Lemma literal_leading_zero d s :
  is_digit d = true ->
  parse_value_literal (String "0" (String d s)) = PyStr (String "0" (String d s)).
Proof.
  intros D. unfold parse_value_literal.
  destruct (lower_digit_head "0" (String d s) eq_refl) as [r L].
  rewrite (keyword_not_quoted _ _ _ L) by discriminate.
  cbv zeta. rewrite L.
  replace (leading_zero (String "0" (String d s))) with true
    by (simpl; now rewrite D).
  reflexivity.
Qed.

Lemma last_char_snoc s c : last_char (String.append s (String c "")) = Some c.
Proof.
  induction s as [|d s IH]; [reflexivity|].
  simpl. rewrite IH. destruct (String.append s (String c "")) eqn:E; [|reflexivity].
  destruct s; discriminate.
Qed.

Lemma drop_last_snoc s c : drop_last (String.append s (String c "")) = s.
Proof.
  induction s as [|d s IH]; [reflexivity|].
  simpl. rewrite IH. destruct (String.append s (String c "")) eqn:E; [|reflexivity].
  destruct s; discriminate.
Qed.

(** A token between two double quotes, or between two single quotes, is the
    text between them. *)
Lemma literal_quoted q body :
  q = dquote \/ q = squote ->
  parse_value_literal (String q (String.append body (String q ""))) = PyStr body.
Proof.
  intros Hq. unfold parse_value_literal.
  assert (Q : quoted (String q (String.append body (String q ""))) = true).
  { unfold quoted.
    destruct (String.append body (String q "")) eqn:E.
    - destruct body; discriminate.
    - rewrite <- E, last_char_snoc. destruct Hq; subst q; reflexivity. }
  rewrite Q. unfold strip_quotes. now rewrite drop_last_snoc.
Qed.

(** When neither [int] nor [float] accepts an unquoted token that is no
    keyword, the token is returned as it is. *)
Lemma literal_fallback s :
  quoted s = false ->
  lower s <> "true" -> lower s <> "false" -> lower s <> "null" ->
  Builtins.py_int s = None -> Builtins.py_float s = None ->
  parse_value_literal s = PyStr s.
Proof.
  intros Q T F N I Fl. unfold parse_value_literal. rewrite Q. cbv zeta.
  apply String.eqb_neq in T, F, N. rewrite T, F, N, I, Fl.
  repeat match goal with |- context [if ?b then _ else _] => destruct b end;
    reflexivity.
Qed.

End Literal.

(** C5: the coercion table.  The keywords are recognised whatever their
    case; an unquoted zero followed by a digit keeps the token a string;
    "42" is an integer, stored as an [Int32]; "3.14" is the double 3.14; a
    quoted token is the text between the quotes; a token that neither [int]
    nor [float] accepts is returned unchanged. *)
Theorem parse_value_literal_table :
  (forall s, Chars.lower s = "true" -> parse_value_literal s = PyBool true) /\
  (forall s, Chars.lower s = "false" -> parse_value_literal s = PyBool false) /\
  (forall s, Chars.lower s = "null" -> parse_value_literal s = PyNone) /\
  parse_value_literal "0042" = PyStr "0042" /\
  (forall d s, Chars.is_digit d = true ->
     parse_value_literal (String "0" (String d s)) = PyStr (String "0" (String d s))) /\
  parse_value_literal "42" = PyInt 42 /\
  _to_net (parse_value_literal "42") = Ok (NetInt32 42) /\
  parse_value_literal "3.14" = PyFloat (FDec false 314 (-2)) /\
  _to_net (parse_value_literal "3.14") = Ok (NetDouble (FDec false 314 (-2))) /\
  parse_value_literal (String dquote (String.append "007" (String dquote ""))) = PyStr "007" /\
  (forall q body, q = dquote \/ q = squote ->
     parse_value_literal (String q (String.append body (String q ""))) = PyStr body) /\
  (forall s, quoted s = false ->
     Chars.lower s <> "true" -> Chars.lower s <> "false" -> Chars.lower s <> "null" ->
     Builtins.py_int s = None -> Builtins.py_float s = None ->
     parse_value_literal s = PyStr s).
Proof.
  repeat split; try reflexivity.
  - apply Literal.literal_true.
  - apply Literal.literal_false.
  - apply Literal.literal_null.
  - apply Literal.literal_leading_zero.
  - apply Literal.literal_quoted.
  - apply Literal.literal_fallback.
Qed.

Lemma parse_value_literal_table_witness :
  parse_value_literal "TRUE" = PyBool true /\
  parse_value_literal "False" = PyBool false /\
  parse_value_literal "nULL" = PyNone /\
  parse_value_literal "007" = PyStr "007" /\
  parse_value_literal "'it''s'" = PyStr "it''s" /\
  parse_value_literal "12ab" = PyStr "12ab" /\
  parse_value_literal "1.2.3" = PyStr "1.2.3".
Proof.
  pose proof parse_value_literal_table
    as (Ht & Hf & Hn & _ & Hz & _ & _ & _ & _ & _ & Hq & Hu).
  split; [apply Ht; reflexivity|].
  split; [apply Hf; reflexivity|].
  split; [apply Hn; reflexivity|].
  split; [apply (Hz "0"%char "7"); reflexivity|].
  split; [apply (Hq squote "it''s"); right; reflexivity|].
  split; apply Hu; first [reflexivity | discriminate].
Defined.

(** ** Type resolver *)

Module Binder.
Import KatRoundtrip.

Lemma StartsWith_nonempty p s :
  p <> "" -> StartsWith p s = true -> IsNullOrEmpty s = false.
Proof.
  unfold StartsWith. destruct s; [|reflexivity].
  destruct p; [congruence|discriminate].
Qed.

Section Binder.
Context {T : Type} (GetType : string -> option T).

Lemma bind_prefix_type assemblyName typeName :
  StartsWith prefix typeName = true ->
  BindToType GetType assemblyName typeName = BindNode.
Proof.
  intros H. unfold BindToType.
  rewrite (StartsWith_nonempty prefix typeName) by (discriminate || assumption).
  now rewrite H.
Qed.

Lemma bind_prefix_assembly assemblyName typeName :
  StartsWith prefix assemblyName = true ->
  BindToType GetType assemblyName typeName = BindNode.
Proof.
  intros H. unfold BindToType.
  rewrite (StartsWith_nonempty prefix assemblyName) by (discriminate || assumption).
  rewrite H. simpl. now destruct (_ && _).
Qed.

Lemma bind_no_prefix assemblyName typeName :
  StartsWith prefix typeName = false ->
  StartsWith prefix assemblyName = false ->
  BindToType GetType assemblyName typeName =
    match GetType (full_name assemblyName typeName) with
    | Some t => BindNative t
    | None =>
        if ContainsIgnoreCase vendor typeName then BindNode else BindObject
    end.
Proof.
  intros Ht Ha. unfold BindToType. rewrite Ht, Ha, !andb_false_r. cbv zeta.
  destruct (GetType _); [reflexivity|].
  destruct typeName; reflexivity.
Qed.
End Binder.
End Binder.

(** C6: [BindToType] is a function of its two arguments with three possible
    answers.  A type name or an assembly name that starts with the reserved
    prefix gives the capture node whatever [Type.GetType] would answer;
    otherwise a type that [Type.GetType] finds is returned, and only when it
    finds none does the vendor substring, compared without case, decide
    between the capture node and the plain object. *)
Theorem BindToType_policy {T : Type} (GetType : string -> option T)
    (assemblyName typeName : string) :
  (KatRoundtrip.StartsWith KatRoundtrip.prefix typeName = true \/
   KatRoundtrip.StartsWith KatRoundtrip.prefix assemblyName = true ->
   KatRoundtrip.BindToType GetType assemblyName typeName = KatRoundtrip.BindNode) /\
  (KatRoundtrip.StartsWith KatRoundtrip.prefix typeName = false ->
   KatRoundtrip.StartsWith KatRoundtrip.prefix assemblyName = false ->
   (forall t, GetType (KatRoundtrip.full_name assemblyName typeName) = Some t ->
      KatRoundtrip.BindToType GetType assemblyName typeName = KatRoundtrip.BindNative t) /\
   (GetType (KatRoundtrip.full_name assemblyName typeName) = None ->
      KatRoundtrip.BindToType GetType assemblyName typeName =
        if KatRoundtrip.ContainsIgnoreCase KatRoundtrip.vendor typeName
        then KatRoundtrip.BindNode else KatRoundtrip.BindObject)) /\
  (KatRoundtrip.BindToType GetType assemblyName typeName = KatRoundtrip.BindNode \/
   (exists t, KatRoundtrip.BindToType GetType assemblyName typeName = KatRoundtrip.BindNative t) \/
   KatRoundtrip.BindToType GetType assemblyName typeName = KatRoundtrip.BindObject).
Proof.
  split; [|split].
  - intros [H|H]; [now apply Binder.bind_prefix_type|now apply Binder.bind_prefix_assembly].
  - intros Ht Ha. rewrite (Binder.bind_no_prefix GetType _ _ Ht Ha).
    split; [intros t ->; reflexivity|intros ->; reflexivity].
  - destruct (KatRoundtrip.BindToType GetType assemblyName typeName); eauto.
Qed.

(** A resolver that finds a native type for every name, and one that finds
    none: the prefix wins over the first, the vendor substring is consulted
    only with the second. *)
Lemma BindToType_policy_witness :
  KatRoundtrip.BindToType (fun _ => Some tt) "mscorlib"
    "Everbyte.TextGame.Saving.PersData" = KatRoundtrip.BindNode /\
  KatRoundtrip.BindToType (fun _ => Some tt) "Everbyte.TextGame.Saving, v1"
    "System.Int32" = KatRoundtrip.BindNode /\
  KatRoundtrip.BindToType (fun _ => Some tt) "Assembly-CSharp"
    "everbyte.Misc" = KatRoundtrip.BindNative tt /\
  KatRoundtrip.BindToType (fun _ => @None unit) "Assembly-CSharp"
    "x.EVERBYTE.Misc" = KatRoundtrip.BindNode /\
  KatRoundtrip.BindToType (fun _ => @None unit) "" "Acme.Thing" = KatRoundtrip.BindObject.
Proof.
  split; [|split; [|split; [|split]]].
  - apply (proj1 (BindToType_policy (fun _ => Some tt) "mscorlib"
                    "Everbyte.TextGame.Saving.PersData")).
    left. reflexivity.
  - apply (proj1 (BindToType_policy (fun _ => Some tt)
                    "Everbyte.TextGame.Saving, v1" "System.Int32")).
    right. reflexivity.
  - apply (proj1 (proj1 (proj2 (BindToType_policy (fun _ => Some tt)
                    "Assembly-CSharp" "everbyte.Misc")) eq_refl eq_refl)).
    reflexivity.
  - apply (proj2 (proj1 (proj2 (BindToType_policy (fun _ => @None unit)
                    "Assembly-CSharp" "x.EVERBYTE.Misc")) eq_refl eq_refl)).
    reflexivity.
  - apply (proj2 (proj1 (proj2 (BindToType_policy (fun _ => @None unit)
                    "" "Acme.Thing")) eq_refl eq_refl)).
    reflexivity.
Defined.

(** ** Capture node *)

Module Capture.
Import KatRoundtrip.

Lemma add_all_fresh data t a es :
  NoDup (Assoc.keys (es ++ data)) ->
  add_all data (mkInfo t a es) = Some (mkInfo t a (es ++ data)).
Proof.
  revert es. induction data as [|[k v] data IH]; intros es H; simpl.
  - now rewrite app_nil_r.
  - assert (Hk : k ∉ Assoc.keys es).
    { unfold Assoc.keys in *. rewrite fmap_app in H.
      apply NoDup_app in H as (_ & H' & _).
      intros Hin. apply (H' k Hin). simpl. left. }
    unfold AddValue. simpl.
    apply AssocFacts.get_None in Hk. rewrite Hk.
    rewrite IH; rewrite <- app_assoc; [reflexivity|exact H].
Qed.

Lemma Node_ctor_Data info :
  NoDup (Assoc.keys (info_entries info)) ->
  Data (Node_ctor info) = info_entries info.
Proof.
  intros H. unfold Node_ctor. simpl.
  now rewrite (AssocFacts.fold_set_NoDup (info_entries info) []).
Qed.

End Capture.

(** C7: a node built from an identity pair and entries with distinct names,
    and then asked to emit itself into a fresh [SerializationInfo], hands
    back the same entries, names and values, in the same order.  A
    non-empty captured type name or assembly name is written back as it
    was; for an empty one the node writes nothing, so the header the engine
    prepared stays. *)
Theorem Node_roundtrip (info fresh : KatRoundtrip.SerializationInfo) :
  NoDup (Assoc.keys (KatRoundtrip.info_entries info)) ->
  KatRoundtrip.info_entries fresh = [] ->
  let n := KatRoundtrip.Node_ctor info in
  FullTypeName n = KatRoundtrip.info_FullTypeName info /\
  AssemblyName n = KatRoundtrip.info_AssemblyName info /\
  Data n = KatRoundtrip.info_entries info /\
  exists out,
    KatRoundtrip.GetObjectData n fresh = Some out /\
    KatRoundtrip.info_entries out = KatRoundtrip.info_entries info /\
    KatRoundtrip.info_FullTypeName out =
      (if KatRoundtrip.IsNullOrEmpty (KatRoundtrip.info_FullTypeName info)
       then KatRoundtrip.info_FullTypeName fresh
       else KatRoundtrip.info_FullTypeName info) /\
    KatRoundtrip.info_AssemblyName out =
      (if KatRoundtrip.IsNullOrEmpty (KatRoundtrip.info_AssemblyName info)
       then KatRoundtrip.info_AssemblyName fresh
       else KatRoundtrip.info_AssemblyName info).
Proof.
  intros ND E n.
  assert (D : Data n = KatRoundtrip.info_entries info)
    by now apply Capture.Node_ctor_Data.
  repeat split; [exact D|].
  unfold KatRoundtrip.GetObjectData. rewrite D.
  destruct info as [t a es], fresh as [t0 a0 es0]. simpl in *. subst es0.
  destruct t, a; simpl;
    unfold KatRoundtrip.set_FullTypeName, KatRoundtrip.set_AssemblyName; simpl;
    rewrite Capture.add_all_fresh by exact ND;
    eexists; (split; [reflexivity|]); simpl; auto.
Qed.

Example sample_info_emitted :
  KatRoundtrip.GetObjectData (KatRoundtrip.Node_ctor sample_info) fresh_info =
  Some (KatRoundtrip.mkInfo "Everbyte.TextGame.Saving.PersData" "dynamic"
          [("coins", VInt32 5); ("name", VString "Alice")]).
Proof. reflexivity. Qed.

Lemma Node_roundtrip_witness :
  NoDup (Assoc.keys (KatRoundtrip.info_entries sample_info)) /\
  Data (KatRoundtrip.Node_ctor sample_info) = KatRoundtrip.info_entries sample_info /\
  exists out,
    KatRoundtrip.GetObjectData (KatRoundtrip.Node_ctor sample_info) fresh_info = Some out /\
    KatRoundtrip.info_entries out = KatRoundtrip.info_entries sample_info /\
    KatRoundtrip.info_FullTypeName out = "Everbyte.TextGame.Saving.PersData" /\
    KatRoundtrip.info_AssemblyName out = "dynamic".
Proof.
  assert (ND : NoDup (Assoc.keys (KatRoundtrip.info_entries sample_info))).
  { apply (bool_decide_unpack _). vm_compute. exact I. }
  split; [exact ND|].
  pose proof (Node_roundtrip sample_info fresh_info ND eq_refl) as (_ & _ & D & R).
  split; [exact D|exact R].
Defined.

(** ** JSON projection *)

Section ProjectorFacts.
Variable GetHashCode : addr -> Z.
Variable h : heap.

Local Open Scope nat_scope.

Abbreviation conv := (conv GetHashCode h).
Abbreviation unvisited := (unvisited GetHashCode h).

Lemma conv_members_growing rec seen es acc r seen' :
  growing rec ->
  conv_members rec seen es acc = Some (r, seen') -> seen ⊆ seen'.
Proof.
  intros G. revert seen acc.
  induction es as [|[k v] es IH]; intros seen acc; simpl.
  - intros [= _ <-]. reflexivity.
  - destruct (rec seen v) as [[j s1]|] eqn:E; [|discriminate].
    intros H. apply IH in H. apply G in E. set_solver.
Qed.

Lemma conv_items_growing rec seen xs r seen' :
  growing rec ->
  conv_items rec seen xs = Some (r, seen') -> seen ⊆ seen'.
Proof.
  intros G. revert seen r.
  induction xs as [|x xs IH]; intros seen r; simpl.
  - intros [= _ <-]. reflexivity.
  - destruct (rec seen x) as [[j s1]|] eqn:E; [|discriminate].
    destruct (conv_items rec s1 xs) as [[js s2]|] eqn:E'; [|discriminate].
    intros [= _ <-]. apply IH in E'. apply G in E. set_solver.
Qed.

Lemma conv_object_growing rec seen o j seen' :
  growing rec ->
  conv_object rec seen o = Some (j, seen') -> seen ⊆ seen'.
Proof.
  intros G. destruct o; simpl;
    repeat match goal with
    | |- context [conv_members ?r ?s ?e ?a] =>
        let E := fresh "E" in
        destruct (conv_members r s e a) as [[? ?]|] eqn:E; [|discriminate];
        apply conv_members_growing in E; [|assumption]
    | |- context [conv_items ?r ?s ?e] =>
        let E := fresh "E" in
        destruct (conv_items r s e) as [[? ?]|] eqn:E; [|discriminate];
        apply conv_items_growing in E; [|assumption]
    end;
    intros [= _ <-]; set_solver.
Qed.

(** The visited set is never cleared and nothing is removed from it. *)
Lemma conv_growing fuel : growing (conv fuel).
Proof.
  induction fuel as [|fuel IH]; intros seen x j seen'; simpl; [discriminate|].
  destruct x; try (intros [= _ <-]; reflexivity).
  destruct (decide (GetHashCode a ∈ seen)); [intros [= _ <-]; reflexivity|].
  destruct (h !! a) as [o|].
  - intros H. apply conv_object_growing in H; [|exact IH]. set_solver.
  - intros [= _ <-]. set_solver.
Qed.

(** A reference whose hash code is in the visited set is rendered [null],
    and the set stays as it is. *)
Lemma conv_visited fuel seen a :
  GetHashCode a ∈ seen -> conv (S fuel) seen (VRef a) = Some (JNull, seen).
Proof. intros H. simpl. now rewrite decide_True. Qed.

(** On the first visit the hash code enters the visited set before the
    object is looked at; its children are projected under that set. *)
Lemma conv_first_visit fuel seen a o :
  GetHashCode a ∉ seen -> h !! a = Some o ->
  conv (S fuel) seen (VRef a) =
    conv_object (conv fuel) ({[GetHashCode a]} ∪ seen) o.
Proof. intros H E. simpl. rewrite decide_False by assumption. now rewrite E. Qed.

(** After a reference has been projected its hash code is in the set. *)
Lemma conv_marks fuel seen a j seen' :
  conv fuel seen (VRef a) = Some (j, seen') -> GetHashCode a ∈ seen'.
Proof.
  destruct fuel as [|fuel]; simpl; [discriminate|].
  destruct (decide (GetHashCode a ∈ seen)); [intros [= _ <-]; assumption|].
  destruct (h !! a) as [o|].
  - intros H. apply conv_object_growing in H; [|apply conv_growing]. set_solver.
  - intros [= _ <-]. set_solver.
Qed.

(** *** More fuel changes nothing *)

Lemma conv_members_extends rec rec' seen es acc r :
  extends rec rec' ->
  conv_members rec seen es acc = Some r -> conv_members rec' seen es acc = Some r.
Proof.
  intros X. revert seen acc.
  induction es as [|[k v] es IH]; intros seen acc; simpl; [tauto|].
  destruct (rec seen v) as [[j s1]|] eqn:E; [|discriminate].
  rewrite (X _ _ _ E). apply IH.
Qed.

Lemma conv_items_extends rec rec' seen xs r :
  extends rec rec' ->
  conv_items rec seen xs = Some r -> conv_items rec' seen xs = Some r.
Proof.
  intros X. revert seen r.
  induction xs as [|x xs IH]; intros seen r; simpl; [tauto|].
  destruct (rec seen x) as [[j s1]|] eqn:E; [|discriminate].
  rewrite (X _ _ _ E).
  destruct (conv_items rec s1 xs) as [[js s2]|] eqn:E'; [|discriminate].
  now rewrite (IH _ _ E').
Qed.

Lemma conv_object_extends rec rec' seen o r :
  extends rec rec' ->
  conv_object rec seen o = Some r -> conv_object rec' seen o = Some r.
Proof.
  intros X. destruct o; simpl; try tauto.
  - destruct (conv_members rec seen (Data n) []) as [[py s]|] eqn:E; [|discriminate].
    now rewrite (conv_members_extends _ _ _ _ _ _ X E).
  - destruct (conv_members rec seen entries []) as [[py s]|] eqn:E; [|discriminate].
    now rewrite (conv_members_extends _ _ _ _ _ _ X E).
  - destruct (conv_items rec seen items) as [[js s]|] eqn:E; [|discriminate].
    now rewrite (conv_items_extends _ _ _ _ _ X E).
  - destruct (conv_members rec seen fields _) as [[py s]|] eqn:E; [|discriminate].
    now rewrite (conv_members_extends _ _ _ _ _ _ X E).
Qed.

(** An answer of [conv] does not depend on the fuel that was left over. *)
Lemma conv_more_fuel fuel : extends (conv fuel) (conv (S fuel)).
Proof.
  induction fuel as [|fuel IH]; intros seen x r; [discriminate|].
  destruct x; try (simpl; tauto).
  intros E.
  simpl in E |- *.
  destruct (decide (GetHashCode a ∈ seen)); [exact E|].
  destruct (h !! a) as [o|]; [|exact E].
  exact (conv_object_extends _ _ _ _ _ IH E).
Qed.

(** *** Termination *)

Lemma unvisited_bound seen : size (unvisited seen) <= length h.
Proof.
  unfold unvisited.
  etransitivity.
  { apply subseteq_size. intros a Ha. apply elem_of_filter in Ha as [_ Ha]. exact Ha. }
  rewrite size_list_to_set by apply NoDup_seq. now rewrite length_seq.
Qed.

Lemma unvisited_anti seen seen' :
  seen ⊆ seen' -> unvisited seen' ⊆ unvisited seen.
Proof.
  intros Sub a. unfold unvisited. rewrite !elem_of_filter.
  intros [N I]. split; [intros X; apply N, Sub, X|exact I].
Qed.

Lemma unvisited_mark seen a o :
  GetHashCode a ∉ seen -> h !! a = Some o ->
  size (unvisited ({[GetHashCode a]} ∪ seen)) < size (unvisited seen).
Proof.
  intros N E. apply subset_size. split.
  - apply unvisited_anti. set_solver.
  - intros Sub. assert (A : a ∈ unvisited seen).
    { unfold unvisited. apply elem_of_filter. split; [assumption|].
      apply elem_of_list_to_set, elem_of_seq.
      apply lookup_lt_Some in E. lia. }
    apply Sub in A. unfold unvisited in A. apply elem_of_filter in A as [A _].
    apply A, elem_of_union_l, elem_of_singleton. reflexivity.
Qed.

Lemma conv_members_answers base rec seen es acc :
  growing rec -> answers base rec -> base ⊆ seen ->
  is_Some (conv_members rec seen es acc).
Proof.
  intros G A. revert seen acc.
  induction es as [|[k v] es IH]; intros seen acc B; simpl; [eauto|].
  destruct (A seen v B) as [[j s1] E]. rewrite E.
  apply IH. apply G in E. set_solver.
Qed.

Lemma conv_items_answers base rec seen xs :
  growing rec -> answers base rec -> base ⊆ seen ->
  is_Some (conv_items rec seen xs).
Proof.
  intros G A. revert seen.
  induction xs as [|x xs IH]; intros seen B; simpl; [eauto|].
  destruct (A seen x B) as [[j s1] E]. rewrite E.
  destruct (IH s1) as [[js s2] E']; [apply G in E; set_solver|].
  rewrite E'. eauto.
Qed.

Lemma conv_object_answers base rec seen o :
  growing rec -> answers base rec -> base ⊆ seen ->
  is_Some (conv_object rec seen o).
Proof.
  intros G A B. destruct o; simpl; eauto.
  - destruct (conv_members_answers base rec seen (Data n) [] G A B) as [[? ?] ->]. eauto.
  - destruct (conv_members_answers base rec seen entries [] G A B) as [[? ?] ->]. eauto.
  - destruct (conv_items_answers base rec seen items G A B) as [[? ?] ->]. eauto.
  - destruct (conv_members_answers base rec seen fields
                [("$type", JStr tname)] G A B) as [[? ?] ->]. eauto.
Qed.

(** With more fuel than there are unvisited objects, [conv] answers. *)
Lemma conv_answers fuel seen x :
  size (unvisited seen) < fuel -> is_Some (conv fuel seen x).
Proof.
  revert seen x. induction fuel as [|fuel IH]; intros seen x L; [lia|].
  simpl. destruct x; eauto.
  destruct (decide (GetHashCode a ∈ seen)); [eauto|].
  destruct (h !! a) as [o|] eqn:E; [|eauto].
  apply (conv_object_answers ({[GetHashCode a]} ∪ seen));
    [apply conv_growing| |reflexivity].
  intros seen' x B. apply IH.
  pose proof (unvisited_mark seen a o n E).
  pose proof (subseteq_size _ _ (unvisited_anti _ _ B)). lia.
Qed.

(** [to_jsonable] always produces a tree. *)
Lemma to_jsonable_total o : exists j, to_jsonable GetHashCode h o = Some j.
Proof.
  unfold to_jsonable.
  destruct (conv_answers (S (length h)) ∅ o) as [[j s] E].
  - pose proof (unvisited_bound ∅). lia.
  - rewrite E. eauto.
Qed.

End ProjectorFacts.

Section ProjectorShape.
Variable GetHashCode : addr -> Z.
Variable h : heap.

(** The element at a position of a projected sequence is the projection
    of the element at that position, under a visited set that has only
    grown since the sequence was entered. *)
Lemma conv_items_lookup (rec : projector) seen xs js seen' (i : nat) x :
  growing rec ->
  conv_items rec seen xs = Some (js, seen') ->
  xs !! i = Some x ->
  exists s1 s2 j, seen ⊆ s1 /\ rec s1 x = Some (j, s2) /\ js !! i = Some j.
Proof.
  intros G. revert seen js i.
  induction xs as [|y xs IH]; intros seen js i; simpl; [intros _ [=]|].
  destruct (rec seen y) as [[j s1]|] eqn:E; [|discriminate].
  destruct (conv_items rec s1 xs) as [[js' s2]|] eqn:E'; [|discriminate].
  intros [= <- <-]. destruct i as [|i]; simpl.
  - intros [= ->]. exists seen, s1, j. split; [reflexivity|]. split; [exact E|reflexivity].
  - intros L. destruct (IH _ _ _ E' L) as (t1 & t2 & j' & S1 & R & Lk).
    exists t1, t2, j'. split; [|split; assumption].
    apply G in E. etransitivity; eassumption.
Qed.

Lemma conv_items_length (rec : projector) seen xs js seen' :
  conv_items rec seen xs = Some (js, seen') -> length js = length xs.
Proof.
  revert seen js. induction xs as [|y xs IH]; intros seen js; simpl.
  - intros [= <- _]. reflexivity.
  - destruct (rec seen y) as [[j s1]|]; [|discriminate].
    destruct (conv_items rec s1 xs) as [[js' s2]|] eqn:E'; [|discriminate].
    intros [= <- <-]. simpl. f_equal. eapply IH, E'.
Qed.

End ProjectorShape.

Section ProjectionOrder.
Variable GetHashCode : addr -> Z.
Variable h : heap.

Lemma conv_scalar fuel seen v j :
  json_of_scalar v = Some j ->
  conv GetHashCode h (S fuel) seen v = Some (j, seen).
Proof. destruct v; simpl; intros [= <-]; reflexivity. Qed.

(** The members come out in the order of the entries. *)
Lemma conv_members_order (rec : projector) seen es acc py seen' :
  conv_members rec seen es acc = Some (py, seen') ->
  NoDup (Assoc.keys acc ++ Assoc.keys es) ->
  Assoc.keys py = Assoc.keys acc ++ Assoc.keys es.
Proof.
  revert seen acc.
  induction es as [|[k v] es IH]; intros seen acc; cbn [conv_members].
  - intros [= <- _] _. rewrite AssocFacts.keys_nil. now rewrite app_nil_r.
  - destruct (rec seen v) as [[j s1]|]; [|discriminate].
    rewrite AssocFacts.keys_cons. intros M ND.
    assert (Nk : k ∉ Assoc.keys acc).
    { apply NoDup_app in ND as (_ & D & _). intros I. apply (D k I). left. }
    rewrite (IH _ _ M); rewrite AssocFacts.keys_set_absent by exact Nk;
      rewrite <- app_assoc; [reflexivity|exact ND].
Qed.

(** The projection of an object that is visited for the first time at the
    root. *)
Lemma to_jsonable_root a o :
  h !! a = Some o ->
  exists f j seen',
    length h = S f /\
    conv_object (conv GetHashCode h (S f)) ({[GetHashCode a]} ∪ ∅) o = Some (j, seen') /\
    to_jsonable GetHashCode h (VRef a) = Some j.
Proof.
  intros Ha. destruct (to_jsonable_total GetHashCode h (VRef a)) as [j Hj].
  unfold to_jsonable in *.
  destruct (conv GetHashCode h (S (length h)) ∅ (VRef a)) as [[j' s]|] eqn:E;
    [|discriminate].
  injection Hj as ->.
  rewrite (conv_first_visit _ _ _ _ _ _ (not_elem_of_empty _) Ha) in E.
  assert (L : (0 < length h)%nat) by (apply lookup_lt_Some in Ha; lia).
  destruct (length h) as [|f]; [lia|].
  exists f, j, s. auto.
Qed.

End ProjectionOrder.

(** C10: the visited set only grows during a projection; once a reference
    has been projected, every later occurrence of it, under whatever the
    set has become, is rendered [null].  This does not ask for a cycle: a
    reference that occurs twice in one sequence is expanded the first time
    and [null] the second. *)
Theorem conv_expands_once :
  (forall GetHashCode h fuel seen x j seen',
     conv GetHashCode h fuel seen x = Some (j, seen') -> seen ⊆ seen') /\
  (forall GetHashCode h fuel seen a j seen',
     conv GetHashCode h fuel seen (VRef a) = Some (j, seen') ->
     forall fuel' later, seen' ⊆ later ->
       conv GetHashCode h (S fuel') later (VRef a) = Some (JNull, later)) /\
  (forall GetHashCode h fuel seen a js seen',
     conv_items (conv GetHashCode h fuel) seen [VRef a; VRef a] = Some (js, seen') ->
     exists j, js = [j; JNull]) /\
  to_jsonable Z.of_nat
    [OList TObject [VRef 1; VRef 1]; ODictionary KString TObject [("x", VInt32 1)]] (VRef 0) =
  Some (JArr [JObj [("x", JInt 1)]; JNull]).
Proof.
  assert (Later : forall GetHashCode h fuel seen a j seen',
    conv GetHashCode h fuel seen (VRef a) = Some (j, seen') ->
    forall fuel' later, seen' ⊆ later ->
      conv GetHashCode h (S fuel') later (VRef a) = Some (JNull, later)).
  { intros G h fuel seen a j seen' E fuel' later Sub.
    apply conv_visited, Sub. eapply conv_marks, E. }
  split; [intros G h fuel; apply conv_growing|].
  split; [exact Later|].
  split; [|reflexivity].
  intros G h fuel seen a js seen'. simpl.
  destruct (conv G h fuel seen (VRef a)) as [[j s1]|] eqn:E; [|discriminate].
  destruct fuel as [|fuel]; [discriminate E|].
  rewrite (Later _ _ _ _ _ _ _ E fuel s1) by reflexivity.
  intros [= <- _]. eauto.
Qed.

Lemma conv_expands_once_witness :
  conv Z.of_nat [OList TObject [VRef 1; VRef 1]; ODictionary KString TObject [("x", VInt32 1)]]
    1 {[0; 1]} (VRef 1) = Some (JNull, {[0; 1]}).
Proof.
  apply (proj1 (proj2 conv_expands_once) Z.of_nat
           [OList TObject [VRef 1; VRef 1]; ODictionary KString TObject [("x", VInt32 1)]]
           2%nat {[0]} 1%nat (JObj [("x", JInt 1)]) {[0; 1]}).
  - vm_compute. reflexivity.
  - reflexivity.
Defined.

(** *** The object projected from a capture node *)

Section MembersFacts.
Variable rec : gset Z -> value -> option (json * gset Z).
Hypothesis rec_growing : growing rec.

Lemma conv_members_keys seen es acc py seen' k :
  conv_members rec seen es acc = Some (py, seen') ->
  k ∈ Assoc.keys py <-> k ∈ Assoc.keys acc \/ k ∈ Assoc.keys es.
Proof.
  revert seen acc.
  induction es as [|[k1 v1] es IH]; intros seen acc; cbn [conv_members].
  - intros [= <- _]. rewrite AssocFacts.keys_nil, elem_of_nil. tauto.
  - destruct (rec seen v1) as [[j s1]|]; [|discriminate].
    intros H. rewrite (IH _ _ H), AssocFacts.elem_of_keys_set.
    rewrite AssocFacts.keys_cons, elem_of_cons. tauto.
Qed.

Lemma conv_members_NoDup seen es acc py seen' :
  conv_members rec seen es acc = Some (py, seen') ->
  NoDup (Assoc.keys acc) -> NoDup (Assoc.keys py).
Proof.
  revert seen acc. induction es as [|[k1 v1] es IH]; intros seen acc; simpl.
  - intros [= <- _]. tauto.
  - destruct (rec seen v1) as [[j s1]|]; [|discriminate].
    intros H ND. apply (IH _ _ H), AssocFacts.NoDup_keys_set, ND.
Qed.

(** A key that no entry carries keeps what the accumulator had for it. *)
Lemma conv_members_other seen es acc py seen' k :
  conv_members rec seen es acc = Some (py, seen') ->
  k ∉ Assoc.keys es -> Assoc.get k py = Assoc.get k acc.
Proof.
  revert seen acc.
  induction es as [|[k1 v1] es IH]; intros seen acc; cbn [conv_members].
  - intros [= <- _]. reflexivity.
  - destruct (rec seen v1) as [[j s1]|]; [|discriminate].
    rewrite AssocFacts.keys_cons. intros H N.
    apply not_elem_of_cons in N as [Ne N].
    rewrite (IH _ _ H N). now apply AssocFacts.get_set_ne.
Qed.

(** Each entry appears under its name with the projection of its value. *)
Lemma conv_members_field seen es acc py seen' k v :
  conv_members rec seen es acc = Some (py, seen') ->
  NoDup (Assoc.keys es) -> (k, v) ∈ es ->
  exists s1 s2 j,
    seen ⊆ s1 /\ rec s1 v = Some (j, s2) /\ Assoc.get k py = Some j.
Proof.
  revert seen acc.
  induction es as [|[k1 v1] es IH]; intros seen acc; cbn [conv_members].
  - intros _ _ I. now apply elem_of_nil in I.
  - destruct (rec seen v1) as [[j s1]|] eqn:E; [|discriminate].
    rewrite AssocFacts.keys_cons. intros H ND I.
    apply NoDup_cons in ND as [N1 ND].
    apply elem_of_cons in I as [[= -> ->]|I].
    + exists seen, s1, j. split; [reflexivity|]. split; [exact E|].
      rewrite (conv_members_other _ _ _ _ _ _ H N1). apply AssocFacts.get_set_eq.
    + destruct (IH _ _ H ND I) as (t1 & t2 & j' & Sub & R & G).
      exists t1, t2, j'. split; [|split; assumption].
      apply rec_growing in E. etransitivity; eassumption.
Qed.

End MembersFacts.

(** The members of the object a capture node projects to. *)
Lemma conv_node_members GetHashCode h fuel seen a n j seen' :
  h !! a = Some (ONode n) ->
  NoDup (Assoc.keys (Data n)) ->
  GetHashCode a ∉ seen ->
  conv GetHashCode h (S fuel) seen (VRef a) = Some (j, seen') ->
  exists members,
    j = JObj members /\
    NoDup (Assoc.keys members) /\
    (forall k, k ∈ Assoc.keys members <->
       k = "$original_dotnet_type" \/ k = "$original_assembly" \/
       k ∈ Assoc.keys (Data n)) /\
    (forall k v, (k, v) ∈ Data n ->
       exists s1 s2 jv,
         {[GetHashCode a]} ∪ seen ⊆ s1 /\
         conv GetHashCode h fuel s1 v = Some (jv, s2) /\
         Assoc.get k members = Some jv) /\
    ("$original_dotnet_type" ∉ Assoc.keys (Data n) ->
       Assoc.get "$original_dotnet_type" members = Some (JStr (FullTypeName n))) /\
    ("$original_assembly" ∉ Assoc.keys (Data n) ->
       Assoc.get "$original_assembly" members = Some (JStr (AssemblyName n))).
Proof.
  intros Ha ND Ns E.
  rewrite (conv_first_visit _ _ _ _ _ _ Ns Ha) in E. simpl in E.
  destruct (conv_members _ _ (Data n) []) as [[py s]|] eqn:M; [|discriminate].
  injection E as <- <-.
  pose proof (conv_growing GetHashCode h fuel) as G.
  assert (NDpy : NoDup (Assoc.keys py)).
  { apply (conv_members_NoDup _ _ _ _ _ _ M). constructor. }
  eexists. split; [reflexivity|].
  split.
  { apply AssocFacts.NoDup_keys_update.
    apply (bool_decide_unpack _). vm_compute. exact I. }
  split.
  { intros k. rewrite AssocFacts.elem_of_keys_update.
    rewrite (conv_members_keys _ _ _ _ _ _ k M).
    rewrite !AssocFacts.keys_cons, !AssocFacts.keys_nil.
    rewrite !elem_of_cons, !elem_of_nil. tauto. }
  split.
  { intros k v I.
    destruct (conv_members_field _ G _ _ _ _ _ _ _ M ND I) as (s1 & s2 & jv & Sub & R & Gk).
    exists s1, s2, jv. split; [exact Sub|]. split; [exact R|].
    rewrite AssocFacts.get_update by exact NDpy. now rewrite Gk. }
  split; intros N;
    rewrite AssocFacts.get_update by exact NDpy;
    rewrite (conv_members_other _ _ _ _ _ _ _ M N); reflexivity.
Qed.

(** C3, as stated, does not hold: a captured field whose name is a reserved
    key is emitted with the field's value, not with the identity string.
    This is so for the key the code reserves, and for the key the claim
    names, which the code does not reserve. *)
Lemma reserved_key_shows_field :
  exists members,
    to_jsonable Z.of_nat node_named_like_reserved (VRef 0) = Some (JObj members) /\
    Assoc.get "$original_dotnet_type" members = Some (JStr "x") /\
    Assoc.get "$original_dotnet_type" members <>
      Some (JStr "Everbyte.TextGame.Saving.PersData") /\
    Assoc.get "$original_type" members = Some (JInt 1) /\
    Assoc.get "$original_type" members <>
      Some (JStr "Everbyte.TextGame.Saving.PersData") /\
    Assoc.get "$original_origin" members = None.
Proof.
  eexists. split; [vm_compute; reflexivity|].
  repeat split; discriminate.
Qed.

(** C3 (amended): a capture node projects to an object whose keys are
    [$original_dotnet_type], [$original_assembly] and the names of the
    captured fields, each once.  Every captured field is emitted under its
    name with the projection of its value; each reserved key carries the
    identity string unless a captured field has that name, in which case
    the field's projected value is what is emitted. *)
Theorem Node_projection (GetHashCode : addr -> Z) (h : heap) (a : addr) (n : Node) :
  h !! a = Some (ONode n) ->
  NoDup (Assoc.keys (Data n)) ->
  (exists members, to_jsonable GetHashCode h (VRef a) = Some (JObj members)) /\
  (forall fuel seen j seen',
     GetHashCode a ∉ seen ->
     conv GetHashCode h (S fuel) seen (VRef a) = Some (j, seen') ->
     exists members,
       j = JObj members /\
       NoDup (Assoc.keys members) /\
       (forall k, k ∈ Assoc.keys members <->
          k = "$original_dotnet_type" \/ k = "$original_assembly" \/
          k ∈ Assoc.keys (Data n)) /\
       (forall k v, (k, v) ∈ Data n ->
          exists s1 s2 jv,
            {[GetHashCode a]} ∪ seen ⊆ s1 /\
            conv GetHashCode h fuel s1 v = Some (jv, s2) /\
            Assoc.get k members = Some jv) /\
       ("$original_dotnet_type" ∉ Assoc.keys (Data n) ->
          Assoc.get "$original_dotnet_type" members = Some (JStr (FullTypeName n))) /\
       ("$original_assembly" ∉ Assoc.keys (Data n) ->
          Assoc.get "$original_assembly" members = Some (JStr (AssemblyName n)))).
Proof.
  intros Ha ND. split.
  - destruct (to_jsonable_total GetHashCode h (VRef a)) as [j Hj].
    unfold to_jsonable in *.
    destruct (conv GetHashCode h (S (length h)) ∅ (VRef a)) as [[j' s]|] eqn:E;
      [|discriminate].
    injection Hj as ->.
    destruct (conv_node_members _ _ _ _ _ _ _ _ Ha ND (not_elem_of_empty _) E)
      as (members & -> & _).
    eauto.
  - intros fuel seen j seen' Ns E.
    exact (conv_node_members _ _ _ _ _ _ _ _ Ha ND Ns E).
Qed.

Lemma Node_projection_witness :
  exists members,
    to_jsonable Z.of_nat node_named_like_reserved (VRef 0) = Some (JObj members).
Proof.
  apply (Node_projection Z.of_nat node_named_like_reserved 0%nat
           (mkNode "Everbyte.TextGame.Saving.PersData" "Assembly-CSharp"
              [("$original_dotnet_type", VString "x");
               ("$original_type", VInt32 1)])).
  - reflexivity.
  - apply (bool_decide_unpack _). vm_compute. exact I.
Defined.

(** ** Cycles *)

Section Cycles.
Variable GetHashCode : addr -> Z.
Variable h : heap.

(** The projection of an object has, under the name or at the index of
    each slot, the projection of what the slot holds, made under a visited
    set that has only grown since the object was entered. *)
Lemma conv_object_child (rec : projector) seen o j seen' tk v :
  growing rec -> names_unique o ->
  conv_object rec seen o = Some (j, seen') ->
  child o tk = Some v ->
  exists s1 s2 j',
    seen ⊆ s1 /\ rec s1 v = Some (j', s2) /\ json_child j tk = Some j'.
Proof.
  intros G U E C.
  destruct o as [n|iso|z sc|text|bs|kt vt es|et xs|tn fs], tk as [k|i];
    try discriminate C; cbn [child] in C; cbn [conv_object] in E.
  - destruct (conv_members rec seen (Data n) []) as [[py s]|] eqn:M; [|discriminate].
    injection E as <- <-.
    destruct (conv_members_field rec G _ _ _ _ _ k v M U
                (AssocFacts.get_elem_of _ _ _ C)) as (s1 & s2 & j' & Sub & R & Gk).
    exists s1, s2, j'. split; [exact Sub|]. split; [exact R|].
    cbn [json_child]. rewrite AssocFacts.get_update.
    + now rewrite Gk.
    + apply (conv_members_NoDup rec _ _ _ _ _ M). constructor.
  - destruct (conv_members rec seen es []) as [[py s]|] eqn:M; [|discriminate].
    injection E as <- <-.
    destruct (conv_members_field rec G _ _ _ _ _ k v M U
                (AssocFacts.get_elem_of _ _ _ C)) as (s1 & s2 & j' & Sub & R & Gk).
    exists s1, s2, j'. auto.
  - destruct (conv_items rec seen xs) as [[js s]|] eqn:M; [|discriminate].
    injection E as <- <-.
    destruct (conv_items_lookup rec _ _ _ _ _ _ G M C) as (s1 & s2 & j' & Sub & R & L).
    exists s1, s2, j'. auto.
  - destruct (conv_members rec seen fs _) as [[py s]|] eqn:M; [|discriminate].
    injection E as <- <-.
    destruct (conv_members_field rec G _ _ _ _ _ k v M U
                (AssocFacts.get_elem_of _ _ _ C)) as (s1 & s2 & j' & Sub & R & Gk).
    exists s1, s2, j'. auto.
Qed.

Hypothesis names : Forall names_unique h.

Lemma names_lookup (a : addr) o : h !! a = Some o -> names_unique o.
Proof. intros Ha. eapply Forall_lookup_1; eassumption. Qed.

(** One step down a path, in the graph and in the projection. *)
Lemma conv_step fuel seen (b : addr) j seen' tk p y :
  conv GetHashCode h fuel seen (VRef b) = Some (j, seen') ->
  follow h (VRef b) (tk :: p) = Some y ->
  j = JNull \/
  exists f v s1 s2 j',
    fuel = S f /\ follow h v p = Some y /\
    {[GetHashCode b]} ∪ seen ⊆ s1 /\
    conv GetHashCode h f s1 v = Some (j', s2) /\
    json_child j tk = Some j'.
Proof.
  intros E F. destruct fuel as [|f]; [discriminate E|].
  destruct (decide (GetHashCode b ∈ seen)) as [I|N].
  { rewrite conv_visited in E by exact I. injection E as <- _. now left. }
  cbn [follow] in F.
  destruct (h !! b) as [o|] eqn:Hb; [|discriminate F].
  destruct (child o tk) as [v|] eqn:C; [|discriminate F].
  rewrite (conv_first_visit _ _ _ _ _ _ N Hb) in E.
  destruct (conv_object_child _ _ _ _ _ _ _ (conv_growing _ _ f)
              (names_lookup _ _ Hb) E C) as (s1 & s2 & j' & Sub & R & J).
  right. exists f, v, s1, s2, j'. auto.
Qed.

(** Below an object that has been entered, a path that leads back to it
    meets [null] on its way. *)
Lemma cut_visited p : forall fuel seen x j seen' (a : addr),
  conv GetHashCode h fuel seen x = Some (j, seen') ->
  follow h x p = Some (VRef a) ->
  GetHashCode a ∈ seen ->
  exists q, q `prefix_of` p /\ json_follow j q = Some JNull.
Proof.
  induction p as [|tk p IH]; intros fuel seen x j seen' a E F I.
  - injection F as ->. destruct fuel as [|f]; [discriminate E|].
    rewrite conv_visited in E by exact I. injection E as <- _.
    exists []. split; [apply prefix_nil|reflexivity].
  - destruct x as [| | | | | |b]; try discriminate F.
    destruct (conv_step _ _ _ _ _ _ _ _ E F)
      as [->|(f & v & s1 & s2 & j' & -> & Fv & Sub & R & J)].
    { exists []. split; [apply prefix_nil|reflexivity]. }
    destruct (IH f s1 v j' s2 a R Fv) as (q & Pq & Jq).
    { apply Sub, elem_of_union. now right. }
    exists (tk :: q). split; [now apply prefix_cons|].
    cbn [json_follow]. now rewrite J.
Qed.

(** A path that reaches an object and goes on to reach it again meets
    [null] on its way. *)
Lemma cut_cycle p2 (a : addr) : p2 <> [] ->
  follow h (VRef a) p2 = Some (VRef a) ->
  forall p1 fuel seen x j seen',
  conv GetHashCode h fuel seen x = Some (j, seen') ->
  follow h x p1 = Some (VRef a) ->
  exists q, q `prefix_of` (p1 ++ p2) /\ json_follow j q = Some JNull.
Proof.
  intros Ne F2. induction p1 as [|tk p1 IH]; intros fuel seen x j seen' E F.
  - injection F as ->. destruct p2 as [|tk p2]; [congruence|].
    destruct (conv_step _ _ _ _ _ _ _ _ E F2)
      as [->|(f & v & s1 & s2 & j' & -> & Fv & Sub & R & J)].
    { exists []. split; [apply prefix_nil|reflexivity]. }
    destruct (cut_visited p2 f s1 v j' s2 a R Fv) as (q & Pq & Jq).
    { apply Sub, elem_of_union. left. now apply elem_of_singleton. }
    exists (tk :: q). split; [now apply prefix_cons|].
    cbn [json_follow]. now rewrite J.
  - destruct x as [| | | | | |b]; try discriminate F.
    destruct (conv_step _ _ _ _ _ _ _ _ E F)
      as [->|(f & v & s1 & s2 & j' & -> & Fv & Sub & R & J)].
    { exists []. split; [apply prefix_nil|reflexivity]. }
    destruct (IH f s1 v j' s2 R Fv) as (q & Pq & Jq).
    exists (tk :: q). split; [now apply prefix_cons|].
    cbn [json_follow]. now rewrite J.
Qed.

End Cycles.

(** C8: for every graph and every root [to_jsonable] returns a tree.  A
    reference whose hash code is in the visited set is rendered [null]
    without being entered; on a first visit the hash code is added before
    the object's children are projected, and the set only grows.  Hence an
    object of any kind that holds a reference to itself, under a name or at
    an index, shows [null] in that place, and two sequences that hold each
    other show [null] at the far end.  In general, where names are held
    once, no cycle is followed to its end: along every path that reaches an
    object and goes on to reach it again, the projection has [null], at the
    place where the cycle closes or before it. *)
Theorem to_jsonable_cycle_safe (GetHashCode : addr -> Z) (h : heap) :
  (forall o, exists j, to_jsonable GetHashCode h o = Some j) /\
  (forall fuel seen a,
     GetHashCode a ∈ seen ->
     conv GetHashCode h (S fuel) seen (VRef a) = Some (JNull, seen)) /\
  (forall fuel seen a o,
     GetHashCode a ∉ seen -> h !! a = Some o ->
     conv GetHashCode h (S fuel) seen (VRef a) =
       conv_object (conv GetHashCode h fuel) ({[GetHashCode a]} ∪ seen) o) /\
  (forall fuel seen x j seen',
     conv GetHashCode h fuel seen x = Some (j, seen') -> seen ⊆ seen') /\
  (forall (a : addr) o tk,
     h !! a = Some o -> names_unique o -> child o tk = Some (VRef a) ->
     exists j, to_jsonable GetHashCode h (VRef a) = Some j /\
               j <> JNull /\ json_child j tk = Some JNull) /\
  (forall a b ta tb,
     h !! a = Some (OList ta [VRef b]) -> h !! b = Some (OList tb [VRef a]) ->
     GetHashCode a <> GetHashCode b ->
     to_jsonable GetHashCode h (VRef a) = Some (JArr [JArr [JNull]])) /\
  (Forall names_unique h ->
   forall x p1 p2 (a : addr),
     follow h x p1 = Some (VRef a) ->
     p2 <> [] -> follow h (VRef a) p2 = Some (VRef a) ->
     exists j q, to_jsonable GetHashCode h x = Some j /\
                 q `prefix_of` (p1 ++ p2) /\ json_follow j q = Some JNull).
Proof.
  split; [apply to_jsonable_total|].
  split; [apply conv_visited|].
  split; [apply conv_first_visit|].
  split; [intros fuel; apply conv_growing|].
  split; [|split].
  - intros a o tk Ha U C.
    destruct (to_jsonable_root GetHashCode h a o Ha) as (f & j & s & _ & E & T).
    exists j. split; [exact T|].
    destruct (conv_object_child _ _ _ _ _ _ _ (conv_growing _ _ (S f)) U E C)
      as (s1 & s2 & j' & Sub & R & J).
    rewrite conv_visited in R.
    + injection R as <- _. split; [|exact J].
      intros ->. destruct tk; discriminate J.
    + apply Sub, elem_of_union. left. now apply elem_of_singleton.
  - intros a b ta tb Ha Hb N.
    unfold to_jsonable.
    assert (L : (2 <= length h)%nat).
    { assert (a <> b) by congruence.
      apply lookup_lt_Some in Ha, Hb. lia. }
    destruct (length h) as [|[|f]]; [lia|lia|].
    rewrite (conv_first_visit _ _ _ _ _ _ (not_elem_of_empty _) Ha).
    cbn [conv_object conv_items].
    assert (Nb : GetHashCode b ∉ ({[GetHashCode a]} ∪ ∅ : gset Z)).
    { rewrite elem_of_union, elem_of_singleton.
      intros [Eq|Em]; [congruence|exact (not_elem_of_empty _ Em)]. }
    rewrite (conv_first_visit _ _ _ _ _ _ Nb Hb).
    cbn [conv_object conv_items].
    rewrite conv_visited by set_solver.
    reflexivity.
  - intros U x p1 p2 a F1 Ne F2.
    destruct (to_jsonable_total GetHashCode h x) as [j Hj].
    exists j. unfold to_jsonable in Hj.
    destruct (conv GetHashCode h (S (length h)) ∅ x) as [[j' s]|] eqn:E;
      [|discriminate].
    injection Hj as ->.
    destruct (cut_cycle GetHashCode h U p2 a Ne F2 p1 _ _ _ _ _ E F1) as (q & Pq & Jq).
    exists q. unfold to_jsonable. rewrite E. auto.
Qed.

(** A node whose field refers to the node; two lists that hold each other;
    a node, a dictionary and an opaque object in a ring. *)
Lemma to_jsonable_cycle_safe_witness :
  (exists j,
     to_jsonable Z.of_nat
       [ONode (mkNode "Everbyte.TextGame.Saving.Path" "Assembly-CSharp"
                 [("x", VInt32 0); ("next", VRef 0)])] (VRef 0) = Some j /\
     j <> JNull /\ json_child j (TKey "next") = Some JNull) /\
  to_jsonable Z.of_nat [OList TObject [VRef 1]; OList TObject [VRef 0]] (VRef 0) =
    Some (JArr [JArr [JNull]]) /\
  (exists j q,
     to_jsonable Z.of_nat
       [ONode (mkNode "Everbyte.TextGame.Saving.Path" "Assembly-CSharp"
                 [("owner", VRef 1)]);
        ODictionary KString TObject [("first", VRef 2)];
        OOther "System.Tuple" [("m_Item1", VRef 0)]] (VRef 0) = Some j /\
     q `prefix_of` ([] ++ [TKey "owner"; TKey "first"; TKey "m_Item1"]) /\
     json_follow j q = Some JNull).
Proof.
  split; [|split].
  - apply (proj1 (proj2 (proj2 (proj2 (proj2
      (to_jsonable_cycle_safe Z.of_nat
         [ONode (mkNode "Everbyte.TextGame.Saving.Path" "Assembly-CSharp"
                   [("x", VInt32 0); ("next", VRef 0)])])))))
      0%nat _ (TKey "next") eq_refl); [|reflexivity].
    apply (bool_decide_unpack _). vm_compute. exact I.
  - apply (proj1 (proj2 (proj2 (proj2 (proj2 (proj2
      (to_jsonable_cycle_safe Z.of_nat
         [OList TObject [VRef 1]; OList TObject [VRef 0]]))))))
      0%nat 1%nat TObject TObject eq_refl eq_refl).
    discriminate.
  - refine (proj2 (proj2 (proj2 (proj2 (proj2 (proj2
      (to_jsonable_cycle_safe Z.of_nat
         [ONode (mkNode "Everbyte.TextGame.Saving.Path" "Assembly-CSharp"
                   [("owner", VRef 1)]);
          ODictionary KString TObject [("first", VRef 2)];
          OOther "System.Tuple" [("m_Item1", VRef 0)]]))))))
      _ (VRef 0) [] [TKey "owner"; TKey "first"; TKey "m_Item1"] 0%nat
      eq_refl _ eq_refl).
    + repeat constructor; simpl;
        apply (bool_decide_unpack _); vm_compute; exact I.
    + discriminate.
Defined.

(** ** Path mutator *)

Section WalkFacts.
Variable h : heap.
Local Open Scope nat_scope.

Lemma descend_scalar v : is_scalar v -> descend h v = RVal v.
Proof. now destruct v. Qed.

(** The descent leads to the fields of a node and stays where it is on
    anything else. *)
Lemma descend_ref (a : addr) :
  descend h (VRef a) =
    match h !! a with
    | Some (ONode _) => RData a
    | _ => RVal (VRef a)
    end.
Proof.
  unfold descend, get_node_data_if_any. now destruct (h !! a) as [[]|].
Qed.

Lemma reads_scalar v tk w :
  is_scalar v -> reads h v tk = Some w -> is_scalar w.
Proof.
  intros S. unfold reads. rewrite descend_scalar by exact S.
  destruct tk as [k|i].
  - now destruct v.
  - destruct v; try discriminate; try contradiction. simpl.
    destruct (String.get i s); [|discriminate]. now intros [= <-].
Qed.

Lemma walk_scalar toks : forall v p,
  is_scalar v -> walk h v toks = Some p -> is_scalar p.
Proof.
  induction toks as [|tk toks IH]; intros v p S; simpl.
  - now intros [= <-].
  - destruct (reads h v tk) as [w|] eqn:R; [|discriminate].
    apply IH. eapply reads_scalar; eassumption.
Qed.

(** A step that addresses a slot is a step of the walk. *)
Lemma step_reads p tk v : step h p tk = Some v -> reads h p tk = Some v.
Proof.
  destruct tk as [k|i]; simpl.
  - destruct (as_dictionary h (descend h p)) as [d|]; [|discriminate].
    unfold dict_get. now intros ->.
  - now destruct p.
Qed.

(** A step of the walk that reaches an object addresses a slot. *)
Lemma reads_step p tk (b : addr) :
  reads h p tk = Some (VRef b) -> step h p tk = Some (VRef b).
Proof.
  destruct tk as [k|i]; simpl.
  - destruct (as_dictionary h (descend h p)) as [d|]; [|discriminate].
    unfold dict_get. destruct (Assoc.get k d); [congruence|discriminate].
  - destruct p; try discriminate; [|tauto]. simpl.
    destruct (String.get i s); discriminate.
Qed.

Lemma resolve_walk toks : forall cur p,
  resolve h cur toks = Some p -> walk h cur toks = Some p.
Proof.
  induction toks as [|tk toks IH]; intros cur p; simpl; [tauto|].
  destruct (step h cur tk) as [v|] eqn:St; [|discriminate].
  rewrite (step_reads _ _ _ St). apply IH.
Qed.

Lemma walk_resolve toks : forall cur p,
  walk h cur toks = Some p -> ~ is_scalar p -> resolve h cur toks = Some p.
Proof.
  induction toks as [|tk toks IH]; intros cur p; simpl; [tauto|].
  destruct (reads h cur tk) as [v|] eqn:R; [|discriminate].
  intros W NS.
  destruct v as [| | | | | |b];
    try (exfalso; apply NS; eapply (walk_scalar toks); [|exact W]; exact I).
  rewrite (reads_step _ _ _ R). now apply IH.
Qed.


Lemma resolve_prefix pre : forall cur post v,
  resolve h cur (pre ++ post) = Some v ->
  exists p, resolve h cur pre = Some p /\ resolve h p post = Some v.
Proof.
  induction pre as [|t pre IH]; intros cur post v; simpl; [eauto|].
  destruct (step h cur t); [apply IH|discriminate].
Qed.

(** One turn of the loop of [traverse_for_set]. *)
Lemma traverse_step cur par lst tk rest :
  traverse_loop h cur par lst (tk :: rest) =
    match reads h cur tk with
    | Some v => traverse_loop h v cur (Some tk) rest
    | None => (cur, Some tk, VNull)
    end.
Proof.
  cbn [traverse_loop]. fold (descend h cur). unfold reads.
  destruct tk as [k|i]; [|reflexivity].
  now destruct (as_dictionary h (descend h cur)).
Qed.

(** The traversal hands back the value its walk has reached and the step
    it was about to take, when that step is the last of the path or ends
    the walk. *)
Lemma traverse_walk pre tk post : forall cur par lst p,
  walk h cur pre = Some p ->
  post = [] \/ reads h p tk = None ->
  exists c, traverse_loop h cur par lst (pre ++ tk :: post) = (p, Some tk, c).
Proof.
  induction pre as [|t pre IH]; intros cur par lst p.
  - intros [= ->] C. cbn [app]. rewrite traverse_step.
    destruct (reads h p tk) as [v|] eqn:R; [|eauto].
    destruct C as [->|C]; [|discriminate]. simpl. eauto.
  - cbn [walk app]. rewrite traverse_step.
    destruct (reads h cur t) as [v|]; [|discriminate].
    intros W C. now apply IH.
Qed.

(** Every path that is not empty is walked up to a step that is its last
    or ends the walk. *)
Lemma walk_stops toks : forall cur,
  toks <> [] ->
  exists pre tk post p,
    toks = pre ++ tk :: post /\ walk h cur pre = Some p /\
    (post = [] \/ reads h p tk = None).
Proof.
  induction toks as [|t toks IH]; intros cur N; [congruence|].
  destruct (reads h cur t) as [v|] eqn:R.
  - destruct toks as [|t2 toks].
    + exists [], t, [], cur. auto.
    + destruct (IH v) as (pre & tk & post & p & E & W & C); [discriminate|].
      exists (t :: pre), tk, post, p. rewrite E. split; [reflexivity|].
      split; [|exact C]. simpl. now rewrite R.
  - exists [], t, toks, cur. auto.
Qed.

(** The same for the steps that resolve. *)
Lemma traverse_resolved pre tk cur par lst p :
  resolve h cur pre = Some p ->
  exists c, traverse_loop h cur par lst (pre ++ [tk]) = (p, Some tk, c).
Proof.
  intros R. apply traverse_walk; [now apply resolve_walk|now left].
Qed.

End WalkFacts.

(** *** One slot of an object *)

Section WriteFacts.
Local Open Scope nat_scope.

Lemma keys_kept_refl added d : keys_kept added d d.
Proof. now left. Qed.

Lemma shape_kept_refl added o : shape_kept added o o.
Proof. destruct o; simpl; auto using keys_kept_refl. Qed.

Lemma keys_kept_set k v d : keys_kept (Some k) d (Assoc.set k v d).
Proof.
  destruct (decide (k ∈ Assoc.keys d)) as [I|N].
  - left. now apply AssocFacts.keys_set_present.
  - right. exists k. split; [reflexivity|]. split; [exact N|].
    now apply AssocFacts.keys_set_absent.
Qed.

Lemma shape_kept_write o tk slot : shape_kept (added_by tk) o (write o tk slot).
Proof.
  destruct o, tk; simpl; auto using keys_kept_refl, keys_kept_set.
  split; [reflexivity|]. apply length_insert.
Qed.

(** The other slots hold what they held. *)
Lemma child_write_ne o tk slot sel :
  sel <> tk -> child (write o tk slot) sel = child o sel.
Proof.
  intros N. destruct o, tk, sel; simpl; try reflexivity.
  - apply AssocFacts.get_set_ne. congruence.
  - apply AssocFacts.get_set_ne. congruence.
  - apply list_lookup_insert_ne. congruence.
Qed.

Lemma keys_unique_write o tk slot :
  keys_unique o -> keys_unique (write o tk slot).
Proof.
  destruct o, tk; simpl; auto using AssocFacts.NoDup_keys_set.
Qed.

End WriteFacts.

(** *** The store *)

Section AssignFacts.
Variable h : heap.
Local Open Scope nat_scope.

(** Boxing leaves the objects of the graph where they are. *)
Lemma box_lookup v hb slot (a : addr) o :
  box h v = (hb, slot) -> h !! a = Some o -> hb !! a = Some o.
Proof.
  destruct v; intros [= <- _]; try tauto.
  intros L. now apply lookup_app_l_Some.
Qed.

Lemma box_length v : length h <= length (box h v).1 <= S (length h).
Proof. destruct v; simpl; try lia. rewrite length_app. simpl. lia. Qed.

Lemma box_prefix v (a : addr) : a < length h -> (box h v).1 !! a = h !! a.
Proof.
  intros L. destruct v; simpl; try reflexivity. now apply lookup_app_l.
Qed.

Lemma assign_null l path_expr py_val :
  assign h VNull l path_expr py_val = (h, Raise (CouldNotResolve path_expr)).
Proof. reflexivity. Qed.

Lemma assign_raises p tk path_expr py_val e :
  p <> VNull -> _to_net py_val = Raise e ->
  assign h p (Some tk) path_expr py_val = (h, Raise e).
Proof. intros N E. unfold assign. rewrite E. now destruct p. Qed.

(** A container that takes the value has the slot written, and nothing
    else. *)
Lemma assign_taken p tk path_expr py_val v :
  _to_net py_val = Ok v -> takes h p tk v = true ->
  exists (a : addr) o,
    p = VRef a /\ h !! a = Some o /\
    assign h p (Some tk) path_expr py_val =
      (<[a := write o (slot_name o tk) (box h v).2]> (box h v).1, Ok tt) /\
    child (write o (slot_name o tk) (box h v).2) (slot_name o tk)
      = Some (box h v).2.
Proof.
  intros E T. destruct p as [| | | | | |a]; try discriminate T.
  unfold takes in T. unfold assign. rewrite E.
  destruct (h !! a) as [o|] eqn:Ha; [|discriminate T].
  exists a, o. split; [reflexivity|]. split; [exact Ha|].
  unfold store_key, store_index, get_node_data_if_any.
  destruct (box h v) as [hb slot]. cbn [fst snd].
  destruct o as [n|iso|z sc|text|bs|kt vt es|et xs|tn fs], tk as [k|i];
    try discriminate T; repeat (rewrite Ha; cbn beta iota);
    cbn [slot_name write child].
  - split; [reflexivity|apply AssocFacts.get_set_eq].
  - destruct kt; try discriminate T. cbn [set_key]. rewrite T.
    split; [reflexivity|apply AssocFacts.get_set_eq].
  - assert (T' : match index_key kt i with
                  | Some _ => accepts vt v
                  | None => false
                  end = true) by (destruct kt; exact T).
    cbn [set_index]. destruct (index_key kt i) as [k|]; [|discriminate T'].
    rewrite T'. cbn [write child].
    split; [reflexivity|apply AssocFacts.get_set_eq].
  - apply andb_prop in T as [L A]. apply bool_decide_eq_true in L.
    cbn [set_index]. rewrite decide_True by exact L. rewrite A.
    split; [reflexivity|]. now apply list_lookup_insert_eq.
Qed.

(** A container that does not take the value is left alone, and so is
    anything that is no container. *)
Lemma assign_refused p tk path_expr py_val v :
  p <> VNull -> _to_net py_val = Ok v -> takes h p tk v = false ->
  assign h p (Some tk) path_expr py_val = (h, Raise (refusal h p tk path_expr)).
Proof.
  intros N E T. unfold assign. rewrite E.
  unfold store_key, store_index, get_node_data_if_any, refusal.
  destruct (box h v) as [hb slot].
  destruct p as [| | | | | |a]; try congruence;
    try (destruct tk; reflexivity).
  unfold takes in T.
  destruct (h !! a) as [o|] eqn:Ha; [|destruct tk; rewrite ?Ha; reflexivity].
  destruct o as [n|iso|z sc|text|bs|kt vt es|et xs|tn fs], tk as [k|i];
    try discriminate T; repeat (rewrite Ha; cbn beta iota); try reflexivity.
  - destruct kt; cbn [set_key]; rewrite ?T; reflexivity.
  - assert (T' : match index_key kt i with
                  | Some _ => accepts vt v
                  | None => false
                  end = false) by (destruct kt; exact T).
    cbn [set_index]. destruct (index_key kt i); rewrite ?T'; reflexivity.
  - cbn [set_index]. destruct (decide (i < length xs)) as [L|L]; [|reflexivity].
    rewrite (bool_decide_eq_true_2 _ L) in T. simpl in T. now rewrite T.
Qed.

(** What an assignment has done, by its result. *)
Lemma assign_inv p l path_expr py_val h' r :
  assign h p l path_expr py_val = (h', r) ->
  (h' = h /\ exists e, r = Raise e) \/
  (exists tk v (a : addr) o,
     l = Some tk /\ _to_net py_val = Ok v /\ takes h p tk v = true /\
     p = VRef a /\ h !! a = Some o /\ r = Ok tt /\
     h' = <[a := write o (slot_name o tk) (box h v).2]> (box h v).1 /\
     child (write o (slot_name o tk) (box h v).2) (slot_name o tk)
       = Some (box h v).2).
Proof.
  intros E.
  assert (D : p = VNull \/ p <> VNull) by (destruct p; (now left) || now right).
  destruct D as [->|N].
  { rewrite assign_null in E. injection E as <- <-. left. eauto. }
  destruct l as [tk|].
  2:{ unfold assign in E. destruct p; injection E as <- <-; left; eauto. }
  destruct (_to_net py_val) as [v|e] eqn:V.
  2:{ rewrite (assign_raises _ _ _ _ _ N V) in E. injection E as <- <-.
      left. eauto. }
  destruct (takes h p tk v) eqn:T.
  - destruct (assign_taken p tk path_expr py_val v V T)
      as (a & o & -> & Ha & Ea & C).
    rewrite Ea in E. injection E as <- <-. right.
    exists tk, v, a, o. auto 10.
  - rewrite (assign_refused _ _ _ _ _ N V T) in E. injection E as <- <-.
    left. eauto.
Qed.

End AssignFacts.

(** *** The whole assignment *)

Section SetValueFacts.
Variable h : heap.
Local Open Scope nat_scope.

(** [set_value] is the store at the place where the walk has stopped. *)
Lemma set_value_at root path_expr value_literal pre tk post p :
  parse_path path_expr = Ok (pre ++ tk :: post) ->
  walk h root pre = Some p ->
  post = [] \/ reads h p tk = None ->
  set_value h root path_expr value_literal =
    assign h p (Some tk) path_expr (parse_value_literal value_literal).
Proof.
  intros P W C. unfold set_value, traverse_for_set. rewrite P.
  destruct (traverse_walk h pre tk post root VNull None p W C) as [c ->].
  reflexivity.
Qed.

Lemma set_value_stops root path_expr value_literal toks :
  parse_path path_expr = Ok toks -> toks <> [] ->
  exists pre tk post p,
    toks = pre ++ tk :: post /\ walk h root pre = Some p /\
    (post = [] \/ reads h p tk = None) /\
    set_value h root path_expr value_literal =
      assign h p (Some tk) path_expr (parse_value_literal value_literal).
Proof.
  intros P N.
  destruct (walk_stops h toks root N) as (pre & tk & post & p & E & W & C).
  exists pre, tk, post, p. repeat split; try assumption.
  rewrite E in P. exact (set_value_at _ _ _ _ _ _ _ P W C).
Qed.

Lemma set_value_empty root path_expr value_literal :
  parse_path path_expr = Ok [] ->
  set_value h root path_expr value_literal =
    (h, Raise (CouldNotResolve path_expr)).
Proof. intros P. unfold set_value. now rewrite P. Qed.

(** The store at the place the steps before the last resolve to. *)
Lemma set_value_resolved root path_expr value_literal pre tk p :
  parse_path path_expr = Ok (pre ++ [tk]) ->
  resolve h root pre = Some p ->
  set_value h root path_expr value_literal =
    assign h p (Some tk) path_expr (parse_value_literal value_literal).
Proof.
  intros P R. unfold set_value, traverse_for_set. rewrite P.
  destruct (traverse_resolved h pre tk root VNull None p R) as [c ->].
  reflexivity.
Qed.

(** What a call has done, by its result. *)
Lemma set_value_inv root path_expr value_literal h' r :
  set_value h root path_expr value_literal = (h', r) ->
  (h' = h /\ exists e, r = Raise e) \/
  (exists pre tk post v (a : addr) o,
     parse_path path_expr = Ok (pre ++ tk :: post) /\
     resolve h root pre = Some (VRef a) /\
     (post = [] \/ reads h (VRef a) tk = None) /\
     _to_net (parse_value_literal value_literal) = Ok v /\
     takes h (VRef a) tk v = true /\
     h !! a = Some o /\ r = Ok tt /\
     h' = <[a := write o (slot_name o tk) (box h v).2]> (box h v).1 /\
     child (write o (slot_name o tk) (box h v).2) (slot_name o tk)
       = Some (box h v).2).
Proof.
  intros E. destruct (parse_path path_expr) as [toks|e] eqn:P.
  2:{ unfold set_value in E. rewrite P in E. injection E as <- <-. left. eauto. }
  destruct toks as [|t toks].
  { rewrite (set_value_empty _ _ _ P) in E. injection E as <- <-. left. eauto. }
  destruct (set_value_stops root path_expr value_literal _ P)
    as (pre & tk & post & p & Et & W & C & S); [discriminate|].
  rewrite S in E.
  apply assign_inv in E
    as [L|(tk' & v & a & o & [= <-] & V & T & -> & Ha & -> & -> & Ch)];
    [now left|].
  right. exists pre, tk, post, v, a, o. rewrite Et.
  repeat split; try assumption; try reflexivity.
  apply walk_resolve; [exact W|]. simpl. tauto.
Qed.

End SetValueFacts.

(** *** The graph after a store *)

Section StoredFacts.
Variable h : heap.
Local Open Scope nat_scope.

(** The graph in which the object at [a] has been replaced, after the box
    of the value was made. *)
Lemma stored_lookup v (a : addr) o o' :
  h !! a = Some o ->
  <[a := o']> (box h v).1 !! a = Some o'.
Proof.
  intros Ha. apply list_lookup_insert_eq.
  apply lookup_lt_Some in Ha. pose proof (box_length h v). lia.
Qed.

Lemma stored_frame v (a b : addr) o' :
  b <> a -> b < length h -> <[a := o']> (box h v).1 !! b = h !! b.
Proof.
  intros N L. rewrite list_lookup_insert_ne by congruence.
  now apply box_prefix.
Qed.

Lemma stored_length v (a : addr) o' :
  length h <= length (<[a := o']> (box h v).1) <= S (length h).
Proof. rewrite length_insert. apply box_length. Qed.

(** Every object is found again, the written one with its shape. *)
Lemma stored_shape v (a : addr) o tk :
  h !! a = Some o ->
  forall (b : addr) ob, h !! b = Some ob ->
    exists ob',
      <[a := write o tk (box h v).2]> (box h v).1 !! b = Some ob' /\
      shape_kept (added_by tk) ob ob'.
Proof.
  intros Ha b ob Hb. destruct (decide (b = a)) as [->|N].
  - rewrite (stored_lookup _ _ _ _ Ha). eexists. split; [reflexivity|].
    rewrite Ha in Hb. injection Hb as <-. apply shape_kept_write.
  - rewrite stored_frame by (try assumption; now apply lookup_lt_Some in Hb).
    exists ob. split; [exact Hb|apply shape_kept_refl].
Qed.

(** A field step is taken by a node or by a dictionary, which the walk
    reads, and is the last step of the path. *)
Lemma takes_key_dictionary p k v :
  takes h p (TKey k) v = true ->
  exists (a : addr) d,
    p = VRef a /\ as_dictionary h (descend h p) = Some d.
Proof.
  destruct p as [| | | | | |a]; try discriminate. unfold takes.
  rewrite descend_ref.
  destruct (h !! a) as [[n|iso|z sc|text|bs|kt vt es|et xs|tn fs]|] eqn:Ha;
    try discriminate; intros _; cbn [as_dictionary]; rewrite Ha;
    eexists _, _; split; reflexivity.
Qed.

(** The slot a step names is the slot the step addresses. *)
Lemma step_child (a : addr) o tk v :
  h !! a = Some o -> takes h (VRef a) tk v = true ->
  step h (VRef a) tk = child o (slot_name o tk).
Proof.
  intros Ha T. unfold takes in T. rewrite Ha in T.
  unfold step. rewrite descend_ref, Ha.
  destruct o as [n|iso|z sc|text|bs|kt vt es|et xs|tn fs], tk as [k|i];
    try discriminate T; cbn [as_dictionary get_item slot_name child];
    rewrite ?Ha; try reflexivity.
  all: destruct (index_key kt i); reflexivity.
Qed.

End StoredFacts.

(** The container takes the value after the store as before it. *)
Lemma takes_stored h v (a : addr) o tk sel w :
  h !! a = Some o ->
  takes (<[a := write o sel (box h v).2]> (box h v).1) (VRef a) tk w
    = takes h (VRef a) tk w.
Proof.
  intros Ha. unfold takes. rewrite (stored_lookup h v a o _ Ha), Ha.
  destruct o as [n|iso|z sc|text|bs|kt vt es|et xs|tn fs], sel as [k|i];
    cbn [write]; try reflexivity.
  destruct tk; [reflexivity|]. now rewrite length_insert.
Qed.

(** After the store the step addresses the slot, which holds the value. *)
Lemma step_stored h v (a : addr) o tk :
  h !! a = Some o -> takes h (VRef a) tk v = true ->
  child (write o (slot_name o tk) (box h v).2) (slot_name o tk)
    = Some (box h v).2 ->
  step (<[a := write o (slot_name o tk) (box h v).2]> (box h v).1) (VRef a) tk
    = Some (box h v).2.
Proof.
  intros Ha T C.
  rewrite (step_child _ a (write o (slot_name o tk) (box h v).2) tk v).
  - replace (slot_name (write o (slot_name o tk) (box h v).2) tk)
      with (slot_name o tk); [exact C|].
    destruct o as [n|iso|z sc|text|bs|kt vt es|et xs|tn fs], tk as [k|i];
      try reflexivity.
    cbn [slot_name]. destruct (index_key kt i) eqn:K; cbn [write slot_name];
      now rewrite ?K.
  - exact (stored_lookup h v a o _ Ha).
  - now rewrite takes_stored.
Qed.

(** The dictionary under a field step, after the store. *)
Lemma as_dictionary_stored h v (a : addr) o k d :
  h !! a = Some o ->
  as_dictionary h (descend h (VRef a)) = Some d ->
  as_dictionary (<[a := write o (TKey k) (box h v).2]> (box h v).1)
    (descend (<[a := write o (TKey k) (box h v).2]> (box h v).1) (VRef a))
    = Some (Assoc.set k (box h v).2 d).
Proof.
  intros Ha. rewrite !descend_ref, (stored_lookup h v a o _ Ha), Ha.
  destruct o as [n|iso|z sc|text|bs|kt vt es|et xs|tn fs];
    cbn [write as_dictionary]; rewrite ?Ha, ?(stored_lookup h v a _ _ Ha);
    try discriminate; now intros [= <-].
Qed.

(** A field step that is taken is the last of its path. *)
Lemma taken_key_last h (a : addr) k v (post : list token) :
  takes h (VRef a) (TKey k) v = true ->
  post = [] \/ reads h (VRef a) (TKey k) = None -> post = [].
Proof.
  intros T [->|R]; [reflexivity|].
  destruct (takes_key_dictionary h _ _ _ T) as (a' & d & _ & D).
  unfold reads in R. now rewrite D in R.
Qed.

(** C1, as stated, does not hold: on a node that has no field "gems" the
    assignment "gems=1" returns, and the node has the field afterwards. *)
Lemma set_value_creates_field :
  Assoc.get "gems"
    [("coins", VInt32 5); ("paths", VRef 1); ("username", VString "Alice")] = None /\
  exists h',
    set_value save_graph (VRef 0) "gems" "1" = (h', Ok tt) /\
    h' !! 0%nat =
      Some (ONode (mkNode "Everbyte.TextGame.Saving.PersData" "Assembly-CSharp"
              [("coins", VInt32 5); ("paths", VRef 1);
               ("username", VString "Alice"); ("gems", VInt32 1)])).
Proof.
  split; [reflexivity|]. eexists. split; vm_compute; reflexivity.
Qed.

(** C1 (amended): an assignment that raises leaves the graph as it was.
    An assignment that returns has written one slot of one object: the
    steps of the path before the written one resolve to that object, the
    slot the written step names holds the coerced value, every other slot
    of the object and every other object hold what they held.  The written
    step is the last of the path, or an index that a dictionary keyed by
    integers did not hold.  No sequence is extended, no key is removed or
    renamed, no object changes its kind, its types or its identity strings:
    every object is found at its address with the same shape, except that
    one dictionary may have gained one key, the final field name of the
    path or the decimal notation of an index.  Whenever the steps before a
    final field name resolve to a dictionary that takes the value (the
    fields of a node, or a dictionary keyed by strings whose values are of
    the type of the value), the assignment returns and the dictionary holds
    the value under that name: replaced where the key stood, appended when
    the key was absent. *)
Theorem set_value_keeps_shape (h : heap) (root : value)
    (path_expr value_literal : string) (h' : heap) (r : result unit) :
  set_value h root path_expr value_literal = (h', r) ->
  (exists added,
     (forall k, added = Some k ->
        exists pre tk post,
          parse_path path_expr = Ok (pre ++ tk :: post) /\
          (tk = TKey k /\ post = [] \/ exists i, tk = TIdx i /\ k = decimal i)) /\
     forall (a : addr) o, h !! a = Some o ->
       exists o', h' !! a = Some o' /\ shape_kept added o o') /\
  (forall e, r = Raise e -> h' = h) /\
  (r = Ok tt ->
     exists pre tk post (a : addr) o o' v,
       parse_path path_expr = Ok (pre ++ tk :: post) /\
       resolve h root pre = Some (VRef a) /\
       (post = [] \/ exists i, tk = TIdx i /\ step h (VRef a) tk = None) /\
       _to_net (parse_value_literal value_literal) = Ok v /\
       h !! a = Some o /\ h' !! a = Some o' /\
       child o' (slot_name o tk) = Some (box h v).2 /\
       (forall sel, sel <> slot_name o tk -> child o' sel = child o sel) /\
       (forall (b : addr), b <> a -> (b < length h)%nat -> h' !! b = h !! b) /\
       (length h <= length h' <= S (length h))%nat) /\
  (forall pre k p d v,
     parse_path path_expr = Ok (pre ++ [TKey k]) ->
     resolve h root pre = Some p ->
     as_dictionary h (descend h p) = Some d ->
     _to_net (parse_value_literal value_literal) = Ok v ->
     takes h p (TKey k) v = true ->
     r = Ok tt /\
     as_dictionary h' (descend h' p) = Some (Assoc.set k (box h v).2 d)).
Proof.
  intros E.
  assert (W : forall pre k p d v,
     parse_path path_expr = Ok (pre ++ [TKey k]) ->
     resolve h root pre = Some p ->
     as_dictionary h (descend h p) = Some d ->
     _to_net (parse_value_literal value_literal) = Ok v ->
     takes h p (TKey k) v = true ->
     r = Ok tt /\
     as_dictionary h' (descend h' p) = Some (Assoc.set k (box h v).2 d)).
  { intros pre k p d v P R D V T.
    rewrite (set_value_resolved h _ _ _ _ _ _ P R) in E.
    destruct (assign_taken h p (TKey k) path_expr _ v V T)
      as (a & o & -> & Ha & Ea & _).
    rewrite Ea in E. injection E as <- <-. split; [reflexivity|].
    replace (slot_name o (TKey k)) with (TKey k) by now destruct o.
    now apply as_dictionary_stored. }
  destruct (set_value_inv h _ _ _ _ _ E)
    as [(-> & e & ->)
       |(pre & tk & post & v & a & o & P & R & C & V & T & Ha & -> & -> & Ch)].
  - split; [|split; [auto|split; [discriminate|exact W]]].
    exists None. split; [discriminate|].
    intros a o Ha. exists o. split; [exact Ha|apply shape_kept_refl].
  - split; [|split; [discriminate|split; [|exact W]]].
    + exists (added_by (slot_name o tk)). split; [|now apply stored_shape].
      intros k A. exists pre, tk, post. split; [exact P|].
      destruct tk as [k0|i].
      * left. replace (slot_name o (TKey k0)) with (TKey k0) in A by now destruct o.
        cbn in A. injection A as <-. split; [reflexivity|].
        eapply taken_key_last; eassumption.
      * right. exists i. split; [reflexivity|].
        destruct o as [n|iso|z sc|text|bs|kt vt es|et xs|tn fs];
          try discriminate A. cbn [slot_name] in A.
        unfold index_key in A.
        destruct kt; try discriminate A;
          match type of A with
          | context [if ?b then _ else _] => destruct b
          end; cbn in A; congruence.
    + intros _.
      exists pre, tk, post, a, o, (write o (slot_name o tk) (box h v).2), v.
      split; [exact P|]. split; [exact R|]. split.
      { destruct tk as [k0|i].
        - left. eapply taken_key_last; eassumption.
        - destruct C as [C|C]; [now left|]. right. exists i. now split. }
      split; [exact V|]. split; [exact Ha|].
      split; [exact (stored_lookup h v a o _ Ha)|]. split; [exact Ch|].
      split; [intros sel N; now apply child_write_ne|].
      split; [intros b N L; now apply stored_frame|apply stored_length].
Qed.

Lemma set_value_keeps_shape_witness :
  exists h',
    set_value save_graph (VRef 0) "paths[0].y" "true" = (h', Ok tt) /\
    (forall (a : addr) o, save_graph !! a = Some o ->
       exists o', h' !! a = Some o' /\ shape_kept (Some "y") o o') /\
    child (default (ODateTime "") (h' !! 2%nat)) (TKey "y") = Some (VBoolean true) /\
    child (default (ODateTime "") (h' !! 2%nat)) (TKey "x") = Some (VInt32 0) /\
    h' !! 0%nat = save_graph !! 0%nat /\ h' !! 1%nat = save_graph !! 1%nat /\
    as_dictionary h' (descend h' (VRef 2)) =
      Some [("x", VInt32 0); ("y", VBoolean true)].
Proof.
  destruct (set_value save_graph (VRef 0) "paths[0].y" "true") as [h' r] eqn:E.
  destruct (set_value_keeps_shape _ _ _ _ _ _ E) as ((added & L & S) & _ & Wr & W).
  destruct (W [TKey "paths"; TIdx 0] "y" (VRef 2) [("x", VInt32 0)] (NetBoolean true)
              eq_refl eq_refl eq_refl eq_refl eq_refl) as (-> & D).
  destruct (Wr eq_refl)
    as (pre & tk & post & a & o & o' & v & P & R & C & V & Ha & Ha' & Ch & Fr & Fh & Len).
  exists h'. split; [reflexivity|].
  vm_compute in E. injection E as <-.
  repeat split; try reflexivity.
  intros b ob Hb.
  destruct b as [|[|[|b]]]; simpl in Hb; try discriminate Hb;
    injection Hb as <-; eexists; (split; [reflexivity|]); simpl.
  - repeat split. now left.
  - split; reflexivity.
  - repeat split. right. exists "y". repeat split.
    apply AssocFacts.get_None. reflexivity.
Defined.

Section UnresolvedFacts.
Variable h : heap.





End UnresolvedFacts.





(** ** The usage examples of the module's docstring *)

Example path_energyCap :
  parse_path "userSettings.energyCap" = Ok [TKey "userSettings"; TKey "energyCap"].
Proof. vm_compute. reflexivity. Qed.

Example path_memberIDs :
  parse_path "paths[0].memberIDs[2]" =
    Ok [TKey "paths"; TIdx 0; TKey "memberIDs"; TIdx 2].
Proof. vm_compute. reflexivity. Qed.

Example literal_coins :
  _to_net (parse_value_literal "999999") = Ok (NetInt32 999999).
Proof. reflexivity. Qed.

Example literal_quoted_zeros :
  parse_value_literal (String dquote (String.append "00123" (String dquote ""))) =
    PyStr "00123".
Proof. reflexivity. Qed.

Example literal_name : parse_value_literal "Alice" = PyStr "Alice".
Proof. reflexivity. Qed.

(** [--set coins=999999] and [--set paths[0].x=true] on the sample save. *)
Example edit_coins :
  (set_value save_graph (VRef 0) "coins" "999999").2 = Ok tt /\
  (set_value save_graph (VRef 0) "coins" "999999").1 !! 0%nat =
    Some (ONode (mkNode "Everbyte.TextGame.Saving.PersData" "Assembly-CSharp"
            [("coins", VInt32 999999); ("paths", VRef 1);
             ("username", VString "Alice")])).
Proof. split; vm_compute; reflexivity. Qed.

Example edit_path_field :
  set_value save_graph (VRef 0) "paths[0].x" "true" =
    ([ONode (mkNode "Everbyte.TextGame.Saving.PersData" "Assembly-CSharp"
               [("coins", VInt32 5); ("paths", VRef 1); ("username", VString "Alice")]);
      OList TObject [VRef 2; VRef 2; VRef 2; VRef 2; VRef 2];
      ONode (mkNode "Everbyte.TextGame.Saving.Path" "Assembly-CSharp"
               [("x", VBoolean true)])],
     Ok tt).
Proof. vm_compute. reflexivity. Qed.

(** The projection of the sample save: the five entries of the list are one
    object, expanded at the first and [null] after it. *)
Example dump_save :
  to_jsonable Z.of_nat save_graph (VRef 0) =
    Some (JObj
      [("$original_dotnet_type", JStr "Everbyte.TextGame.Saving.PersData");
       ("$original_assembly", JStr "Assembly-CSharp");
       ("coins", JInt 5);
       ("paths",
        JArr [JObj [("$original_dotnet_type", JStr "Everbyte.TextGame.Saving.Path");
                    ("$original_assembly", JStr "Assembly-CSharp");
                    ("x", JInt 0)];
              JNull; JNull; JNull; JNull]);
       ("username", JStr "Alice")]).
Proof. vm_compute. reflexivity. Qed.

(** * Further properties of the mutator *)

(** X2: whatever the path and the literal, and whether the call returns or
    raises, an assignment replaces at most one object of the graph: all
    the others are found unchanged at their addresses, and the graph gains
    at most one object (the box of a [Decimal]). *)
Theorem set_value_frame (h : heap) (root : value)
    (path_expr value_literal : string) (h' : heap) (r : result unit) :
  set_value h root path_expr value_literal = (h', r) ->
  (length h <= length h' <= S (length h))%nat /\
  exists a0 : addr,
    forall (a : addr), a <> a0 -> (a < length h)%nat -> h' !! a = h !! a.
Proof.
  intros E.
  destruct (set_value_inv h _ _ _ _ _ E)
    as [(-> & _)
       |(pre & tk & post & v & a0 & o & _ & _ & _ & _ & _ & Ha & _ & -> & _)].
  - split; [lia|]. exists 0%nat. reflexivity.
  - split; [apply stored_length|]. exists a0. intros a N L.
    now apply stored_frame.
Qed.

Lemma set_value_frame_witness :
  exists a0 : addr,
    forall (a : addr), a <> a0 -> (a < 3)%nat ->
      (set_value save_graph (VRef 0) "paths[0].x" "99999999999999999999").1 !! a =
      save_graph !! a.
Proof.
  destruct (set_value save_graph (VRef 0) "paths[0].x" "99999999999999999999")
    as [h' r] eqn:E.
  exact (proj2 (set_value_frame _ _ _ _ _ _ E)).
Defined.

Section UniqueKeys.
Variable h : heap.

Lemma box_unique v : Forall keys_unique h -> Forall keys_unique (box h v).1.
Proof.
  intros F. destruct v; simpl; try exact F.
  apply Forall_app. split; [exact F|]. repeat constructor.
Qed.

Lemma set_value_unique root path_expr value_literal h' r :
  Forall keys_unique h ->
  set_value h root path_expr value_literal = (h', r) ->
  Forall keys_unique h'.
Proof.
  intros F E.
  destruct (set_value_inv h _ _ _ _ _ E)
    as [(-> & _)
       |(pre & tk & post & v & a & o & _ & _ & _ & _ & _ & Ha & _ & -> & _)];
    [exact F|].
  apply Forall_insert; [now apply box_unique|].
  apply keys_unique_write. eapply Forall_lookup_1; eassumption.
Qed.

End UniqueKeys.

Lemma Node_ctor_unique info : keys_unique (ONode (KatRoundtrip.Node_ctor info)).
Proof.
  simpl. apply (AssocFacts.NoDup_keys_update [] (KatRoundtrip.info_entries info)).
  constructor.
Qed.

(** X3: no dictionary of the graph ever holds a key twice: the constructor
    of a node builds [Data] with distinct keys, whatever it is given, and an
    assignment, returning or raising, keeps the keys of every node and of
    every dictionary distinct. *)
Theorem keys_stay_unique :
  (forall info, keys_unique (ONode (KatRoundtrip.Node_ctor info))) /\
  (forall h root path_expr value_literal h' r,
     Forall keys_unique h ->
     set_value h root path_expr value_literal = (h', r) ->
     Forall keys_unique h').
Proof.
  split; [exact Node_ctor_unique|].
  intros h root pe lit h' r F E. exact (set_value_unique h _ _ _ _ _ F E).
Qed.

Lemma keys_stay_unique_witness :
  Forall keys_unique (set_value save_graph (VRef 0) "paths[0].y" "1").1.
Proof.
  destruct (set_value save_graph (VRef 0) "paths[0].y" "1") as [h' r] eqn:E.
  apply (proj2 keys_stay_unique save_graph (VRef 0) "paths[0].y" "1" h' r);
    [|exact E].
  repeat constructor; simpl; apply (bool_decide_unpack _); vm_compute; exact I.
Defined.

(** A node whose keys are distinct emits itself without a refusal. *)
Lemma GetObjectData_unique n fresh :
  NoDup (Assoc.keys (Data n)) ->
  KatRoundtrip.info_entries fresh = [] ->
  KatRoundtrip.GetObjectData n fresh =
    Some (KatRoundtrip.mkInfo
            (if KatRoundtrip.IsNullOrEmpty (FullTypeName n)
             then KatRoundtrip.info_FullTypeName fresh else FullTypeName n)
            (if KatRoundtrip.IsNullOrEmpty (AssemblyName n)
             then KatRoundtrip.info_AssemblyName fresh else AssemblyName n)
            (Data n)).
Proof.
  intros ND E. unfold KatRoundtrip.GetObjectData.
  destruct fresh as [t0 a0 es0]. simpl in E. subst es0.
  destruct (FullTypeName n), (AssemblyName n); simpl;
    unfold KatRoundtrip.set_FullTypeName, KatRoundtrip.set_AssemblyName; simpl;
    now rewrite Capture.add_all_fresh.
Qed.

(** The store under a field name of a node. *)
Lemma set_value_node_field (h : heap) (root : value)
    (path_expr value_literal : string) (pre : list token) (k : string)
    (a : addr) (n : Node) (v : net) :
  parse_path path_expr = Ok (pre ++ [TKey k]) ->
  resolve h root pre = Some (VRef a) ->
  h !! a = Some (ONode n) ->
  _to_net (parse_value_literal value_literal) = Ok v ->
  set_value h root path_expr value_literal =
    (<[a := ONode (mkNode (FullTypeName n) (AssemblyName n)
                     (Assoc.set k (box h v).2 (Data n)))]> (box h v).1, Ok tt).
Proof.
  intros P R Ha V.
  rewrite (set_value_resolved h _ _ _ _ _ _ P R).
  assert (T : takes h (VRef a) (TKey k) v = true)
    by (unfold takes; now rewrite Ha).
  destruct (assign_taken h _ _ path_expr _ v V T) as (a' & o & [= <-] & Ha' & -> & _).
  rewrite Ha in Ha'. injection Ha' as <-. reflexivity.
Qed.

(** X4: an edit followed by the emission of the edited node.  When a path
    ends with a field name on a node whose keys are distinct, and the
    literal is converted to an engine value, the assignment returns, and
    the node then emits its two headers as it did before and its fields
    with the coerced value under that name: in the place of the old value
    when the field existed, after the other fields when it did not. *)
Theorem set_value_then_GetObjectData (h : heap) (root : value)
    (path_expr value_literal : string) (pre : list token) (k : string)
    (a : addr) (n : Node) (v : net) (fresh : KatRoundtrip.SerializationInfo) :
  parse_path path_expr = Ok (pre ++ [TKey k]) ->
  resolve h root pre = Some (VRef a) ->
  h !! a = Some (ONode n) ->
  NoDup (Assoc.keys (Data n)) ->
  _to_net (parse_value_literal value_literal) = Ok v ->
  KatRoundtrip.info_entries fresh = [] ->
  exists h' n' before after,
    set_value h root path_expr value_literal = (h', Ok tt) /\
    h' !! a = Some (ONode n') /\
    KatRoundtrip.GetObjectData n fresh = Some before /\
    KatRoundtrip.GetObjectData n' fresh = Some after /\
    KatRoundtrip.info_FullTypeName after = KatRoundtrip.info_FullTypeName before /\
    KatRoundtrip.info_AssemblyName after = KatRoundtrip.info_AssemblyName before /\
    KatRoundtrip.info_entries after =
      Assoc.set k (box h v).2 (KatRoundtrip.info_entries before).
Proof.
  intros P R Ha ND V Ef.
  rewrite (set_value_node_field h _ _ _ _ _ _ _ _ P R Ha V).
  eexists _, _, _, _. split; [reflexivity|].
  split; [exact (stored_lookup h v a _ _ Ha)|].
  split; [now apply GetObjectData_unique|].
  split; [apply GetObjectData_unique; [|exact Ef]; simpl;
          now apply AssocFacts.NoDup_keys_set|].
  repeat split.
Qed.

Lemma set_value_then_GetObjectData_witness :
  exists h' n' before after,
    set_value save_graph (VRef 0) "paths[0].x" "7" = (h', Ok tt) /\
    h' !! 2%nat = Some (ONode n') /\
    KatRoundtrip.GetObjectData
      (mkNode "Everbyte.TextGame.Saving.Path" "Assembly-CSharp" [("x", VInt32 0)])
      fresh_info = Some before /\
    KatRoundtrip.GetObjectData n' fresh_info = Some after /\
    KatRoundtrip.info_FullTypeName after = KatRoundtrip.info_FullTypeName before /\
    KatRoundtrip.info_AssemblyName after = KatRoundtrip.info_AssemblyName before /\
    KatRoundtrip.info_entries after =
      Assoc.set "x" (box save_graph (NetInt32 7)).2
        (KatRoundtrip.info_entries before).
Proof.
  apply (set_value_then_GetObjectData save_graph (VRef 0) "paths[0].x" "7"
           [TKey "paths"; TIdx 0] "x" 2%nat).
  - vm_compute. reflexivity.
  - reflexivity.
  - reflexivity.
  - apply (bool_decide_unpack _). vm_compute. exact I.
  - reflexivity.
  - reflexivity.
Defined.


(** * The edit command *)

Lemma keys_kept_prefix added d d' :
  keys_kept added d d' -> Assoc.keys d `prefix_of` Assoc.keys d'.
Proof.
  intros [->|(k & _ & _ & ->)]; [reflexivity|]. now apply prefix_app_r.
Qed.

Lemma shape_kept_grown added o o' : shape_kept added o o' -> grown o o'.
Proof.
  destruct o, o'; simpl; try tauto.
  - intros (? & ? & K). eauto using keys_kept_prefix.
  - intros (? & ? & K). eauto using keys_kept_prefix.
Qed.

Lemma grown_refl o : grown o o.
Proof. destruct o; simpl; auto. Qed.

Lemma grown_trans o1 o2 o3 : grown o1 o2 -> grown o2 o3 -> grown o1 o3.
Proof.
  destruct o1, o2; simpl; try (intros ->; tauto); try discriminate;
    destruct o3; simpl; try tauto; try discriminate.
  - intros (-> & -> & P) (-> & -> & Q). repeat split. etransitivity; eassumption.
  - intros (-> & -> & P) (-> & -> & Q). repeat split. etransitivity; eassumption.
  - intros (-> & ->) (-> & ->). split; reflexivity.
Qed.

Lemma heap_grown_refl h : heap_grown h h.
Proof. intros a o Ha. exists o. split; [exact Ha|apply grown_refl]. Qed.

Lemma heap_grown_trans h1 h2 h3 :
  heap_grown h1 h2 -> heap_grown h2 h3 -> heap_grown h1 h3.
Proof.
  intros G1 G2 a o Ha. destruct (G1 a o Ha) as (o2 & H2 & S12).
  destruct (G2 a o2 H2) as (o3 & H3 & S23).
  exists o3. split; [exact H3|eapply grown_trans; eassumption].
Qed.

Lemma set_value_grown h root path_expr value_literal h' r :
  set_value h root path_expr value_literal = (h', r) -> heap_grown h h'.
Proof.
  intros E.
  destruct (set_value_inv h _ _ _ _ _ E)
    as [(-> & _)
       |(pre & tk & post & v & a & o & _ & _ & _ & _ & _ & Ha & _ & -> & _)];
    [apply heap_grown_refl|].
  intros b ob Hb.
  destruct (stored_shape h v a o (slot_name o tk) Ha b ob Hb) as (ob' & Hb' & Sh).
  exists ob'. split; [exact Hb'|eapply shape_kept_grown, Sh].
Qed.

(** X5: whatever the assignments of an edit, valid or not, and wherever the
    loop stops, every object of the decoded graph is still at its address
    and of its kind: a list has the length it had, a node the type name and
    assembly name it had, and the keys of a node or dictionary begin with
    the keys it had, in their order; and dictionaries whose keys were
    distinct still have distinct keys. *)
Theorem apply_sets_grown (h : heap) (root : value) (sets : list string)
    (h' : heap) (r : option edit_error) :
  apply_sets h root sets = (h', r) ->
  heap_grown h h' /\ (Forall keys_unique h -> Forall keys_unique h').
Proof.
  revert h. induction sets as [|s sets IH]; intros h; simpl.
  - intros [= <- _]. split; [apply heap_grown_refl|tauto].
  - destruct (split_eq s) as [[path value]|];
      [|intros [= <- _]; split; [apply heap_grown_refl|tauto]].
    destruct (set_value h root _ _) as [h1 [u|e]] eqn:E.
    + intros A. destruct (IH _ A) as [G U]. split.
      * eapply heap_grown_trans; [eapply set_value_grown, E|exact G].
      * intros F. apply U. eapply set_value_unique; eassumption.
    + intros [= <- _]. split.
      * eapply set_value_grown, E.
      * intros F. eapply set_value_unique; eassumption.
Qed.

Lemma apply_sets_grown_witness :
  heap_grown save_graph
    (apply_sets save_graph (VRef 0)
       ["coins=999999"; "paths[0].y = a=b"; "paths[9]=1"; "coins=0"]).1.
Proof.
  destruct (apply_sets save_graph (VRef 0)
              ["coins=999999"; "paths[0].y = a=b"; "paths[9]=1"; "coins=0"])
    as [h' r] eqn:E.
  exact (proj1 (apply_sets_grown _ _ _ _ _ E)).
Defined.

(** X6: the assignments of an edit are applied in their order, each to the
    graph the one before left; the first that raises ends the loop, and
    those after it are not looked at. *)
Theorem apply_sets_app (h : heap) (root : value) (sets1 sets2 : list string) :
  apply_sets h root (sets1 ++ sets2) =
    match apply_sets h root sets1 with
    | (h1, None) => apply_sets h1 root sets2
    | (h1, Some e) => (h1, Some e)
    end.
Proof.
  revert h. induction sets1 as [|s sets1 IH]; intros h; simpl; [reflexivity|].
  destruct (split_eq s) as [[path value]|]; [|reflexivity].
  destruct (set_value h root _ _) as [h1 [u|e]]; [apply IH|reflexivity].
Qed.

Lemma contains_eq_cons c s :
  Chars.contains_char "=" (String c s) =
    Ascii.eqb c "=" || Chars.contains_char "=" s.
Proof. cbn [Chars.contains_char]. now rewrite (Ascii.eqb_sym "=" c). Qed.

Lemma split_eq_cons c s :
  split_eq (String c s) =
    if Ascii.eqb c "=" then Some (EmptyString, s)
    else match split_eq s with
         | Some (path, value) => Some (String c path, value)
         | None => None
         end.
Proof. reflexivity. Qed.

Lemma split_eq_first p v :
  Chars.contains_char "=" p = false ->
  split_eq (String.append p (String "=" v)) = Some (p, v).
Proof.
  induction p as [|c p IH]; [reflexivity|].
  rewrite contains_eq_cons. intros C. apply orb_false_elim in C as [C1 C2].
  change (String.append (String c p) (String "=" v))
    with (String c (String.append p (String "=" v))).
  rewrite split_eq_cons, C1. now rewrite IH.
Qed.

Lemma split_eq_None s :
  split_eq s = None <-> Chars.contains_char "=" s = false.
Proof.
  induction s as [|c s IH]; [simpl; tauto|].
  rewrite contains_eq_cons, split_eq_cons.
  destruct (Ascii.eqb c "="); simpl; [split; discriminate|].
  destruct (split_eq s) as [[p v]|]; [|tauto].
  split; [discriminate|]. intros C. apply IH in C. discriminate.
Qed.

(** X7: an assignment is split at its first equals sign, so the value may
    hold equals signs of its own; the path and the value are stripped of
    the white space around them and handed to [set_value].  An assignment
    without an equals sign ends the edit with the graph untouched by it. *)
Theorem apply_sets_split (h : heap) (root : value) :
  (forall p v rest,
     Chars.contains_char "=" p = false ->
     apply_sets h root (String.append p (String "=" v) :: rest) =
       match set_value h root (Builtins.strip p) (Builtins.strip v) with
       | (h', Ok _) => apply_sets h' root rest
       | (h', Raise e) => (h', Some (SetRaised e))
       end) /\
  (forall s rest,
     Chars.contains_char "=" s = false ->
     apply_sets h root (s :: rest) = (h, Some (BadAssignment s)) /\
     cmd_edit h root (s :: rest) = None).
Proof.
  split.
  - intros p v rest C. simpl. now rewrite split_eq_first.
  - intros s rest C. unfold cmd_edit. simpl.
    apply split_eq_None in C. now rewrite C.
Qed.

Lemma apply_sets_split_witness :
  apply_sets save_graph (VRef 0) [" username = a=b "] =
    match set_value save_graph (VRef 0) "username" "a=b" with
    | (h', Ok _) => apply_sets h' (VRef 0) []
    | (h', Raise e) => (h', Some (SetRaised e))
    end /\
  cmd_edit save_graph (VRef 0) ["coins"; "coins=1"] = None.
Proof.
  split.
  - apply (proj1 (apply_sets_split save_graph (VRef 0)) " username " " a=b " []).
    reflexivity.
  - apply (proj2 (apply_sets_split save_graph (VRef 0)) "coins" ["coins=1"]).
    reflexivity.
Defined.

(** * Further properties of the path parser *)

Module PathFacts.
Import Chars PathToken.

Lemma parse_loop_step at_start rest tokens :
  parse_loop at_start rest tokens =
    match rest with
    | EmptyString => Ok tokens
    | _ =>
        match matches at_start rest with
        | None => Raise (InvalidPath rest)
        | Some (tok, rest') => parse_loop false rest' (tokens ++ [tok])
        end
    end.
Proof.
  destruct rest as [|c rest]; [apply parse_loop_equation_1|].
  rewrite parse_loop_equation_2. unfold Logic.inspect.
  assert (H : forall o (e : matches at_start (String c rest) = o),
    parse_loop_unfold_clause_2 at_start c rest (exist _ o e) tokens =
      match o with
      | None => Raise (InvalidPath (String c rest))
      | Some (tok, rest') => parse_loop false rest' (tokens ++ [tok])
      end).
  { intros [[tok r]|] e; reflexivity. }
  apply H.
Qed.

Lemma append_cons c (x y : string) :
  String.append (String c x) y = String c (String.append x y).
Proof. reflexivity. Qed.

Lemma append_nil_l (y : string) : String.append EmptyString y = y.
Proof. reflexivity. Qed.

Lemma append_assoc (x y z : string) :
  String.append (String.append x y) z = String.append x (String.append y z).
Proof.
  induction x as [|c x IH]; [reflexivity|].
  rewrite !append_cons. f_equal. exact IH.
Qed.

(** *** What [span] returns *)

Lemma span_spec p s w r :
  span p s = (w, r) ->
  s = String.append w r /\ all_chars p w = true /\
  match r with String c _ => p c = false | EmptyString => True end.
Proof.
  revert w r. induction s as [|c s IH]; intros w r; simpl.
  - intros [= <- <-]. auto.
  - destruct (p c) eqn:Pc.
    + destruct (span p s) as [w' r'] eqn:E. intros [= <- <-].
      destruct (IH _ _ eq_refl) as (-> & A & N).
      simpl. rewrite Pc. auto.
    + intros [= <- <-]. simpl. auto.
Qed.

(** A run of [p]-characters followed by something that is not one. *)
Lemma span_app p w r :
  all_chars p w = true ->
  match r with String c _ => p c = false | EmptyString => True end ->
  span p (String.append w r) = (w, r).
Proof.
  intros A N. induction w as [|c w IH]; simpl in *.
  - destruct r as [|c r]; [reflexivity|]. simpl. now rewrite N.
  - apply andb_prop in A as [Pc A]. rewrite Pc, IH by exact A. reflexivity.
Qed.

(** *** What a match consumes *)

(** The text of a token as it stands in the path: the field name with or
    without its dot, or bracketed digits whose value is the index. *)
Definition token_text (at_start : bool) (tok : token) (text : string) : Prop :=
  match tok with
  | TKey k =>
      is_identifier k = true /\
      (text = String "." k \/ (at_start = true /\ text = k))
  | TIdx i =>
      exists ds, text = String "[" (String.append ds "]") /\
                 ds <> EmptyString /\ all_chars is_digit ds = true /\
                 i = N.to_nat (digits_value 0 ds)
  end.

Lemma matches_spec at_start s tok r :
  matches at_start s = Some (tok, r) ->
  exists text, s = String.append text r /\ token_text at_start tok text.
Proof.
  unfold matches.
  destruct (alt_key s) as [[t1 r1]|] eqn:E1.
  { intros [= <- <-]. unfold alt_key in E1.
    destruct s as [|d [|c s]]; try discriminate.
    destruct (Ascii.eqb_spec d "."); cbn [andb] in E1; [subst d|discriminate].
    destruct (is_ident_start c) eqn:I; [|discriminate].
    destruct (span is_word (String c s)) as [w r'] eqn:Sp. injection E1 as <- <-.
    pose proof Sp as Sp'. apply span_spec in Sp' as (Eq & A & _).
    exists (String "." w). split; [simpl; now rewrite Eq|].
    split; [|now left].
    destruct w as [|c' w]; simpl in Sp.
    - assert (is_word c = true) as W by (unfold is_word; now rewrite I).
      rewrite W in Sp. destruct (span is_word s); discriminate.
    - simpl in Eq. injection Eq as <- _. simpl in *.
      apply andb_prop in A as [_ A]. now rewrite I, A. }
  destruct (alt_idx s) as [[t2 r2]|] eqn:E2.
  { intros [= <- <-]. unfold alt_idx in E2.
    destruct s as [|d s]; try discriminate.
    destruct (Ascii.eqb_spec d "["); [subst d|discriminate].
    destruct (span is_digit s) as [ds r'] eqn:Sp.
    destruct ds as [|d0 ds]; [discriminate|].
    destruct r' as [|b r']; [discriminate|].
    destruct (Ascii.eqb_spec b "]"); [subst b|discriminate].
    injection E2 as <- <-.
    apply span_spec in Sp as (Eq & A & _).
    exists (String "[" (String.append (String d0 ds) "]")). split.
    - rewrite Eq.
      change (String "[" (String.append (String d0 ds) "]"))
        with (String.append "[" (String.append (String d0 ds) "]")).
      now rewrite !append_assoc.
    - exists (String d0 ds). repeat split; [discriminate|exact A]. }
  unfold alt_root. destruct s as [|c s]; [discriminate|].
  destruct at_start; simpl; [|discriminate].
  destruct (is_ident_start c) eqn:I; [|discriminate].
  assert (is_word c = true) as W by (unfold is_word; now rewrite I).
  rewrite W. destruct (span is_word s) as [w r'] eqn:Sp. intros [= <- <-].
  apply span_spec in Sp as (Eq & A & _).
  exists (String c w). split; [simpl; now rewrite Eq|].
  split; [simpl; now rewrite I, A|right; auto].
Qed.

Lemma token_text_ok at_start tok text : token_text at_start tok text -> token_ok tok.
Proof. destruct tok; simpl; tauto. Qed.

Lemma token_text_nonempty at_start tok text :
  token_text at_start tok text -> text <> EmptyString.
Proof.
  destruct tok as [k|i]; simpl.
  - intros (I & [->|[_ ->]]); [discriminate|]. now destruct k.
  - intros (ds & -> & _). discriminate.
Qed.

(** *** The loop *)

Lemma parse_loop_sound n : forall at_start rest tokens toks,
  (String.length rest <= n)%nat ->
  Forall token_ok tokens ->
  parse_loop at_start rest tokens = Ok toks ->
  Forall token_ok toks /\ (length tokens <= length toks)%nat /\
  (rest <> EmptyString -> (length tokens < length toks)%nat).
Proof.
  induction n as [|n IH]; intros at_start rest tokens toks L F;
    rewrite parse_loop_step.
  - destruct rest; [|simpl in L; lia]. intros [= <-]. repeat split; auto.
    congruence.
  - destruct rest as [|c rest]; [intros [= <-]; repeat split; auto; congruence|].
    destruct (matches at_start (String c rest)) as [[tok r]|] eqn:M; [|discriminate].
    intros P. pose proof (matches_shorter _ _ _ _ M) as Sh.
    destruct (matches_spec _ _ _ _ M) as (text & _ & T).
    apply IH in P as (Ft & Lt & _).
    + rewrite length_app in Lt. simpl in Lt. repeat split; [exact Ft|lia|intros _; lia].
    + simpl in *. lia.
    + apply Forall_app. split; [exact F|]. repeat constructor.
      eapply token_text_ok, T.
Qed.

Lemma parse_loop_error n : forall at_start rest tokens e,
  (String.length rest <= n)%nat ->
  parse_loop at_start rest tokens = Raise e ->
  exists consumed r,
    e = InvalidPath r /\ rest = String.append consumed r /\ r <> EmptyString /\
    matches (at_start && String.eqb consumed EmptyString) r = None.
Proof.
  induction n as [|n IH]; intros at_start rest tokens e L;
    rewrite parse_loop_step.
  - destruct rest; [discriminate|simpl in L; lia].
  - destruct rest as [|c rest]; [discriminate|].
    destruct (matches at_start (String c rest)) as [[tok r]|] eqn:M.
    + intros P. pose proof (matches_shorter _ _ _ _ M) as Sh.
      destruct (matches_spec _ _ _ _ M) as (text & Eq & T).
      apply IH in P as (consumed & r' & -> & -> & Nr & Mr); [|simpl in *; lia].
      exists (String.append text consumed), r'.
      split; [reflexivity|]. split.
      { rewrite Eq. now rewrite append_assoc. }
      split; [exact Nr|].
      replace (String.eqb (String.append text consumed) EmptyString) with false.
      * rewrite andb_false_r. exact Mr.
      * apply token_text_nonempty in T. destruct text; [congruence|reflexivity].
    + intros [= <-]. exists EmptyString, (String c rest).
      repeat split; [discriminate|]. simpl. rewrite andb_true_r. exact M.
Qed.

End PathFacts.

(** X8: the steps [parse_path] returns are well formed: every field name is
    an identifier, a letter or underscore followed by letters, digits and
    underscores, so never empty.  A path that is not empty never parses to
    no step, and the empty path parses to none. *)
Theorem parse_path_sound (s : string) (toks : list token) :
  parse_path s = Ok toks ->
  Forall token_ok toks /\ (toks = [] <-> s = EmptyString).
Proof.
  unfold parse_path. intros P.
  destruct (PathFacts.parse_loop_sound (String.length s) true s [] toks
              (le_n _) (Forall_nil_2 _) P) as (F & _ & N).
  split; [exact F|]. split.
  - intros ->. destruct s; [reflexivity|].
    assert (String a s <> EmptyString) as X by discriminate.
    apply N in X. simpl in X. lia.
  - intros ->. rewrite PathFacts.parse_loop_step in P. now injection P.
Qed.

Lemma parse_path_sound_witness :
  Forall token_ok [TKey "paths"; TIdx 0; TKey "memberIDs"; TIdx 2].
Proof.
  refine (proj1 (parse_path_sound "paths[0].memberIDs[2]" _ _)).
  vm_compute. reflexivity.
Defined.

(** X9: when [parse_path] raises, the error carries a remainder of the
    path that is not empty, the path is the text consumed so far followed by
    that remainder, and no alternative of the pattern matches where the
    remainder begins. *)
Theorem parse_path_error (s : string) (e : error) :
  parse_path s = Raise e ->
  exists consumed r,
    e = InvalidPath r /\ s = String.append consumed r /\ r <> EmptyString /\
    PathToken.matches (String.eqb consumed EmptyString) r = None.
Proof.
  unfold parse_path. intros P.
  exact (PathFacts.parse_loop_error (String.length s) true s [] e (le_n _) P).
Qed.

Lemma parse_path_error_witness :
  exists consumed r,
    InvalidPath "[-1].y" = InvalidPath r /\
    "paths[0].x[-1].y" = String.append consumed r /\ r <> EmptyString /\
    PathToken.matches (String.eqb consumed EmptyString) r = None.
Proof.
  apply (parse_path_error "paths[0].x[-1].y" (InvalidPath "[-1].y")).
  vm_compute. reflexivity.
Defined.

Module RenderFacts.
Import Chars PathToken PathFacts.

(** *** Decimal notation *)

Lemma uint_digits d : all_chars is_digit (NilEmpty.string_of_uint d) = true.
Proof. induction d; simpl; auto. Qed.

Lemma uint_value d : forall acc,
  N.to_nat (digits_value acc (NilEmpty.string_of_uint d)) =
  Nat.of_uint_acc d (N.to_nat acc).
Proof.
  induction d; intros acc; simpl; [reflexivity|..];
    rewrite IHd, Nat.tail_mul_spec; f_equal;
    unfold digit_value; simpl; lia.
Qed.

Lemma to_uint_norm (i : nat) : Decimal.unorm (Nat.to_uint i) = Nat.to_uint i.
Proof.
  rewrite <- (DecimalNat.Unsigned.of_to i) at 2.
  now rewrite DecimalNat.Unsigned.to_of.
Qed.

Lemma decimal_digits (i : nat) : all_chars is_digit (decimal i) = true.
Proof. apply uint_digits. Qed.

Lemma decimal_value (i : nat) : N.to_nat (digits_value 0 (decimal i)) = i.
Proof.
  unfold decimal. rewrite uint_value. apply DecimalNat.Unsigned.of_to.
Qed.

Lemma decimal_nonempty (i : nat) : decimal i <> EmptyString.
Proof.
  unfold decimal. pose proof (DecimalFacts.unorm_nonnil (Nat.to_uint i)) as N.
  rewrite to_uint_norm in N. now destruct (Nat.to_uint i).
Qed.

(** *** One rendered step, and what may follow it *)

(** The text after a step: nothing, or the dot or bracket of the next. *)
Definition follows (r : string) : Prop :=
  match r with
  | String c _ => is_word c = false
  | EmptyString => True
  end.

Lemma follows_render toks : follows (render toks).
Proof. destruct toks as [|[k|i] toks]; simpl; auto. Qed.

Lemma follows_digit r : follows r ->
  match r with String c _ => is_digit c = false | EmptyString => True end.
Proof.
  destruct r as [|c r]; [auto|]. unfold follows, is_word.
  intros H. now apply orb_false_elim in H as [_ H].
Qed.

Lemma matches_dotted at_start k r :
  is_identifier k = true -> follows r ->
  matches at_start (String "." (String.append k r)) = Some (TKey k, r).
Proof.
  intros I F. unfold matches, alt_key.
  destruct k as [|c k]; [discriminate|]. simpl in I.
  apply andb_prop in I as [I A]. rewrite append_cons.
  cbn [Ascii.eqb Bool.eqb andb]. rewrite I.
  rewrite <- append_cons, span_app; [reflexivity| |exact F].
  simpl. unfold is_word at 1. now rewrite I, A.
Qed.

Lemma matches_bare k r :
  is_identifier k = true -> follows r ->
  matches true (String.append k r) = Some (TKey k, r).
Proof.
  intros I F. unfold matches.
  destruct k as [|c k]; [discriminate|]. simpl in I.
  apply andb_prop in I as [I A]. rewrite append_cons.
  assert (Nd : Ascii.eqb c "." = false).
  { destruct (Ascii.eqb_spec c "."); [subst c; discriminate I|reflexivity]. }
  assert (Nb : Ascii.eqb c "[" = false).
  { destruct (Ascii.eqb_spec c "["); [subst c; discriminate I|reflexivity]. }
  replace (alt_key (String c (String.append k r))) with (@None (token * string)).
  2:{ unfold alt_key. destruct (String.append k r); [reflexivity|].
      now rewrite Nd. }
  replace (alt_idx (String c (String.append k r))) with (@None (token * string)).
  2:{ unfold alt_idx. now rewrite Nb. }
  unfold alt_root. rewrite I. cbn [andb].
  rewrite <- append_cons, span_app; [reflexivity| |exact F].
  simpl. unfold is_word at 1. now rewrite I, A.
Qed.

Lemma matches_bracket at_start i r :
  matches at_start (String "[" (String.append (String.append (decimal i) "]") r)) =
    Some (TIdx i, r).
Proof.
  unfold matches.
  replace (alt_key (String "[" _)) with (@None (token * string))
    by (unfold alt_key; now destruct (String.append _ r)).
  unfold alt_idx. cbn [Ascii.eqb Bool.eqb andb].
  rewrite append_assoc, span_app; [| apply decimal_digits | reflexivity].
  pose proof (decimal_nonempty i) as N. pose proof (decimal_value i) as V.
  destruct (decimal i) as [|d ds]; [congruence|].
  rewrite append_cons, append_nil_l. cbn [Ascii.eqb Bool.eqb andb].
  now rewrite V.
Qed.

Lemma parse_loop_render toks : forall at_start acc,
  Forall token_ok toks ->
  parse_loop at_start (render toks) acc = Ok (acc ++ toks).
Proof.
  induction toks as [|tk toks IH]; intros at_start acc F;
    rewrite parse_loop_step.
  - simpl. now rewrite app_nil_r.
  - apply Forall_cons in F as [Ok1 F].
    cbn [render]. destruct tk as [k|i]; cbn [render_token].
    + rewrite append_cons, (matches_dotted at_start k _ Ok1 (follows_render _)).
      rewrite IH by exact F. now rewrite <- app_assoc.
    + rewrite append_cons, matches_bracket.
      rewrite IH by exact F. now rewrite <- app_assoc.
Qed.

End RenderFacts.

(** X10: every sequence of well-formed steps can be written down and read
    back: written with a dot before each field name and brackets around
    each index in decimal, or in the usual way with the first field bare,
    it parses to exactly those steps. *)
Theorem parse_path_render (toks : list token) :
  Forall token_ok toks ->
  parse_path (render toks) = Ok toks /\
  parse_path (render_path toks) = Ok toks.
Proof.
  intros F. split.
  - apply (RenderFacts.parse_loop_render toks true [] F).
  - destruct toks as [|[k|i] toks];
      try apply (RenderFacts.parse_loop_render _ true [] F).
    apply Forall_cons in F as [Ok1 F]. unfold parse_path, render_path.
    rewrite PathFacts.parse_loop_step.
    rewrite (RenderFacts.matches_bare k _ Ok1 (RenderFacts.follows_render _)).
    destruct k as [|c k]; [discriminate|]. rewrite PathFacts.append_cons.
    apply (RenderFacts.parse_loop_render toks false [TKey (String c k)] F).
Qed.

Lemma parse_path_render_witness :
  parse_path ".paths[10].memberIDs[2]" =
    Ok [TKey "paths"; TIdx 10; TKey "memberIDs"; TIdx 2] /\
  parse_path "paths[10].memberIDs[2]" =
    Ok [TKey "paths"; TIdx 10; TKey "memberIDs"; TIdx 2].
Proof.
  apply (parse_path_render [TKey "paths"; TIdx 10; TKey "memberIDs"; TIdx 2]).
  repeat constructor.
Defined.

(** * Further properties of the literal coercion *)

Module IntegerFacts.
Import Chars Builtins.

Lemma all_chars_impl (p q : ascii -> bool) s :
  (forall c, p c = true -> q c = true) ->
  all_chars p s = true -> all_chars q s = true.
Proof.
  intros I. induction s as [|c s IH]; simpl; [reflexivity|].
  intros A. apply andb_prop in A as [Pc A]. now rewrite (I c Pc), IH.
Qed.

Lemma digit_not_blank c : is_digit c = true -> is_blank c = false.
Proof.
  unfold is_digit, is_blank, between. intros D.
  apply andb_prop in D as [D1 D2]. apply N.leb_le in D1, D2.
  apply orb_false_intro.
  - apply andb_false_iff. right. apply N.leb_gt. lia.
  - destruct (Ascii.eqb_spec c " ") as [->|]; [|reflexivity].
    exfalso. vm_compute in D1. now apply D1.
Qed.

Lemma digit_lower c : is_digit c = true -> lower_char c = c.
Proof.
  unfold lower_char, is_digit, is_upper, between. intros D.
  apply andb_prop in D as [_ D]. apply N.leb_le in D.
  replace ((65 <=? code c)%N) with false; [reflexivity|].
  symmetry. apply N.leb_gt. lia.
Qed.

Lemma digit_not c d : is_digit c = true -> is_digit d = false -> Ascii.eqb d c = false.
Proof. intros C D. destruct (Ascii.eqb_spec d c); [congruence|reflexivity]. Qed.

Lemma digits_lower ds : all_chars is_digit ds = true -> lower ds = ds.
Proof.
  induction ds as [|c ds IH]; simpl; [reflexivity|].
  intros A. apply andb_prop in A as [D A]. now rewrite digit_lower, IH.
Qed.

Lemma digits_without c ds :
  is_digit c = false -> all_chars is_digit ds = true -> contains_char c ds = false.
Proof.
  intros C. induction ds as [|d ds IH]; simpl; [reflexivity|].
  intros A. apply andb_prop in A as [D A].
  rewrite (digit_not d c D C). now apply IH.
Qed.

Lemma drop_blanks_none s :
  all_chars (fun c => negb (is_blank c)) s = true -> drop_blanks s = s.
Proof.
  induction s as [|c s IH]; simpl; [reflexivity|].
  intros A. apply andb_prop in A as [C A]. rewrite IH by exact A.
  destruct s; [|reflexivity]. now apply negb_true_iff in C as ->.
Qed.

Lemma unblank_none s :
  all_chars (fun c => negb (is_blank c)) s = true -> unblank s = s.
Proof.
  intros A. unfold unblank.
  replace (skip_blanks s) with s; [now apply drop_blanks_none|].
  destruct s as [|c s]; [reflexivity|]. simpl in *.
  apply andb_prop in A as [C _]. now apply negb_true_iff in C as ->.
Qed.

Lemma digitpart_tail_digits ds :
  all_chars is_digit ds = true -> digitpart_tail ds = (ds, EmptyString).
Proof.
  induction ds as [|c ds IH]; simpl; [reflexivity|].
  intros A. apply andb_prop in A as [D A]. now rewrite D, IH.
Qed.

Lemma digitpart_digits ds :
  ds <> EmptyString -> all_chars is_digit ds = true ->
  digitpart ds = Some (ds, EmptyString).
Proof.
  destruct ds as [|c ds]; [congruence|]. simpl. intros _ A.
  apply andb_prop in A as [D A]. now rewrite D, digitpart_tail_digits.
Qed.




End IntegerFacts.



(** * Further properties of the type resolver *)

Module VendorFacts.
Import KatRoundtrip.

Lemma prefix_cons a p b s :
  String.prefix (String a p) (String b s) =
    if Ascii.eqb a b then String.prefix p s else false.
Proof.
  simpl. destruct (ascii_dec a b) as [->|N].
  - now rewrite Ascii.eqb_refl.
  - now apply Ascii.eqb_neq in N as ->.
Qed.

Lemma prefix_lower p s :
  String.prefix p s = true -> String.prefix (Chars.lower p) (Chars.lower s) = true.
Proof.
  revert s. induction p as [|a p IH]; intros s; [now destruct s|].
  destruct s as [|b s]; [discriminate|].
  rewrite prefix_cons. destruct (Ascii.eqb_spec a b) as [->|]; [|discriminate].
  intros H. cbn [Chars.lower]. rewrite prefix_cons, Ascii.eqb_refl. now apply IH.
Qed.

Lemma prefix_trans p q s :
  String.prefix p q = true -> String.prefix q s = true -> String.prefix p s = true.
Proof.
  revert q s. induction p as [|a p IH]; intros q s; [now destruct s|].
  destruct q as [|b q]; [discriminate|].
  destruct s as [|c s]; [intros _; discriminate|].
  rewrite !prefix_cons.
  destruct (Ascii.eqb_spec a b) as [->|]; [|discriminate].
  destruct (Ascii.eqb_spec b c) as [->|]; [|discriminate].
  apply IH.
Qed.

Lemma occurs_prefix p s : String.prefix p s = true -> occurs p s = true.
Proof. intros H. destruct s; cbn [occurs]; now rewrite H. Qed.

(** A name that starts with the reserved prefix contains the vendor word. *)
Lemma prefix_has_vendor s :
  StartsWith prefix s = true -> ContainsIgnoreCase vendor s = true.
Proof.
  unfold StartsWith, ContainsIgnoreCase. intros H.
  apply occurs_prefix.
  apply (prefix_trans _ (Chars.lower prefix)); [reflexivity|].
  now apply prefix_lower.
Qed.

Lemma no_vendor_no_prefix s :
  ContainsIgnoreCase vendor s = false -> StartsWith prefix s = false.
Proof.
  intros H. destruct (StartsWith prefix s) eqn:E; [|reflexivity].
  apply prefix_has_vendor in E. congruence.
Qed.

End VendorFacts.

(** X12: the redirection is confined to the vendor's names.  A type whose
    name and assembly name do not contain the vendor word, in any case, is
    never bound to the capture node: it gets the native type
    [Type.GetType] finds, or [object].  A type whose name contains the
    vendor word is never bound to [object]: it gets the capture node, or
    the native type when one is found and the reserved prefix is absent. *)
Theorem BindToType_vendor {T : Type} (GetType : string -> option T)
    (assemblyName typeName : string) :
  (KatRoundtrip.ContainsIgnoreCase KatRoundtrip.vendor typeName = false ->
   KatRoundtrip.ContainsIgnoreCase KatRoundtrip.vendor assemblyName = false ->
   KatRoundtrip.BindToType GetType assemblyName typeName =
     match GetType (KatRoundtrip.full_name assemblyName typeName) with
     | Some t => KatRoundtrip.BindNative t
     | None => KatRoundtrip.BindObject
     end) /\
  (KatRoundtrip.ContainsIgnoreCase KatRoundtrip.vendor typeName = true ->
   KatRoundtrip.BindToType GetType assemblyName typeName <> KatRoundtrip.BindObject).
Proof.
  split.
  - intros Ht Ha.
    rewrite (Binder.bind_no_prefix GetType _ _
               (VendorFacts.no_vendor_no_prefix _ Ht)
               (VendorFacts.no_vendor_no_prefix _ Ha)).
    now rewrite Ht.
  - intros Ht.
    destruct (KatRoundtrip.StartsWith KatRoundtrip.prefix typeName) eqn:Pt.
    { now rewrite (Binder.bind_prefix_type GetType _ _ Pt). }
    destruct (KatRoundtrip.StartsWith KatRoundtrip.prefix assemblyName) eqn:Pa.
    { now rewrite (Binder.bind_prefix_assembly GetType _ _ Pa). }
    rewrite (Binder.bind_no_prefix GetType _ _ Pt Pa), Ht.
    now destruct (GetType _).
Qed.

Lemma BindToType_vendor_witness :
  KatRoundtrip.BindToType (fun _ => @None unit) "mscorlib"
    "System.Collections.Generic.List`1" = KatRoundtrip.BindObject /\
  KatRoundtrip.BindToType (fun _ => @None unit) "Assembly-CSharp"
    "Game.EVERBYTE.Util" <> KatRoundtrip.BindObject.
Proof.
  split.
  - apply (proj1 (BindToType_vendor (fun _ => @None unit) "mscorlib"
                    "System.Collections.Generic.List`1")); reflexivity.
  - apply (proj2 (BindToType_vendor (fun _ => @None unit) "Assembly-CSharp"
                    "Game.EVERBYTE.Util")). reflexivity.
Defined.

(** * Further properties of the projection *)


(** X13: the projection keeps count, order and scalars.  A list or an
    array, whatever the type of its elements, projects to an array of the
    same length; a dictionary with distinct keys, whatever its types, to an
    object with the same keys in the same order; a node with distinct
    field names, none of them a reserved key, to an object whose keys are
    the two reserved keys followed by the field names in their order.  In
    each, an element or entry that holds a primitive appears at its place
    with that primitive. *)
Theorem to_jsonable_keeps_order (GetHashCode : addr -> Z) (h : heap) (a : addr) :
  (forall et xs,
     h !! a = Some (OList et xs) ->
     exists js,
       to_jsonable GetHashCode h (VRef a) = Some (JArr js) /\
       length js = length xs /\
       forall (i : nat) x j, xs !! i = Some x -> json_of_scalar x = Some j ->
         js !! i = Some j) /\
  (forall kt vt es,
     h !! a = Some (ODictionary kt vt es) -> NoDup (Assoc.keys es) ->
     exists d,
       to_jsonable GetHashCode h (VRef a) = Some (JObj d) /\
       Assoc.keys d = Assoc.keys es /\
       forall k v j, (k, v) ∈ es -> json_of_scalar v = Some j ->
         Assoc.get k d = Some j) /\
  (forall n,
     h !! a = Some (ONode n) ->
     NoDup (["$original_dotnet_type"; "$original_assembly"] ++ Assoc.keys (Data n)) ->
     exists d,
       to_jsonable GetHashCode h (VRef a) = Some (JObj d) /\
       Assoc.keys d =
         ["$original_dotnet_type"; "$original_assembly"] ++ Assoc.keys (Data n) /\
       forall k v j, (k, v) ∈ Data n -> json_of_scalar v = Some j ->
         Assoc.get k d = Some j).
Proof.
  pose proof (conv_growing GetHashCode h) as G.
  split; [|split].
  - intros et xs Ha.
    destruct (to_jsonable_root GetHashCode h a _ Ha) as (f & j & s & Lf & E & Hj).
    cbn [conv_object] in E.
    destruct (conv_items _ _ xs) as [[js s']|] eqn:M; [|discriminate].
    injection E as <- <-. exists js. split; [exact Hj|].
    split; [eapply conv_items_length, M|].
    intros i x j Hi Sj.
    destruct (conv_items_lookup _ _ _ _ _ _ _ (G _) M Hi)
      as (s1 & s2 & j1 & _ & R & L).
    rewrite (conv_scalar GetHashCode h f s1 x j Sj) in R. congruence.
  - intros kt vt es Ha ND.
    destruct (to_jsonable_root GetHashCode h a _ Ha) as (f & j & s & Lf & E & Hj).
    cbn [conv_object] in E.
    destruct (conv_members _ _ es []) as [[d s']|] eqn:M; [|discriminate].
    injection E as <- <-. exists d. split; [exact Hj|].
    split; [apply (conv_members_order _ _ _ _ _ _ M); exact ND|].
    intros k v j I Sj.
    destruct (conv_members_field _ (G _) _ _ _ _ _ _ _ M ND I)
      as (s1 & s2 & j1 & _ & R & Gk).
    rewrite (conv_scalar GetHashCode h f s1 v j Sj) in R. congruence.
  - intros n Ha ND.
    destruct (to_jsonable_root GetHashCode h a _ Ha) as (f & j & s & Lf & E & Hj).
    cbn [conv_object] in E.
    destruct (conv_members _ _ (Data n) []) as [[py s']|] eqn:M; [|discriminate].
    injection E as <- <-.
    assert (NDn : NoDup (Assoc.keys (Data n))) by (now apply NoDup_app in ND).
    pose proof (conv_members_order _ _ _ _ _ _ M NDn) as Kp.
    rewrite AssocFacts.keys_nil, app_nil_l in Kp.
    eexists. split; [exact Hj|].
    assert (NDa : NoDup (Assoc.keys
              ([("$original_dotnet_type", JStr (FullTypeName n));
                ("$original_assembly", JStr (AssemblyName n))] ++ py))).
    { rewrite AssocFacts.keys_app, Kp. exact ND. }
    assert (U : Assoc.update
              [("$original_dotnet_type", JStr (FullTypeName n));
               ("$original_assembly", JStr (AssemblyName n))] py =
            [("$original_dotnet_type", JStr (FullTypeName n));
             ("$original_assembly", JStr (AssemblyName n))] ++ py).
    { now apply AssocFacts.fold_set_NoDup. }
    rewrite U. split.
    + rewrite AssocFacts.keys_app, Kp. reflexivity.
    + intros k v j I Sj.
      destruct (conv_members_field _ (G _) _ _ _ _ _ _ _ M NDn I)
        as (s1 & s2 & j1 & _ & R & Gk).
      rewrite (conv_scalar GetHashCode h f s1 v j Sj) in R.
      injection R as <- _.
      apply AssocFacts.elem_of_get; [exact NDa|].
      apply elem_of_app. right. now apply AssocFacts.get_elem_of.
Qed.

Lemma to_jsonable_keeps_order_witness :
  exists d,
    to_jsonable Z.of_nat save_graph (VRef 0) = Some (JObj d) /\
    Assoc.keys d =
      ["$original_dotnet_type"; "$original_assembly"; "coins"; "paths"; "username"] /\
    forall k v j,
      (k, v) ∈ [("coins", VInt32 5); ("paths", VRef 1); ("username", VString "Alice")] ->
      json_of_scalar v = Some j -> Assoc.get k d = Some j.
Proof.
  apply (proj2 (proj2 (to_jsonable_keeps_order Z.of_nat save_graph 0%nat))
           (mkNode "Everbyte.TextGame.Saving.PersData" "Assembly-CSharp"
              [("coins", VInt32 5); ("paths", VRef 1); ("username", VString "Alice")])).
  - reflexivity.
  - apply (bool_decide_unpack _). vm_compute. exact I.
Defined.

(** X14: an edit followed by a dump.  When a path ends with a field name
    on a node and the literal is coerced to a primitive, the assignment
    returns and the projection of that node in the edited graph shows the
    primitive under the field's name. *)
Theorem set_value_then_to_jsonable (GetHashCode : addr -> Z) (h : heap)
    (root : value) (path_expr value_literal : string) (pre : list token)
    (k : string) (a : addr) (n : Node) (v : net) (j : json) :
  parse_path path_expr = Ok (pre ++ [TKey k]) ->
  resolve h root pre = Some (VRef a) ->
  h !! a = Some (ONode n) ->
  NoDup (Assoc.keys (Data n)) ->
  _to_net (parse_value_literal value_literal) = Ok v ->
  json_of_scalar (box h v).2 = Some j ->
  exists h' d,
    set_value h root path_expr value_literal = (h', Ok tt) /\
    to_jsonable GetHashCode h' (VRef a) = Some (JObj d) /\
    Assoc.get k d = Some j.
Proof.
  intros P R Ha ND V Sj.
  rewrite (set_value_node_field h _ _ _ _ _ _ _ _ P R Ha V).
  set (slot := (box h v).2) in *.
  set (n' := mkNode (FullTypeName n) (AssemblyName n) (Assoc.set k slot (Data n))).
  set (h' := <[a := ONode n']> (box h v).1).
  assert (Ha' : h' !! a = Some (ONode n')) by exact (stored_lookup h v a _ _ Ha).
  assert (ND' : NoDup (Assoc.keys (Data n')))
    by now apply AssocFacts.NoDup_keys_set.
  destruct (to_jsonable_total GetHashCode h' (VRef a)) as [j0 Hj].
  exists h'. unfold to_jsonable in *.
  destruct (conv GetHashCode h' (S (length h')) ∅ (VRef a)) as [[j' s]|] eqn:E;
    [|discriminate].
  injection Hj as ->.
  destruct (conv_node_members _ _ _ _ _ _ _ _ Ha' ND' (not_elem_of_empty _) E)
    as (d & -> & _ & _ & Fd & _).
  exists d. split; [reflexivity|]. split; [reflexivity|].
  destruct (Fd k slot) as (s1 & s2 & jv & _ & Cv & Gk).
  { apply (AssocFacts.get_elem_of k slot). apply AssocFacts.get_set_eq. }
  assert (L : (0 < length h')%nat) by (apply lookup_lt_Some in Ha'; lia).
  destruct (length h') as [|f]; [lia|].
  rewrite (conv_scalar GetHashCode h' f s1 slot j Sj) in Cv. congruence.
Qed.

Lemma set_value_then_to_jsonable_witness :
  exists h' d,
    set_value save_graph (VRef 0) "paths[0].x" "true" = (h', Ok tt) /\
    to_jsonable Z.of_nat h' (VRef 2) = Some (JObj d) /\
    Assoc.get "x" d = Some (JBool true).
Proof.
  apply (set_value_then_to_jsonable Z.of_nat save_graph (VRef 0) "paths[0].x" "true"
           [TKey "paths"; TIdx 0] "x" 2%nat
           (mkNode "Everbyte.TextGame.Saving.Path" "Assembly-CSharp" [("x", VInt32 0)])
           (NetBoolean true)).
  - vm_compute. reflexivity.
  - reflexivity.
  - reflexivity.
  - apply (bool_decide_unpack _). vm_compute. exact I.
  - reflexivity.
  - reflexivity.
Defined.

(** ** An aborted edit *)

Lemma set_value_raise (h : heap) (root : value)
    (path_expr value_literal : string) (h' : heap) (e : error) :
  set_value h root path_expr value_literal = (h', Raise e) -> h' = h.
Proof.
  intros E.
  destruct (set_value_inv h _ _ _ _ _ E)
    as [(-> & _)
       |(pre & tk & post & v & a & o & _ & _ & _ & _ & _ & _ & [=] & _)].
  reflexivity.
Qed.

(** X15: an edit that is aborted.  When the loop of [cmd_edit] ends with an
    exception, nothing is handed to [serialize]; the assignments split into
    those done, the offending one and those never looked at; the graph is
    exactly the one the assignments done have left, so the offending
    assignment has changed nothing; and the exception is the complaint about
    a missing equals sign when the offending assignment has none, the
    exception of [set_value] on its stripped halves otherwise. *)
Theorem apply_sets_aborted (h : heap) (root : value) (sets : list string)
    (h' : heap) (e : edit_error) :
  apply_sets h root sets = (h', Some e) ->
  cmd_edit h root sets = None /\
  exists done bad rest,
    sets = done ++ bad :: rest /\
    apply_sets h root done = (h', None) /\
    match e with
    | BadAssignment s => s = bad /\ split_eq bad = None
    | SetRaised er =>
        exists path value,
          split_eq bad = Some (path, value) /\
          set_value h' root (Builtins.strip path) (Builtins.strip value)
            = (h', Raise er)
    end.
Proof.
  intros E. split; [unfold cmd_edit; now rewrite E|].
  revert h E. induction sets as [|s sets IH]; intros h E; simpl in E;
    [discriminate|].
  destruct (split_eq s) as [[path value]|] eqn:S.
  - destruct (set_value h root (Builtins.strip path) (Builtins.strip value))
      as [h1 [u|er]] eqn:V.
    + destruct (IH h1 E) as (done & bad & rest & -> & D & M).
      exists (s :: done), bad, rest. split; [reflexivity|]. split; [|exact M].
      simpl. rewrite S, V. exact D.
    + injection E as <- <-. pose proof (set_value_raise _ _ _ _ _ _ V) as ->.
      exists [], s, sets. split; [reflexivity|]. split; [reflexivity|].
      exists path, value. split; [exact S|exact V].
  - injection E as <- <-. exists [], s, sets.
    split; [reflexivity|]. split; [reflexivity|]. split; [reflexivity|exact S].
Qed.

Lemma apply_sets_aborted_witness :
  cmd_edit save_graph (VRef 0) ["coins=7"; "paths[9]=1"; "coins=0"] = None /\
  exists done bad rest,
    ["coins=7"; "paths[9]=1"; "coins=0"] = done ++ bad :: rest /\
    apply_sets save_graph (VRef 0) done
      = ((apply_sets save_graph (VRef 0) ["coins=7"]).1, None) /\
    exists path value,
      split_eq bad = Some (path, value) /\
      set_value (apply_sets save_graph (VRef 0) ["coins=7"]).1 (VRef 0)
        (Builtins.strip path) (Builtins.strip value)
        = ((apply_sets save_graph (VRef 0) ["coins=7"]).1,
           Raise (CannotAssignIndex 9)).
Proof.
  apply (apply_sets_aborted save_graph (VRef 0)
           ["coins=7"; "paths[9]=1"; "coins=0"]
           (apply_sets save_graph (VRef 0) ["coins=7"]).1
           (SetRaised (CannotAssignIndex 9))).
  vm_compute. reflexivity.
Defined.

(** ** Hash codes that collide *)

Section Collision.
Variable GetHashCode : addr -> Z.
Variable h : heap.

(** In a sequence, an element with the hash code of an earlier element
    finds that hash code in the visited set. *)
Lemma conv_items_later fuel seen xs js seen' (i k : nat) a b :
  (i < k)%nat ->
  xs !! i = Some (VRef a) -> xs !! k = Some (VRef b) ->
  GetHashCode a = GetHashCode b ->
  conv_items (conv GetHashCode h (S fuel)) seen xs = Some (js, seen') ->
  js !! k = Some JNull.
Proof.
  revert seen js i k.
  induction xs as [|y xs IH]; intros seen js i k Lt Hi Hk Eq; [discriminate Hi|].
  cbn [conv_items].
  destruct (conv GetHashCode h (S fuel) seen y) as [[j s1]|] eqn:E; [|discriminate].
  destruct (conv_items _ s1 xs) as [[js' s2]|] eqn:E'; [|discriminate].
  intros [= <- <-].
  destruct k as [|k]; [lia|]. cbn in Hk |- *.
  destruct i as [|i]; cbn in Hi.
  - injection Hi as ->.
    pose proof (conv_marks _ _ _ _ _ _ _ E) as M.
    destruct (conv_items_lookup _ _ _ _ _ _ _ (conv_growing _ _ _) E' Hk)
      as (t1 & t2 & j' & Sub & R & L).
    rewrite conv_visited in R by (rewrite <- Eq; apply Sub, M).
    injection R as <- _. exact L.
  - apply (IH s1 js' i k); [lia|assumption..].
Qed.

End Collision.

(** X16: the visited test goes by hash code, not by identity.  In a
    sequence, an element whose hash code is that of an earlier element is
    rendered [null], whether or not it is the same object: an object that
    was never entered is dropped from the dump when its hash code
    collides. *)
Theorem to_jsonable_hash_collision (GetHashCode : addr -> Z) (h : heap)
    (r : addr) (et : ty) (xs : list value) (i k : nat) (a b : addr) :
  h !! r = Some (OList et xs) ->
  (i < k)%nat ->
  xs !! i = Some (VRef a) -> xs !! k = Some (VRef b) ->
  GetHashCode a = GetHashCode b ->
  exists js, to_jsonable GetHashCode h (VRef r) = Some (JArr js) /\
             js !! k = Some JNull.
Proof.
  intros Hr Lt Hi Hk Eq.
  destruct (to_jsonable_root GetHashCode h r _ Hr) as (f & j & s & _ & C & ->).
  cbn [conv_object] in C.
  destruct (conv_items _ _ xs) as [[js s']|] eqn:E; [|discriminate].
  injection C as <- <-. exists js. split; [reflexivity|].
  exact (conv_items_later _ _ _ _ _ _ _ _ _ _ _ Lt Hi Hk Eq E).
Qed.

Lemma to_jsonable_hash_collision_witness :
  exists js,
    to_jsonable (fun a => Z.of_nat (Nat.modulo a 2))
      [OList TObject [VRef 1; VRef 3]; ODictionary KString TObject [("x", VInt32 1)];
       OList TObject []; ODictionary KString TObject [("y", VInt32 2)]] (VRef 0)
      = Some (JArr js) /\
    js !! 1%nat = Some JNull.
Proof.
  apply (to_jsonable_hash_collision (fun a => Z.of_nat (Nat.modulo a 2))
           [OList TObject [VRef 1; VRef 3]; ODictionary KString TObject [("x", VInt32 1)];
            OList TObject []; ODictionary KString TObject [("y", VInt32 2)]]
           0%nat TObject [VRef 1; VRef 3] 0%nat 1%nat 1%nat 3%nat);
    [reflexivity|lia|reflexivity|reflexivity|reflexivity].
Defined.

(** ** Signed literals *)

(** X17: the test for a leading zero looks at the first character only, so
    a sign defeats it: a run of digits after a minus or a plus sign is
    coerced to the integer it denotes, whatever zeros it begins with. *)
Theorem parse_value_literal_signed (c : ascii) (ds : string) :
  c = "-"%char \/ c = "+"%char ->
  ds <> EmptyString ->
  all_chars Chars.is_digit ds = true ->
  parse_value_literal (String c ds) =
    PyInt (if Ascii.eqb c "-" then - Z.of_N (Chars.digits_value 0 ds)
           else Z.of_N (Chars.digits_value 0 ds)).
Proof.
  intros C Ne D.
  assert (NS : all_chars (fun c => negb (Chars.is_blank c)) ds = true).
  { eapply IntegerFacts.all_chars_impl; [|exact D]. intros d Dd.
    now rewrite IntegerFacts.digit_not_blank. }
  assert (Pt : Chars.contains_char "." ds = false)
    by (apply IntegerFacts.digits_without; [reflexivity|exact D]).
  assert (Pe : Chars.contains_char "e" ds = false)
    by (apply IntegerFacts.digits_without; [reflexivity|exact D]).
  assert (Lo : Chars.lower ds = ds) by now apply IntegerFacts.digits_lower.
  assert (Dp : Builtins.digitpart ds = Some (ds, EmptyString))
    by now apply IntegerFacts.digitpart_digits.
  assert (Q : quoted (String c ds) = false).
  { destruct ds as [|d ds']; [congruence|]. unfold quoted.
    destruct (Chars.last_char (String d ds')); [|reflexivity].
    destruct C as [-> | ->]; reflexivity. }
  assert (Z0 : leading_zero (String c ds) = false).
  { destruct ds as [|d ds']; [congruence|].
    destruct C as [-> | ->]; reflexivity. }
  assert (St : Builtins.unblank (String c ds) = String c ds).
  { apply IntegerFacts.unblank_none. simpl. rewrite NS.
    destruct C as [-> | ->]; reflexivity. }
  unfold parse_value_literal. rewrite Q, Z0.
  assert (Ls : Chars.lower (String c ds) = String c ds).
  { simpl. rewrite Lo. destruct C as [-> | ->]; reflexivity. }
  rewrite Ls.
  assert (Ct : Chars.contains_char "." (String c ds) = false)
    by (simpl; rewrite Pt; destruct C as [-> | ->]; reflexivity).
  assert (Ce : Chars.contains_char "e" (String c ds) = false)
    by (simpl; rewrite Pe; destruct C as [-> | ->]; reflexivity).
  rewrite Ct, Ce. unfold Builtins.py_int. rewrite St.
  destruct C as [-> | ->]; cbn [Builtins.sign Ascii.eqb Bool.eqb andb orb String.eqb];
    rewrite Dp; reflexivity.
Qed.

Lemma parse_value_literal_signed_witness :
  parse_value_literal "-007" = PyInt (-7).
Proof.
  apply (parse_value_literal_signed "-" "007");
    [left; reflexivity|discriminate|reflexivity].
Defined.

(** * The slot an assignment writes *)

Section SlotFacts.
Local Open Scope nat_scope.

Lemma index_key_decimal kt i s : index_key kt i = Some s -> s = decimal i.
Proof.
  unfold index_key. destruct kt; try discriminate;
    match goal with |- context [if ?b then _ else _] => destruct b end;
    congruence.
Qed.

Lemma decimal_inj i i' : decimal i = decimal i' -> i = i'.
Proof.
  intros E. rewrite <- (RenderFacts.decimal_value i), <- (RenderFacts.decimal_value i').
  now rewrite E.
Qed.

(** No identifier is the decimal notation of a number. *)
Lemma identifier_not_decimal k i : is_identifier k = true -> k <> decimal i.
Proof.
  intros Ik ->. pose proof (RenderFacts.decimal_digits i) as D.
  destruct (decimal i) as [|c r]; [discriminate Ik|].
  simpl in Ik, D. apply andb_prop in Ik as [S _]. apply andb_prop in D as [D _].
  unfold Chars.is_ident_start, Chars.is_upper, Chars.is_lower, Chars.is_digit,
    Chars.between in *.
  apply andb_prop in D as [D1 D2]. apply N.leb_le in D1, D2.
  apply orb_prop in S as [S|S]; [apply orb_prop in S as [S|S]|].
  - apply andb_prop in S as [S _]. apply N.leb_le in S. lia.
  - apply andb_prop in S as [S _]. apply N.leb_le in S. lia.
  - apply Ascii.eqb_eq in S. subst c. vm_compute in D2. now apply D2.
Qed.

(** After the store, every other step a path can denote reads from the
    container what it read before. *)
Lemma step_frame h v (a : addr) o tk tk' :
  h !! a = Some o -> takes h (VRef a) tk v = true ->
  token_ok tk' -> tk' <> tk ->
  step (<[a := write o (slot_name o tk) (box h v).2]> (box h v).1) (VRef a) tk'
    = step h (VRef a) tk'.
Proof.
  intros Ha T Ok N. unfold step.
  rewrite !descend_ref.
  pose proof (stored_lookup h v a o (write o (slot_name o tk) (box h v).2) Ha) as L.
  rewrite L, Ha.
  unfold takes in T. rewrite Ha in T.
  destruct o as [n|iso|z sc|text|bs|kt vt es|et xs|tn fs], tk as [k|i];
    try discriminate T; cbn [slot_name write] in L |- *.
  - destruct tk' as [k'|i']; cbn [as_dictionary get_item];
      rewrite ?L, ?Ha; [|reflexivity].
    apply AssocFacts.get_set_ne. congruence.
  - destruct tk' as [k'|i']; cbn [as_dictionary get_item];
      rewrite ?L, ?Ha.
    + apply AssocFacts.get_set_ne. congruence.
    + destruct kt; try discriminate T. reflexivity.
  - destruct (index_key kt i) as [s|] eqn:K; [|destruct kt; discriminate T].
    apply index_key_decimal in K as ->. cbn [write] in L |- *.
    destruct tk' as [k'|i']; cbn [as_dictionary get_item];
      rewrite ?L, ?Ha.
    + apply AssocFacts.get_set_ne. now apply identifier_not_decimal.
    + destruct (index_key kt i') as [s'|] eqn:K'; [|reflexivity].
      apply index_key_decimal in K' as ->.
      apply AssocFacts.get_set_ne. intros E. apply decimal_inj in E. congruence.
  - destruct tk' as [k'|i']; cbn [as_dictionary get_item];
      rewrite ?L, ?Ha; [reflexivity|].
    apply list_lookup_insert_ne. congruence.
Qed.

End SlotFacts.

(** X1: when the steps before the last resolve to a container, the literal
    is converted to an engine value, and the container takes the value at
    the last step, the assignment returns, the step then addresses a slot
    that holds the value, and every other step that a path can denote
    reads from the container what it read before. *)
Theorem set_value_writes_slot (h : heap) (root : value)
    (path_expr value_literal : string) (pre : list token) (tk : token)
    (p : value) (v : net) :
  parse_path path_expr = Ok (pre ++ [tk]) ->
  resolve h root pre = Some p ->
  _to_net (parse_value_literal value_literal) = Ok v ->
  takes h p tk v = true ->
  exists h',
    set_value h root path_expr value_literal = (h', Ok tt) /\
    step h' p tk = Some (box h v).2 /\
    forall tk', token_ok tk' -> tk' <> tk -> step h' p tk' = step h p tk'.
Proof.
  intros P R V T.
  rewrite (set_value_resolved h _ _ _ _ _ _ P R).
  destruct (assign_taken h p tk path_expr _ v V T) as (a & o & -> & Ha & -> & Ch).
  eexists. split; [reflexivity|].
  split; [now apply step_stored|].
  intros tk' Ok N. now apply step_frame.
Qed.

(** A score in a dictionary keyed by integers whose values are integers. *)
Lemma set_value_writes_slot_witness :
  exists h',
    set_value typed_graph (VRef 0) "scores[1]" "15" = (h', Ok tt) /\
    step h' (VRef 1) (TIdx 1) = Some (box typed_graph (NetInt32 15)).2 /\
    forall tk', token_ok tk' -> tk' <> TIdx 1 ->
      step h' (VRef 1) tk' = step typed_graph (VRef 1) tk'.
Proof.
  apply (set_value_writes_slot typed_graph (VRef 0) "scores[1]" "15"
           [TKey "scores"] (TIdx 1) (VRef 1) (NetInt32 15));
    [vm_compute; reflexivity|reflexivity|reflexivity|reflexivity].
Defined.
